(** * Newton-Raphson square-root solver of ApplicationActivity.py

    A shallow embedding of [newton_raphson_interactive] and the properties
    its specification states about it.

    The loop is written once, over the arithmetic it uses ([PyFloat]); the
    arithmetic is then given as
    - [binary64]: the IEEE 754 doubles CPython's [float] computes with
      (Rocq's primitive floats), the program as it runs, with [x**2] the
      correctly rounded product;
    - [binary64_with pw]: the same doubles on a platform whose
      [pow(x, 2.0)] is [pw], for what depends on the last bit of a square;
    - [exact]: the real numbers, the reading under which the specification
      speaks of a limit.

    How far a double is from a square root is measured on the real number
    the double stands for ([B2R]). *)

From Stdlib Require Import ZArith List Bool Lia.
From Stdlib Require Import Floats.
From Stdlib Require Import Reals Lra.
Import ListNotations.

Set Implicit Arguments.
Set Warnings "-inexact-float".

(** ** Exceptions

    The arithmetic of the loop can raise two Python exceptions: [x**2]
    raises [OverflowError] when the square of a finite float is out of
    range, and [/] raises [ZeroDivisionError] on a zero divisor. *)

Inductive exn : Set := OverflowError | ZeroDivisionError.

Inductive res (A : Type) : Type :=
| Ok (a : A)
| Raise (e : exn).

Arguments Ok {A} a.
Arguments Raise {A} e.

Definition bind {A B : Type} (c : res A) (k : A -> res B) : res B :=
  match c with
  | Ok a => k a
  | Raise e => Raise e
  end.

Notation "x <- c ;; k" := (bind c (fun x => k))
  (at level 61, c at next level, right associativity).

(** ** The arithmetic the loop uses *)

Class PyFloat (F : Type) : Type := {
  lit_2 : F;                      (* the literal [2] of [2*x] *)
  lit_1e12 : F;                   (* the literal [1e-12] of the guard *)
  fsub : F -> F -> F;             (* [a - b] *)
  fmul : F -> F -> F;             (* [a * b] *)
  fabs : F -> F;                  (* [abs(a)] *)
  flt : F -> F -> bool;           (* [a < b] *)
  fpow2 : F -> res F;             (* [a**2] *)
  ftruediv : F -> F -> res F      (* [a / b] *)
}.

(** ** The solver *)

Section Solver.

Context {F : Type} `{PyFloat F}.

(** One dictionary appended to [iterations]:
    [{'Iter': i+1, 'x_curr': x_curr, 'f(x)': fx, 'Error': error}]. *)
Record IterationRecord : Type := {
  Iter : Z;
  x_curr : F;
  f_x : F;
  Error : F
}.

(** The lines the function prints. The text formatting ([:<12.6f]) is left
    out: a line carries the values that are formatted. *)
Inductive line : Type :=
| Banner (target_val x0 : F)
| Columns
| Row (i : Z) (x fx err : F)
| ConvergedTo (x : F).

(** The variables the loop reads and writes, and the standard output. *)
Record frame : Type := {
  cur : F;                              (* [x_curr] *)
  iterations : list IterationRecord;    (* [iterations] *)
  stdout : list line
}.

(** How a pass of the loop ends, and how the loop ends. *)
Inductive exit : Set :=
| Singular     (* [if abs(dfx) < 1e-12: break] *)
| Converged    (* [if error < tol: ... break] *)
| Exhausted.   (* [range(max_iter)] is used up *)

Inductive ctl : Type :=
| Continue (s : frame)
| Break (why : exit) (s : frame).

(** [def f(x): return x**2 - target_val] *)
Definition f (target_val x : F) : res F :=
  sq <- fpow2 x ;; Ok (fsub sq target_val).

(** [def df(x): return 2*x] *)
Definition df (x : F) : F := fmul lit_2 x.

(** [abs(dfx) < 1e-12] *)
Definition singular (dfx : F) : bool := flt (fabs dfx) lit_1e12.

(** [x_next = x_curr - fx/dfx] *)
Definition step (x fx dfx : F) : res F :=
  q <- ftruediv fx dfx ;; Ok (fsub x q).

(** The body of [for i in range(max_iter)], for the value [i] of the loop
    variable. *)
Definition body (target_val tol : F) (i : Z) (s : frame) : res ctl :=
  fx <- f target_val (cur s) ;;
  let dfx := df (cur s) in
  if singular dfx then Ok (Break Singular s)
  else
    x_next <- step (cur s) fx dfx ;;
    let error := fabs (fsub x_next (cur s)) in
    let r := {| Iter := i + 1; x_curr := cur s; f_x := fx; Error := error |} in
    let s1 := {| cur := cur s;
                 iterations := iterations s ++ [r];
                 stdout := stdout s ++ [Row (i + 1) (cur s) fx error] |} in
    if flt error tol then
      Ok (Break Converged
            {| cur := cur s1;
               iterations := iterations s1;
               stdout := stdout s1 ++ [ConvergedTo x_next] |})
    else
      Ok (Continue
            {| cur := x_next;
               iterations := iterations s1;
               stdout := stdout s1 |}).

(** [for i in range(max_iter)], with [n] values of [i] left, the next
    one being [i]. *)
Fixpoint for_range (target_val tol : F) (n : nat) (i : Z) (s : frame)
  : res (exit * frame) :=
  match n with
  | O => Ok (Exhausted, s)
  | S n' =>
      c <- body target_val tol i s ;;
      match c with
      | Break why s' => Ok (why, s')
      | Continue s' => for_range target_val tol n' (i + 1) s'
      end
  end.

(** What a call leaves behind: the returned table ([pd.DataFrame(iterations)],
    one row per dictionary in order), the standard output, the value of
    [x_curr] at the end (the [Final Root] of the plot title), and the way
    the loop ended. *)
Record outcome : Type := {
  table : list IterationRecord;
  printed : list line;
  final_root : F;
  ended : exit
}.

(** The variables when the loop is entered: [iterations = []],
    [x_curr = x0], and the two lines printed before the loop. *)
Definition entry (out : list line) (target_val x0 : F) : frame :=
  {| cur := x0;
     iterations := [];
     stdout := out ++ [Banner target_val x0; Columns] |}.

(** [newton_raphson_interactive(target_val, x0, tol, max_iter)], called when
    the standard output holds [out]. [range(max_iter)] is empty for
    [max_iter <= 0]. The Plotly calls read [x_curr], [x_next] and [fx] and
    write only to the figure; they are not modelled. *)
Definition newton_raphson_interactive
    (out : list line) (target_val x0 tol : F) (max_iter : Z) : res outcome :=
  r <- for_range target_val tol (Z.to_nat max_iter) 0 (entry out target_val x0) ;;
  let '(why, s) := r in
  Ok {| table := iterations s;
        printed := stdout s;
        final_root := cur s;
        ended := why |}.

(** The call on an empty standard output. *)
Definition solve (target_val x0 tol : F) (max_iter : Z) : res outcome :=
  newton_raphson_interactive [] target_val x0 tol max_iter.

(** What the caller receives: the table, or the exception. *)
Definition returned (r : res outcome) : res (list IterationRecord) :=
  o <- r ;; Ok (table o).

(** The frame at the start of the pass with loop variable [i + k], when the
    [k] passes from [i] on all ran to their end without [break]. *)
Fixpoint advance (target_val tol : F) (k : nat) (i : Z) (s : frame)
  : option frame :=
  match k with
  | O => Some s
  | S k' =>
      match body target_val tol i s with
      | Ok (Continue s') => advance target_val tol k' (i + 1) s'
      | _ => None
      end
  end.

(** *** What the specification says of a record *)

(** The [x_next] of the pass that appended [r], recomputed from the record:
    [x_curr - f_x / (2 * x_curr)]. *)
Definition x_next_of (r : IterationRecord) : res F :=
  step (x_curr r) (f_x r) (df (x_curr r)).

(** [r] holds [f(x_curr)] and [abs(x_next - x_curr)]. *)
Definition well_formed (target_val : F) (r : IterationRecord) : Prop :=
  f target_val (x_curr r) = Ok (f_x r) /\
  exists x_next, x_next_of r = Ok x_next /\ Error r = fabs (fsub x_next (x_curr r)).


(** *** The loop as a relation

    [Trace target_val tol n i x recs lines why x'] : with [n] values of the
    loop variable left from [i] on and [x_curr = x], the loop appends [recs]
    to [iterations], prints [lines], ends by [why] and leaves [x_curr = x']. *)

Definition record (i : Z) (x fx x_next : F) : IterationRecord :=
  {| Iter := i + 1; x_curr := x; f_x := fx; Error := fabs (fsub x_next x) |}.

Definition row (i : Z) (x fx x_next : F) : line :=
  Row (i + 1) x fx (fabs (fsub x_next x)).

Inductive Trace (target_val tol : F)
  : nat -> Z -> F -> list IterationRecord -> list line -> exit -> F -> Prop :=
| Trace_exhausted i x :
    Trace target_val tol 0 i x [] [] Exhausted x
| Trace_singular n i x fx :
    f target_val x = Ok fx ->
    singular (df x) = true ->
    Trace target_val tol (S n) i x [] [] Singular x
| Trace_converged n i x fx x_next :
    f target_val x = Ok fx ->
    singular (df x) = false ->
    step x fx (df x) = Ok x_next ->
    flt (fabs (fsub x_next x)) tol = true ->
    Trace target_val tol (S n) i x
      [record i x fx x_next] [row i x fx x_next; ConvergedTo x_next] Converged x
| Trace_continue n i x fx x_next recs lines why x' :
    f target_val x = Ok fx ->
    singular (df x) = false ->
    step x fx (df x) = Ok x_next ->
    flt (fabs (fsub x_next x)) tol = false ->
    Trace target_val tol n (i + 1) x_next recs lines why x' ->
    Trace target_val tol (S n) i x
      (record i x fx x_next :: recs) (row i x fx x_next :: lines) why x'.

End Solver.

Arguments IterationRecord F : clear implicits.
Arguments line F : clear implicits.
Arguments frame F : clear implicits.
Arguments ctl F : clear implicits.
Arguments outcome F : clear implicits.

(** What the guard is there for: the operands it lets through do not make
    the division fail, and those it stops did not make [x**2] fail. *)
Class PyFloatLaws (F : Type) {PF : PyFloat F} : Prop := {
  fpow2_guarded : forall x, singular (df x) = true -> exists y, fpow2 x = Ok y;
  ftruediv_guarded : forall a b, singular b = false -> exists q, ftruediv a b = Ok q
}.

Arguments PyFloatLaws F {PF}.

(** ** What is printed and plotted *)

Section Rendering.

Context {F : Type} {PF : PyFloat F}.

(** The line [print(f"{i+1:<5} {x_curr:<12.6f} {fx:<12.6f} {error:<12.6f}")]
    of the pass that appended [r]. *)
Definition row_of (r : IterationRecord F) : line F :=
  Row (Iter r) (x_curr r) (f_x r) (Error r).

Fixpoint last_record (l : list (IterationRecord F)) : option (IterationRecord F) :=
  match l with
  | [] => None
  | [r] => Some r
  | _ :: l' => last_record l'
  end.

(** [print(f"Converged to {x_next:.6f}")], printed by the pass that ends
    the loop on [error < tol]. *)
Definition converged_line (why : exit) (l : list (IterationRecord F))
  : list (line F) :=
  match why, last_record l with
  | Converged, Some r =>
      match x_next_of r with
      | Ok x_next => [ConvergedTo x_next]
      | Raise _ => []
      end
  | _, _ => []
  end.

(** The traces of the figure. The curve [go.Scatter(x=x_range, y=y_range)]
    is kept by the values it is sampled from, [target_val] and [x0]
    ([np.linspace(0, x0 + 2, 1000)]); a tangent is the segment from
    [(x_curr, fx)] to [(x_next, 0)], a start the marker at [(x_curr, fx)];
    both are named after [i+1]. *)
Inductive trace : Type :=
| Curve (target_val x0 : F)
| Tangent (i : Z) (x fx x_next : F)
| Start (i : Z) (x fx : F).

(** The figure: its traces in the order of the [add_trace] calls, and the
    root shown in the title set by [update_layout]. *)
Record figure : Type := {
  traces : list trace;
  title_root : option F
}.

(** The body of the loop with the two [fig.add_trace] calls of a pass,
    which come after [error] is computed and before the record is
    appended. *)
Definition body_fig (target_val tol : F) (i : Z) (s : frame F) (g : list trace)
  : res (ctl F * list trace) :=
  fx <- f target_val (cur s) ;;
  let dfx := df (cur s) in
  if singular dfx then Ok (Break Singular s, g)
  else
    x_next <- step (cur s) fx dfx ;;
    let error := fabs (fsub x_next (cur s)) in
    let g1 := g ++ [Tangent (i + 1) (cur s) fx x_next] in
    let g2 := g1 ++ [Start (i + 1) (cur s) fx] in
    let r := {| Iter := i + 1; x_curr := cur s; f_x := fx; Error := error |} in
    let s1 := {| cur := cur s;
                 iterations := iterations s ++ [r];
                 stdout := stdout s ++ [Row (i + 1) (cur s) fx error] |} in
    if flt error tol then
      Ok (Break Converged
            {| cur := cur s1;
               iterations := iterations s1;
               stdout := stdout s1 ++ [ConvergedTo x_next] |}, g2)
    else
      Ok (Continue
            {| cur := x_next;
               iterations := iterations s1;
               stdout := stdout s1 |}, g2).

Fixpoint for_range_fig (target_val tol : F) (n : nat) (i : Z)
    (s : frame F) (g : list trace) : res (exit * frame F * list trace) :=
  match n with
  | O => Ok (Exhausted, s, g)
  | S n' =>
      c <- body_fig target_val tol i s g ;;
      match c with
      | (Break why s', g') => Ok (why, s', g')
      | (Continue s', g') => for_range_fig target_val tol n' (i + 1) s' g'
      end
  end.

(** The whole function, with the figure it shows: the curve is added
    before the loop, the title is set after it from [x_curr]. *)
Definition newton_raphson_plotted
    (out : list (line F)) (target_val x0 tol : F) (max_iter : Z)
  : res (outcome F * figure) :=
  r <- for_range_fig target_val tol (Z.to_nat max_iter) 0
         (entry out target_val x0) [Curve target_val x0] ;;
  let '(why, s, g) := r in
  Ok ({| table := iterations s;
         printed := stdout s;
         final_root := cur s;
         ended := why |},
      {| traces := g; title_root := Some (cur s) |}).

(** The two traces of the pass that appended [r]. *)
Definition traces_of (r : IterationRecord F) : list trace :=
  match x_next_of r with
  | Ok x_next =>
      [Tangent (Iter r) (x_curr r) (f_x r) x_next;
       Start (Iter r) (x_curr r) (f_x r)]
  | Raise _ => []
  end.

(** [for N, guess in problems: newton_raphson_interactive(N, guess)]: the
    calls follow one another on the same standard output, with the default
    [tol] and [max_iter]; what they return is dropped, and an exception ends
    the script. *)
Fixpoint run_problems (tol : F) (max_iter : Z) (problems : list (F * F))
    (out : list (line F)) : res (list (line F)) :=
  match problems with
  | [] => Ok out
  | (N, guess) :: rest =>
      o <- newton_raphson_interactive out N guess tol max_iter ;;
      run_problems tol max_iter rest (printed o)
  end.

(** The values printed as converged, in order. *)
Fixpoint reported (l : list (line F)) : list F :=
  match l with
  | [] => []
  | ConvergedTo x :: l' => x :: reported l'
  | _ :: l' => reported l'
  end.

End Rendering.

Arguments trace F : clear implicits.
Arguments figure F : clear implicits.

(** ** CPython's [float] *)

Module Binary64.

Local Open Scope float_scope.

(** [float_pow] of CPython for the exponent [2]: the special cases are
    decided before the platform's [pow] is called; a finite base whose
    square is out of range raises [OverflowError]. The platform's [pow] is
    taken to round the square correctly. *)
Definition pow2 (x : float) : res float :=
  if is_nan x then Ok x
  else if is_infinity x then Ok (abs x)
  else if is_zero x then Ok zero
  else
    let ix := abs x * abs x in
    if is_infinity ix then Raise OverflowError else Ok ix.

(** [float_div] of CPython. *)
Definition truediv (a b : float) : res float :=
  if b =? zero then Raise ZeroDivisionError else Ok (a / b).

#[export] Instance binary64 : PyFloat float := {
  lit_2 := 2;
  lit_1e12 := 1e-12;
  fsub := PrimFloat.sub;
  fmul := PrimFloat.mul;
  fabs := PrimFloat.abs;
  flt := PrimFloat.ltb;
  fpow2 := pow2;
  ftruediv := truediv
}.

(** The defaults of the signature: [tol=1e-6, max_iter=10]. *)
Definition default_tol : float := 1e-6.
Definition default_max_iter : Z := 10.


(** The runs the properties below are tried on. *)

Definition no_outcome : outcome float :=
  {| table := []; printed := []; final_root := 0; ended := Exhausted |}.

Definition the_outcome (r : res (outcome float)) : outcome float :=
  match r with Ok o => o | Raise _ => no_outcome end.

(** [newton_raphson_interactive(3, 2.0)], the first problem of the script. *)
Definition run_sqrt3 : outcome float :=
  Eval vm_compute in the_outcome (solve 3 2 default_tol default_max_iter).

(** [newton_raphson_interactive(0, 1e-11, tol=0.0)]: the iterates halve
    until the guard stops the loop. *)
Definition halved_5_times : frame float :=
  Eval vm_compute in
    match advance 0 0 5 0 (entry [] 0 1e-11) with
    | Some s => s
    | None => entry [] 0 1e-11
    end.

(** The value of a finite double as a fraction [(n, d)], for [n / d]. *)
Definition to_fraction (x : float) : option (Z * Z) :=
  match Prim2SF x with
  | S754_zero _ => Some (0, 1)%Z
  | S754_finite s m e =>
      let n := if s then Z.neg m else Z.pos m in
      Some (if (0 <=? e)%Z then (n * 2 ^ e, 1) else (n, 2 ^ (- e)))%Z
  | _ => None
  end.

(** [x = n/d] for a finite double [x], decided on integers. *)
Definition equals_fraction (n d : Z) (x : float) : bool :=
  match to_fraction x with
  | Some (a, b) => (a * d =? n * b)%Z
  | None => false
  end.

(** [a/b <= x < c/d] for a finite double [x], decided on integers. *)
Definition in_range (a b c d : Z) (x : float) : bool :=
  match to_fraction x with
  | Some (n, k) => ((a * k <=? n * b) && (n * d <? c * k))%Z
  | None => false
  end.

(** [x - 1/k <= sqrt N <= x + 1/k] for a finite double [x > 1/k], decided
    on integers: with [x = n/d], it is [(n*k - d)^2 <= N * (d*k)^2 <=
    (n*k + d)^2] and [n*k - d > 0]. *)
Definition near_sqrt (N k : Z) (x : float) : bool :=
  match to_fraction x with
  | Some (n, d) =>
      ((0 <? n * k - d) && ((n * k - d) ^ 2 <=? N * (d * k) ^ 2)
       && (N * (d * k) ^ 2 <=? (n * k + d) ^ 2))%Z
  | None => false
  end.

(** The list [problems] of the script; the integers [3, 7, 20, 99] become
    doubles in [x**2 - target_val]. *)
Definition problems : list (float * float) :=
  [(3, 2); (7, 3); (20, 4); (99, 10)].

(** The script: the loop over [problems], from an empty standard output. *)
Definition script : res (list (line float)) :=
  run_problems default_tol default_max_iter problems [].

End Binary64.

(** ** Exact arithmetic *)

Module Exact.

Local Open Scope R_scope.

Definition ltb (a b : R) : bool := if Rlt_dec a b then true else false.

Definition truediv (a b : R) : res R :=
  if Req_dec_T b 0 then Raise ZeroDivisionError else Ok (a / b).

#[export] Instance exact : PyFloat R := {
  lit_2 := 2;
  lit_1e12 := 1e-12;
  fsub := Rminus;
  fmul := Rmult;
  fabs := Rabs;
  flt := ltb;
  fpow2 := fun x => Ok (x * x);
  ftruediv := truediv
}.

(** The smallest magnitude of [x_curr] that passes the guard:
    [abs(2*x) < 1e-12] fails from [5e-13] on. *)
Definition floor_x : R := 5e-13.

(** The last [x_curr] of the table tends to [L] as [tol] goes to [0] and
    [max_iter] grows: for every [eps], every run with [tol] small enough
    and [max_iter] large enough returns a table whose last record has
    [x_curr] within [eps] of [L]. *)
Definition tends_to (target_val x0 L : R) : Prop :=
  forall eps, 0 < eps ->
  exists (tol0 : R) (n0 : Z), 0 < tol0 /\
    forall (tol : R) (max_iter : Z),
      0 < tol <= tol0 -> (n0 <= max_iter)%Z ->
      exists o front r,
        solve target_val x0 tol max_iter = Ok o /\
        table o = front ++ [r] /\
        Rabs (x_curr r - L) < eps.

End Exact.

(** ** The real number a double stands for *)

Module Binary64Reals.

Local Open Scope R_scope.

Definition bpow (e : Z) : R := powerRZ 2 e.

(** The magnitude of the finite double with mantissa [m] and exponent
    [e]. *)
Definition mag (m : positive) (e : Z) : R := IZR (Zpos m) * bpow e.

Definition SF2R (x : spec_float) : R :=
  match x with
  | S754_finite s m e =>
      if s then - (IZR (Zpos m) * bpow e) else IZR (Zpos m) * bpow e
  | _ => 0
  end.

Definition B2R (x : float) : R := SF2R (Prim2SF x).

Definition SFfinite (x : spec_float) : Prop :=
  match x with
  | S754_zero _ | S754_finite _ _ _ => True
  | _ => False
  end.

(** [x] is a number: neither an infinity nor a NaN. *)
Definition finite (x : float) : Prop := SFfinite (Prim2SF x).

Definition SFnonneg (x : spec_float) : Prop :=
  match x with
  | S754_zero _ | S754_finite false _ _ => True
  | _ => False
  end.

(** [x] is a number and is not negative. *)
Definition nonneg (x : float) : Prop := SFnonneg (Prim2SF x).

(** The spacing of the doubles, relative to their size: a result rounded
    to a double in the normal range is within [eps] of the exact one. *)
Definition eps : R := bpow (-52).

End Binary64Reals.

(** ** The platform's [pow] *)

Module Platform.

Import Binary64 Binary64Reals.

Local Open Scope float_scope.

(** [float_pow] for the exponent [2], with the platform's [pow(x, 2.0)]
    given by [pw]: CPython calls it on [abs(x)] once the special cases are
    decided, and raises [OverflowError] when it reports a range error. *)
Definition pow2_with (pw : float -> float) (x : float) : res float :=
  if is_nan x then Ok x
  else if is_infinity x then Ok (abs x)
  else if is_zero x then Ok zero
  else
    let ix := pw (abs x) in
    if is_infinity ix then Raise OverflowError else Ok ix.

(** Python's [float] on a platform whose [pow(x, 2.0)] is [pw]. *)
Definition binary64_with (pw : float -> float) : PyFloat float := {|
  lit_2 := 2;
  lit_1e12 := 1e-12;
  fsub := PrimFloat.sub;
  fmul := PrimFloat.mul;
  fabs := PrimFloat.abs;
  flt := PrimFloat.ltb;
  fpow2 := pow2_with pw;
  ftruediv := truediv
|}.

(** The square as the correctly rounded product: [binary64] is
    [binary64_with rounded_square]. *)
Definition rounded_square (a : float) : float := a * a.

Local Open Scope R_scope.

(** [pw] squares to within one unit in the last place, on the doubles from
    [2^-500] to [2^500], whose squares are far from the ends of the
    range. *)
Definition accurate_square (pw : float -> float) : Prop :=
  forall a : float,
    finite a -> bpow (-500) <= B2R a <= bpow 500 ->
    finite (pw a) /\
    Rabs (B2R (pw a) - B2R a * B2R a) <= eps * (B2R a * B2R a).

End Platform.

(** ** The Newton step, computed with rounding *)

Module RoundedStep.

Local Open Scope R_scope.

(** What the computed step keeps of the exact one, [(X*X + N) / (2*X)]:
    [X'] is the exact step within a relative error [k]. *)
Definition near_step (k N X X' : R) : Prop :=
  (1 - k) * (X * X + N) <= 2 * X * X' <= (1 + k) * (X * X + N).

(** A bound on the distance to the root after [n] more passes, from a
    bound [E] now, when a pass takes a distance [d] to at most
    [c * d + b]. *)
Fixpoint drift (c b : R) (n : nat) (E : R) : R :=
  match n with
  | O => E
  | S n' => drift c b n' (c * E + b)
  end.

End RoundedStep.

(** * Properties *)

(** ** The loop, for any arithmetic *)

Section SolverFacts.

Context {F : Type} {PF : PyFloat F}.
Variables target_val tol : F.

Lemma bind_Ok (A B : Type) (c : res A) (k : A -> res B) (b : B) :
  bind c k = Ok b -> exists a, c = Ok a /\ k a = Ok b.
Proof. destruct c as [a|e]; simpl; [eauto | discriminate]. Qed.

(** A pass, case by case. *)
Lemma body_cases i s c :
  body target_val tol i s = Ok c ->
  exists fx, f target_val (cur s) = Ok fx /\
  ((singular (df (cur s)) = true /\ c = Break Singular s) \/
   (singular (df (cur s)) = false /\
    exists x_next, step (cur s) fx (df (cur s)) = Ok x_next /\
    let s1 := iterations s ++ [record i (cur s) fx x_next] in
    let o1 := stdout s ++ [row i (cur s) fx x_next] in
    ((flt (fabs (fsub x_next (cur s))) tol = true /\
      c = Break Converged
            {| cur := cur s; iterations := s1; stdout := o1 ++ [ConvergedTo x_next] |}) \/
     (flt (fabs (fsub x_next (cur s))) tol = false /\
      c = Continue {| cur := x_next; iterations := s1; stdout := o1 |})))).
Proof.
  unfold body. intros Hb.
  apply bind_Ok in Hb as (fx & Hf & Hb). exists fx. split; [exact Hf|].
  destruct (singular (df (cur s))) eqn:G.
  - left. split; [reflexivity|]. now inversion Hb.
  - right. split; [reflexivity|].
    apply bind_Ok in Hb as (x_next & Hs & Hb). exists x_next. split; [exact Hs|].
    simpl. destruct (flt (fabs (fsub x_next (cur s))) tol) eqn:T.
    + left. split; [reflexivity|]. now inversion Hb.
    + right. split; [reflexivity|]. now inversion Hb.
Qed.

(** The loop function computes the relation. *)
Lemma for_range_Trace n : forall i s why s',
  for_range target_val tol n i s = Ok (why, s') ->
  exists recs lines,
    iterations s' = iterations s ++ recs /\
    stdout s' = stdout s ++ lines /\
    Trace target_val tol n i (cur s) recs lines why (cur s').
Proof.
  induction n as [|n IH]; intros i s why s' Hr; simpl in Hr.
  - inversion Hr; subst. exists [], []. rewrite !app_nil_r.
    repeat split. constructor.
  - apply bind_Ok in Hr as (c & Hb & Hr).
    apply body_cases in Hb as (fx & Hf & [[G ->]|[G (x_next & Hs & [[T ->]|[T ->]])]]).
    + inversion Hr; subst. exists [], []. rewrite !app_nil_r.
      repeat split. econstructor; eassumption.
    + inversion Hr; subst. simpl.
      exists [record i (cur s) fx x_next],
             [row i (cur s) fx x_next; ConvergedTo x_next].
      rewrite <- app_assoc. repeat split. econstructor; eassumption.
    + apply IH in Hr as (recs & lines & Hi & Ho & Ht). simpl in Hi, Ho, Ht.
      exists (record i (cur s) fx x_next :: recs),
             (row i (cur s) fx x_next :: lines).
      rewrite Hi, Ho, <- !app_assoc. repeat split.
      econstructor; eassumption.
Qed.

(** And the relation determines what the loop function computes. *)
Lemma Trace_for_range n i x recs lines why x' :
  Trace target_val tol n i x recs lines why x' ->
  forall s, cur s = x ->
  for_range target_val tol n i s =
  Ok (why, {| cur := x'; iterations := iterations s ++ recs;
              stdout := stdout s ++ lines |}).
Proof.
  induction 1 as [i x|n i x fx Hf G|n i x fx xn Hf G Hs T
                 |n i x fx xn recs lines why x' Hf G Hs T _ IH];
    intros s Hx; subst x.
  - simpl. rewrite !app_nil_r. destruct s; reflexivity.
  - simpl. unfold body. rewrite Hf. simpl. rewrite G. simpl.
    rewrite !app_nil_r. destruct s; reflexivity.
  - simpl. unfold body. rewrite Hf. simpl. rewrite G, Hs. simpl. rewrite T. simpl.
    rewrite <- app_assoc. reflexivity.
  - simpl. unfold body. rewrite Hf. simpl. rewrite G, Hs. simpl. rewrite T. simpl.
    rewrite IH by reflexivity. simpl. rewrite <- !app_assoc. reflexivity.
Qed.

(** *** What the relation says of the records *)

Lemma Trace_length n i x recs lines why x' :
  Trace target_val tol n i x recs lines why x' -> (length recs <= n)%nat.
Proof. induction 1; simpl; lia. Qed.

Lemma Trace_exit n i x recs lines why x' :
  Trace target_val tol n i x recs lines why x' ->
  match why with
  | Exhausted => length recs = n
  | Singular => (length recs < n)%nat /\ singular (df x') = true
  | Converged => True
  end.
Proof.
  induction 1 as [| | |n i x fx xn recs lines why x' _ _ _ _ _ IH]; simpl; auto.
  - split; [lia | assumption].
  - destruct why; simpl in *; auto. destruct IH. split; [lia | assumption].
Qed.


Lemma Trace_Iter n i x recs lines why x' :
  Trace target_val tol n i x recs lines why x' ->
  forall k r, nth_error recs k = Some r -> Iter r = (i + 1 + Z.of_nat k)%Z.
Proof.
  induction 1 as [| | |n i x fx xn recs lines why x' _ _ _ _ _ IH];
    intros k r Hk.
  - destruct k; discriminate.
  - destruct k; discriminate.
  - destruct k as [|[|k]]; try discriminate. inversion Hk; subst. simpl. lia.
  - destruct k as [|k]; simpl in Hk.
    + inversion Hk; subst. simpl. lia.
    + rewrite (IH _ _ Hk). lia.
Qed.

Lemma record_well_formed i x fx x_next :
  f target_val x = Ok fx -> step x fx (df x) = Ok x_next ->
  well_formed target_val (record i x fx x_next).
Proof.
  intros Hf Hs. split; [exact Hf|]. exists x_next. split; [exact Hs | reflexivity].
Qed.

Lemma Trace_records n i x recs lines why x' :
  Trace target_val tol n i x recs lines why x' ->
  forall r, In r recs ->
    well_formed target_val r /\ singular (df (x_curr r)) = false.
Proof.
  induction 1 as [| |n i x fx xn Hf G Hs T
                 |n i x fx xn recs lines why x' Hf G Hs T _ IH];
    intros r Hin; simpl in Hin; try contradiction.
  - destruct Hin as [<-|[]]. split; [now apply record_well_formed | exact G].
  - destruct Hin as [<-|Hin]; [|now apply IH].
    split; [now apply record_well_formed | exact G].
Qed.


(** Every pass but the last found [error < tol] false; a record with
    [error < tol] is the last one, and the loop ended on it. *)
Lemma Trace_tol n i x recs lines why x' :
  Trace target_val tol n i x recs lines why x' ->
  forall k r, nth_error recs k = Some r ->
    ((S k < length recs)%nat -> flt (Error r) tol = false) /\
    (flt (Error r) tol = true -> S k = length recs /\ why = Converged).
Proof.
  induction 1 as [| |n i x fx xn Hf G Hs T
                 |n i x fx xn recs lines why x' Hf G Hs T _ IH];
    intros k r Hk.
  - destruct k; discriminate.
  - destruct k; discriminate.
  - destruct k as [|[|k]]; try discriminate. inversion Hk; subst. simpl.
    split; [lia | auto].
  - destruct k as [|k]; simpl in Hk.
    + inversion Hk; subst. simpl. split; [auto | congruence].
    + destruct (IH _ _ Hk) as [A B]. simpl. split.
      * intros L. apply A. lia.
      * intros E. destruct (B E) as [-> ->]. auto.
Qed.

(** When the loop ends on [error < tol], the last record is the one of
    that pass, the last line printed reports the [x_next] of that pass, and
    [x_curr] still holds the value the pass started from. *)
Lemma Trace_converged_last n i x recs lines why x' :
  Trace target_val tol n i x recs lines why x' ->
  why = Converged ->
  exists front r x_next shown,
    recs = front ++ [r] /\
    flt (Error r) tol = true /\
    x_next_of r = Ok x_next /\
    lines = shown ++ [ConvergedTo x_next] /\
    x' = x_curr r.
Proof.
  induction 1 as [| |n i x fx xn Hf G Hs T
                 |n i x fx xn recs lines why x' Hf G Hs T _ IH];
    intros E; try discriminate.
  - exists [], (record i x fx xn), xn, [row i x fx xn]. repeat split; assumption.
  - destruct (IH E) as (front & r & x_next & shown & -> & Hr & Hn & -> & ->).
    exists (record i x fx xn :: front), r, x_next, (row i x fx xn :: shown).
    repeat split; assumption.
Qed.

(** Where [x_curr] stands at the end. *)
Lemma Trace_final n i x recs lines why x' :
  Trace target_val tol n i x recs lines why x' ->
  match recs with
  | [] => x' = x
  | _ => forall front r, recs = front ++ [r] ->
         if match why with Converged => true | _ => false end
         then x' = x_curr r else x_next_of r = Ok x'
  end.
Proof.
  induction 1 as [| |n i x fx xn Hf G Hs T
                 |n i x fx xn recs lines why x' Hf G Hs T Ht IH];
    try reflexivity.
  - intros front r E. destruct front as [|r0 [|r1 front]]; inversion E; subst.
    reflexivity.
  - intros front r E. destruct recs as [|r0 recs].
    + destruct front as [|r1 [|r2 front]]; inversion E; subst.
      inversion Ht; subst; exact Hs.
    + destruct front as [|r1 front]; [discriminate|].
      inversion E as [[E1 E2]]. now apply (IH front r).
Qed.

(** *** Passes that run to their end *)

Lemma advance_for_range k : forall n i s s',
  advance target_val tol k i s = Some s' ->
  for_range target_val tol (k + n) i s =
  for_range target_val tol n (i + Z.of_nat k) s'.
Proof.
  induction k as [|k IH]; intros n i s s' Ha; simpl in Ha.
  - inversion Ha; subst. simpl. now rewrite Z.add_0_r.
  - simpl. destruct (body target_val tol i s) as [[s1|why s1]|e];
      try discriminate. simpl.
    rewrite (IH _ _ _ _ Ha). f_equal. lia.
Qed.

Lemma advance_iterations k : forall i s s',
  advance target_val tol k i s = Some s' ->
  exists recs, iterations s' = iterations s ++ recs /\ length recs = k.
Proof.
  induction k as [|k IH]; intros i s s' Ha; simpl in Ha.
  - inversion Ha; subst. exists []. now rewrite app_nil_r.
  - destruct (body target_val tol i s) as [[s1|why s1]|e] eqn:Hb;
      try discriminate.
    apply body_cases in Hb
      as (fx & Hf & [[G E]|[G (x_next & Hs & [[T E]|[T E]])]]);
      try discriminate.
    inversion E; subst s1.
    destruct (IH _ _ _ Ha) as (recs & Hi & Hl). simpl in Hi.
    exists (record i (cur s) fx x_next :: recs).
    rewrite Hi, <- app_assoc. simpl. auto.
Qed.

End SolverFacts.

(** ** CPython's [float]: what the guard protects *)

Module Binary64Facts.

Import Binary64.

Unset Implicit Arguments.

Local Open Scope Z_scope.

Ltac zstd :=
  change IntDef.Z.max with Z.max in *;
  change IntDef.Z.sub with Z.sub in *.

(** *** Digits of a mantissa *)

Lemma digits2_size p : digits2_pos p = Pos.size p.
Proof. induction p; simpl; congruence. Qed.

Lemma digits2_upper p : Zpos p < 2 ^ Zpos (digits2_pos p).
Proof.
  rewrite digits2_size. pose proof (Pos.size_gt p) as G.
  apply Pos2Z.pos_lt_pos in G. now rewrite Pos2Z.inj_pow in G.
Qed.

Lemma digits2_lower p : 2 ^ Zpos (digits2_pos p) <= 2 * Zpos p.
Proof.
  rewrite digits2_size. pose proof (Pos.size_le p) as G.
  apply Pos2Z.pos_le_pos in G. now rewrite Pos2Z.inj_pow in G.
Qed.

Lemma Zdigits2_le_of_lt z k : 0 <= k -> 0 <= z < 2 ^ k -> Zdigits2 z <= k.
Proof.
  intros Hk [Hz Hlt]. destruct z as [|q|q]; simpl; try lia.
  destruct (Z.le_gt_cases (Zpos (digits2_pos q)) k) as [|G]; [assumption|].
  pose proof (digits2_lower q) as L.
  assert (2 ^ (k + 1) <= 2 ^ Zpos (digits2_pos q)) by (apply Z.pow_le_mono_r; lia).
  rewrite Z.pow_add_r in * by lia. lia.
Qed.

(** *** Shifting right does not grow the mantissa *)

Lemma shr_1_bounds mrs : 0 <= shr_m mrs -> 0 <= shr_m (shr_1 mrs) <= shr_m mrs.
Proof.
  destruct mrs as [m r s]; simpl. intros Hm.
  destruct m as [|[q|q|]|q]; simpl; lia.
Qed.

Lemma iter_shr_1_bounds n : forall mrs,
  0 <= shr_m mrs -> 0 <= shr_m (SpecFloat.iter_pos shr_1 n mrs) <= shr_m mrs.
Proof.
  induction n as [n IH|n IH|]; intros mrs Hm; simpl.
  - pose proof (shr_1_bounds mrs Hm) as B1.
    pose proof (IH (shr_1 mrs) (proj1 B1)) as B2.
    pose proof (IH _ (proj1 B2)) as B3. lia.
  - pose proof (IH mrs Hm) as B2.
    pose proof (IH _ (proj1 B2)) as B3. lia.
  - apply shr_1_bounds, Hm.
Qed.

Lemma shr_bounds mrs e n :
  0 <= shr_m mrs ->
  0 <= shr_m (fst (shr mrs e n)) <= shr_m mrs /\
  snd (shr mrs e n) = e + Z.max 0 n.
Proof.
  intros Hm. destruct n as [|p|p]; simpl; try (split; lia).
  split; [apply iter_shr_1_bounds, Hm | lia].
Qed.

Lemma round_nearest_even_bounds m l :
  0 <= m -> 0 <= round_nearest_even m l <= m + 1.
Proof.
  intros Hm. destruct l as [|[| |]]; simpl; try lia.
  destruct (Z.even m); lia.
Qed.

(** *** Rounding a small product does not overflow *)

Lemma binary_round_aux_small s p ex :
  Zpos (digits2_pos p) <= 200 -> ex <= 500 ->
  forall s', binary_round_aux prec emax s (Zpos p) ex loc_Exact <> S754_infinity s'.
Proof.
  intros Hd Hsmall s'. unfold binary_round_aux.
  unfold shr_fexp at 1.
  set (n1 := fexp prec emax (Zdigits2 (Zpos p) + ex) - ex).
  destruct (shr_bounds (shr_record_of_loc (Zpos p) loc_Exact) ex n1) as [B1 E1];
    [simpl; lia|].
  destruct (shr (shr_record_of_loc (Zpos p) loc_Exact) ex n1) as [mrs1 e1].
  simpl in B1, E1.
  set (mr := round_nearest_even (shr_m mrs1) (loc_of_shr_record mrs1)).
  pose proof (round_nearest_even_bounds (shr_m mrs1) (loc_of_shr_record mrs1)
                (proj1 B1)) as BR.
  fold mr in BR.
  unfold shr_fexp.
  set (n2 := fexp prec emax (Zdigits2 mr + e1) - e1).
  destruct (shr_bounds (shr_record_of_loc mr loc_Exact) e1 n2) as [B2 E2];
    [simpl; lia|].
  destruct (shr (shr_record_of_loc mr loc_Exact) e1 n2) as [mrs2 e2].
  simpl in B2, E2.
  pose proof (digits2_upper p) as U.
  assert (D : Zdigits2 mr <= Zpos (digits2_pos p) + 1).
  { apply Zdigits2_le_of_lt; [lia|]. split; [lia|].
    rewrite Z.pow_add_r by lia. lia. }
  destruct (shr_m mrs2); try discriminate.
  assert (Hle : e2 <= emax - prec).
  { subst e2 e1 n2 n1. unfold fexp, SpecFloat.emin, emax, prec in *.
    simpl Zdigits2 in *. zstd. lia. }
  apply Z.leb_le in Hle. rewrite Hle. discriminate.
Qed.

(** *** Doubling a normal number *)

Lemma valid_finite s m e :
  valid_binary (S754_finite s m e) = true ->
  e <= 971 /\ Z.max (Zpos (digits2_pos m) + e - 53) (-1074) = e.
Proof.
  unfold SpecFloat.valid_binary, bounded, canonical_mantissa.
  intros V. apply andb_true_iff in V as [C B].
  apply Z.eqb_eq in C. apply Z.leb_le in B.
  unfold fexp, SpecFloat.emin, emax, prec in *. zstd. lia.
Qed.

Lemma SFmul_two_normal s m e :
  digits2_pos m = 53%positive -> -1074 <= e ->
  SF64mul (S754_finite false 4503599627370496 (-51)) (S754_finite s m e) =
  if e + 1 <=? 971 then S754_finite s m (e + 1) else S754_infinity s.
Proof.
  intros Hd He. unfold SF64mul, SFmul, binary_round_aux.
  unfold shr_fexp at 1.
  assert (D : Zdigits2 (Zpos (4503599627370496 * m)) = 105).
  { cbn [Zdigits2 Pos.mul digits2_pos]. rewrite Hd. reflexivity. }
  rewrite D.
  assert (N : fexp prec emax (105 + (-51 + e)) - (-51 + e) = 52).
  { unfold fexp, SpecFloat.emin, prec, emax. zstd. lia. }
  rewrite N.
  cbn [shr shr_record_of_loc SpecFloat.iter_pos shr_1 Pos.mul fst snd shr_m
       loc_of_shr_record round_nearest_even orb xorb].
  unfold shr_fexp. cbn [Zdigits2]. rewrite Hd.
  assert (N2 : fexp prec emax (53 + (-51 + e + 52)) - (-51 + e + 52) = 0).
  { unfold fexp, SpecFloat.emin, prec, emax. zstd. lia. }
  rewrite N2.
  cbn [shr shr_record_of_loc shr_m].
  replace (-51 + e + 52) with (e + 1) by lia. reflexivity.
Qed.

Lemma two_SF : Prim2SF 2 = S754_finite false 4503599627370496 (-51).
Proof. vm_compute. reflexivity. Qed.

Lemma guard_SF : Prim2SF 1e-12 = S754_finite false 4951760157141521 (-92).
Proof. vm_compute. reflexivity. Qed.

Lemma zero_SF : Prim2SF zero = S754_zero false.
Proof. vm_compute. reflexivity. Qed.

Lemma infinity_SF : Prim2SF infinity = S754_infinity false.
Proof. vm_compute. reflexivity. Qed.

(** A finite [x] with [abs(2*x) < 1e-12] has a small exponent. *)
Lemma guard_exponent x s m e :
  Prim2SF x = S754_finite s m e ->
  (abs (2 * x) <? 1e-12)%float = true -> e <= -93.
Proof.
  intros Hx G.
  pose proof (Prim2SF_valid x) as V. rewrite Hx in V.
  apply valid_finite in V as [Vle Vc].
  destruct (Z_le_gt_dec e (-93)) as [|Hbig]; [assumption|exfalso].
  assert (Hd : digits2_pos m = 53%positive).
  { assert (Zpos (digits2_pos m) = 53) by lia. congruence. }
  rewrite ltb_spec, abs_spec, mul_spec, Hx, two_SF, guard_SF in G.
  rewrite SFmul_two_normal in G by (assumption || lia).
  destruct (e + 1 <=? 971); cbn [SFabs] in G.
  - unfold SFltb, SFcompare in G.
    destruct (Z.compare_spec (e + 1) (-92)); try lia; discriminate.
  - discriminate.
Qed.

(** The square of such an [x] is in range. *)
Lemma square_in_range x :
  (abs (2 * x) <? 1e-12)%float = true ->
  is_infinity (abs x * abs x) = false.
Proof.
  intros G. unfold is_infinity.
  rewrite eqb_spec, abs_spec, mul_spec, abs_spec, infinity_SF.
  destruct (Prim2SF x) as [s|s| |s m e] eqn:Hx; try reflexivity.
  { exfalso. rewrite ltb_spec, abs_spec, mul_spec, Hx, two_SF, guard_SF in G.
    destruct s; discriminate. }
  pose proof (guard_exponent x s m e Hx G) as He.
  pose proof (Prim2SF_valid x) as V. rewrite Hx in V.
  apply valid_finite in V as [_ Vc].
  cbn [SFabs]. unfold SF64mul, SFmul. cbn [xorb].
  assert (Hd : Zpos (digits2_pos (m * m)) <= 200).
  { change (Zpos (digits2_pos (m * m))) with (Zdigits2 (Zpos m * Zpos m)).
    apply Zdigits2_le_of_lt; [lia|]. split; [lia|].
    pose proof (digits2_upper m) as U.
    assert (Zpos (digits2_pos m) <= 53) by lia.
    assert (2 ^ Zpos (digits2_pos m) <= 2 ^ 53) by (apply Z.pow_le_mono_r; lia).
    change (2 ^ 200) with (2 ^ 53 * 2 ^ 147). nia. }
  pose proof (@binary_round_aux_small false (m * m) (e + e) Hd ltac:(lia)) as NoInf.
  destruct (binary_round_aux prec emax false (Zpos (m * m)) (e + e) loc_Exact)
    as [s1|s1| |s1 m1 e1]; try reflexivity.
  exfalso. exact (NoInf s1 eq_refl).
Qed.

(** The guard lets no zero divisor through. *)
Lemma guarded_nonzero b :
  (abs b <? 1e-12)%float = false -> (b =? zero)%float = false.
Proof.
  intros G. rewrite ltb_spec, abs_spec, guard_SF in G.
  rewrite eqb_spec, zero_SF.
  destruct (Prim2SF b) as [s|[|]| |[|] m e]; try reflexivity; discriminate.
Qed.

#[export] Instance binary64_laws : PyFloatLaws float.
Proof.
  split.
  - intros x G. change (singular (df x)) with (abs (2 * x) <? 1e-12)%float in G.
    change (fpow2 x) with (pow2 x). unfold pow2.
    destruct (is_nan x); [eauto|].
    destruct (is_infinity x); [eauto|].
    destruct (is_zero x); [eauto|].
    rewrite (square_in_range x G). eauto.
  - intros a b G. change (singular b) with (abs b <? 1e-12)%float in G.
    change (ftruediv a b) with (truediv a b). unfold truediv.
    rewrite (guarded_nonzero b G). eauto.
Qed.

(** [x0 == 0] holds of the two zeros only. *)
Lemma eqb_zero x : (x =? zero)%float = true -> x = zero \/ x = neg_zero.
Proof.
  intros E. rewrite eqb_spec, zero_SF in E.
  rewrite <- (SF2Prim_Prim2SF x).
  destruct (Prim2SF x) as [[|]|[|]| |[|] m e]; try discriminate.
  - right. reflexivity.
  - left. reflexivity.
Qed.

End Binary64Facts.

Set Implicit Arguments.

(** ** Exact arithmetic: the guard on the reals *)

Module ExactFacts.

Import Exact.

Local Open Scope R_scope.

Lemma ltb_true a b : ltb a b = true <-> a < b.
Proof. unfold ltb. destruct (Rlt_dec a b); split; auto; discriminate. Qed.

Lemma ltb_false a b : ltb a b = false <-> b <= a.
Proof.
  unfold ltb. destruct (Rlt_dec a b); split; auto; try discriminate; lra.
Qed.

Lemma singular_true x : singular (df x) = true <-> Rabs (2 * x) < 1e-12.
Proof. apply ltb_true. Qed.

Lemma singular_false x : singular (df x) = false <-> 1e-12 <= Rabs (2 * x).
Proof. apply ltb_false. Qed.

Lemma not_singular_far x : singular (df x) = false -> floor_x <= Rabs x.
Proof.
  intros G. apply singular_false in G. unfold floor_x.
  rewrite Rabs_mult, (Rabs_right 2) in G; lra.
Qed.

#[export] Instance exact_laws : PyFloatLaws R.
Proof.
  split.
  - intros x _. simpl. eauto.
  - intros a b G. simpl. unfold truediv.
    destruct (Req_dec_T b 0) as [->|]; [|eauto].
    exfalso. apply ltb_false in G. simpl in G. rewrite Rabs_R0 in G. lra.
Qed.

End ExactFacts.

(** ** A call, for any arithmetic *)

Section CallFacts.

Context {F : Type} {PF : PyFloat F}.
Variables target_val tol : F.

(** The table, the lines and the final [x_curr] of a call are those of the
    loop run from [x0] with [max_iter] values of the loop variable. *)
Lemma call_Trace out x0 max_iter o :
  newton_raphson_interactive out target_val x0 tol max_iter = Ok o ->
  exists lines,
    Trace target_val tol (Z.to_nat max_iter) 0 x0
      (table o) lines (ended o) (final_root o) /\
    printed o = (out ++ [Banner target_val x0; Columns]) ++ lines.
Proof.
  unfold newton_raphson_interactive. intros Hc.
  apply bind_Ok in Hc as ([why s] & Hr & Ho). inversion Ho; subst o. simpl.
  apply for_range_Trace in Hr as (recs & lines & Hi & Hs & Ht).
  simpl in Hi, Hs, Ht. exists lines. rewrite Hi, Hs. auto.
Qed.

(** The loop does not read the standard output. *)
Lemma body_stdout i s1 s2 :
  cur s1 = cur s2 -> iterations s1 = iterations s2 ->
  match body target_val tol i s1, body target_val tol i s2 with
  | Ok (Continue t1), Ok (Continue t2) =>
      cur t1 = cur t2 /\ iterations t1 = iterations t2
  | Ok (Break w1 t1), Ok (Break w2 t2) =>
      w1 = w2 /\ cur t1 = cur t2 /\ iterations t1 = iterations t2
  | Raise e1, Raise e2 => e1 = e2
  | _, _ => False
  end.
Proof.
  intros Hc Hi. unfold body. rewrite <- Hc, <- Hi.
  destruct (f target_val (cur s1)) as [fx|e]; simpl; [|reflexivity].
  destruct (singular (df (cur s1))); [auto|].
  destruct (step (cur s1) fx (df (cur s1))) as [xn|e]; simpl; [|reflexivity].
  destruct (flt (fabs (fsub xn (cur s1))) tol); simpl; auto.
Qed.

Lemma for_range_stdout n : forall i s1 s2,
  cur s1 = cur s2 -> iterations s1 = iterations s2 ->
  match for_range target_val tol n i s1, for_range target_val tol n i s2 with
  | Ok (w1, t1), Ok (w2, t2) =>
      w1 = w2 /\ cur t1 = cur t2 /\ iterations t1 = iterations t2
  | Raise e1, Raise e2 => e1 = e2
  | _, _ => False
  end.
Proof.
  induction n as [|n IH]; intros i s1 s2 Hc Hi; simpl; [auto|].
  pose proof (body_stdout i s1 s2 Hc Hi) as Hb.
  destruct (body target_val tol i s1) as [[t1|w1 t1]|e1],
           (body target_val tol i s2) as [[t2|w2 t2]|e2];
    simpl; try contradiction; auto.
  destruct Hb as [Hc' Hi']. now apply IH.
Qed.

Lemma returned_stdout out1 out2 x0 max_iter :
  returned (newton_raphson_interactive out1 target_val x0 tol max_iter) =
  returned (newton_raphson_interactive out2 target_val x0 tol max_iter).
Proof.
  unfold returned, newton_raphson_interactive.
  pose proof (for_range_stdout (Z.to_nat max_iter) 0
                (entry out1 target_val x0) (entry out2 target_val x0)
                eq_refl eq_refl) as Hs.
  destruct (for_range target_val tol (Z.to_nat max_iter) 0
              (entry out1 target_val x0)) as [[w1 t1]|e1],
           (for_range target_val tol (Z.to_nat max_iter) 0
              (entry out2 target_val x0)) as [[w2 t2]|e2];
    simpl; try contradiction.
  - destruct Hs as (_ & _ & ->). reflexivity.
  - now subst.
Qed.

(** A pass that finds the guard true leaves everything as it was. *)
Lemma body_singular {L : PyFloatLaws F} i s :
  singular (df (cur s)) = true ->
  body target_val tol i s = Ok (Break Singular s).
Proof.
  intros G. unfold body, f.
  destruct (fpow2_guarded (cur s) G) as [sq ->]. simpl. now rewrite G.
Qed.

(** The indices of the records, from the relation. *)
Lemma Trace_indices n i x recs lines why x' :
  Trace target_val tol n i x recs lines why x' ->
  map Iter recs = map (fun k => (i + Z.of_nat k)%Z) (seq 1 (length recs)).
Proof.
  induction 1 as [| | |n i x fx xn recs lines why x' _ _ _ _ _ IH];
    try reflexivity.
  cbn [map length seq Iter record]. f_equal; try lia.
  rewrite IH, <- (seq_shift (length recs) 1), map_map.
  apply map_ext. intros k. lia.
Qed.

End CallFacts.

(** * The claims of the specification *)

Import Binary64.

Local Open Scope float_scope.

(** C1. [solve(target_val=3, x0=2.0)] with the default [tol] and [max_iter]:
    the first record of the returned table has index 1, [x_curr = 2.0],
    [f_x = 1.0] and [error = 0.25], the [x_next] of that pass being
    [2.0 - 1.0/4.0 = 1.75]. The four values are doubles, so nothing is
    rounded: [0.25] is [1/4] and [1.75] is [7/4]. *)
Theorem C1_first_record_sqrt3 :
  exists rest,
    returned (solve 3 2 default_tol default_max_iter) =
      Ok ({| Iter := 1%Z; x_curr := 2; f_x := 1; Error := 0.25 |} :: rest) /\
    x_next_of {| Iter := 1%Z; x_curr := 2; f_x := 1; Error := 0.25 |}
      = Ok 1.75%float /\
    equals_fraction 1 4 0.25 = true /\
    equals_fraction 7 4 1.75 = true.
Proof.
  exists (tl (table run_sqrt3)). repeat apply conj; vm_compute; reflexivity.
Qed.



(** C3. When the loop reaches a pass in which [abs(2 * x_curr) < 1e-12],
    that pass ends the loop without appending a record and without an
    exception: the call returns, and its table is the list of the records
    of the passes completed before, one per pass. *)
Theorem C3_guard_stops_silently
    {F : Type} {PF : PyFloat F} {L : PyFloatLaws F}
    (out : list (line F)) (target_val x0 tol : F) (max_iter : Z)
    (k : nat) (s : frame F) :
  (k < Z.to_nat max_iter)%nat ->
  advance target_val tol k 0%Z (entry out target_val x0) = Some s ->
  singular (df (cur s)) = true ->
  body target_val tol (Z.of_nat k) s = Ok (Break Singular s) /\
  length (iterations s) = k /\
  newton_raphson_interactive out target_val x0 tol max_iter =
    Ok {| table := iterations s;
          printed := stdout s;
          final_root := cur s;
          ended := Singular |}.
Proof.
  intros Hk Ha G.
  pose proof (body_singular target_val tol (Z.of_nat k) s G) as Hb.
  split; [exact Hb|]. split.
  - destruct (advance_iterations _ _ _ _ _ Ha) as (recs & Hi & Hl).
    simpl in Hi. now rewrite Hi.
  - unfold newton_raphson_interactive.
    replace (Z.to_nat max_iter) with (k + S (Z.to_nat max_iter - S k))%nat
      by lia.
    rewrite (advance_for_range _ _ _ _ _ _ Ha). simpl.
    rewrite Hb. reflexivity.
Qed.

Lemma C3_guard_stops_silently_witness :
  (5 < Z.to_nat 10)%nat /\
  advance 0%float 0%float 5%nat 0%Z (entry [] 0%float 1e-11%float)
    = Some halved_5_times /\
  singular (df (cur halved_5_times)) = true /\
  body 0%float 0%float (Z.of_nat 5%nat) halved_5_times
    = Ok (Break Singular halved_5_times) /\
  length (iterations halved_5_times) = 5%nat /\
  newton_raphson_interactive [] 0%float 1e-11%float 0%float 10%Z =
    Ok {| table := iterations halved_5_times;
          printed := stdout halved_5_times;
          final_root := cur halved_5_times;
          ended := Singular |}.
Proof.
  split; [vm_compute; lia|].
  split; [vm_compute; reflexivity|].
  split; [vm_compute; reflexivity|].
  apply (@C3_guard_stops_silently float binary64 Binary64Facts.binary64_laws
           [] 0%float 1e-11%float 0%float 10%Z 5%nat halved_5_times).
  - vm_compute; lia.
  - vm_compute; reflexivity.
  - vm_compute; reflexivity.
Defined.

(** C4. For every [target_val], when [x0 == 0] (either zero of the doubles)
    the call returns a table with no record: with [max_iter > 0] the first
    pass finds the guard true and ends the loop, and with [max_iter <= 0] no
    pass runs. Nothing is printed after the two header lines. *)
Theorem C4_zero_guess (target_val x0 tol : float) (max_iter : Z) :
  (x0 =? 0) = true ->
  exists o,
    solve target_val x0 tol max_iter = Ok o /\
    table o = [] /\
    printed o = [Banner target_val x0; Columns] /\
    final_root o = x0 /\
    ((0 < max_iter)%Z -> ended o = Singular).
Proof.
  intros E.
  assert (G : singular (df x0) = true).
  { destruct (Binary64Facts.eqb_zero x0 E) as [-> | ->]; reflexivity. }
  unfold solve, newton_raphson_interactive.
  destruct (Z.to_nat max_iter) as [|n] eqn:Hn; cbn [for_range].
  - eexists. cbn [bind]. repeat split. intros Hpos. lia.
  - rewrite (body_singular (L := Binary64Facts.binary64_laws)
               target_val tol 0%Z (entry [] target_val x0) G).
    eexists. cbn [bind]. repeat split.
Qed.

Lemma C4_zero_guess_witness :
  (neg_zero =? 0) = true /\
  exists o,
    solve 3 neg_zero default_tol default_max_iter = Ok o /\
    table o = [] /\
    printed o = [Banner 3 neg_zero; Columns] /\
    final_root o = neg_zero /\
    ((0 < default_max_iter)%Z -> ended o = Singular).
Proof.
  split; [vm_compute; reflexivity|].
  apply (@C4_zero_guess 3 neg_zero default_tol default_max_iter).
  vm_compute; reflexivity.
Defined.

(** C5, as the specification states it, fails for a negative [max_iter]:
    [range(-1)] is empty, the table has no record, and [0 <= -1] is false. *)
Lemma C5_counterexample :
  exists o,
    solve 3 2 default_tol (-1) = Ok o /\
    ~ (Z.of_nat (length (table o)) <= -1)%Z.
Proof.
  exists (the_outcome (solve 3 2 default_tol (-1))).
  split; vm_compute; [reflexivity | intros Hle; apply Hle; reflexivity].
Qed.

(** C5, amended. The returned table holds at most [max(max_iter, 0)]
    records; their indices are [1, 2, ..., n] in order, [n] being the number
    of records; and records are only appended: the list [iterations] at the
    start of any pass is a prefix of the returned table. *)
Theorem C5_at_most_max_iter_records
    {F : Type} {PF : PyFloat F}
    (out : list (line F)) (target_val x0 tol : F) (max_iter : Z)
    (o : outcome F) :
  newton_raphson_interactive out target_val x0 tol max_iter = Ok o ->
  (Z.of_nat (length (table o)) <= Z.max max_iter 0)%Z /\
  map Iter (table o) = map Z.of_nat (seq 1 (length (table o))) /\
  (forall k s,
      (k <= Z.to_nat max_iter)%nat ->
      advance target_val tol k 0%Z (entry out target_val x0) = Some s ->
      exists rest, table o = iterations s ++ rest).
Proof.
  intros Hc. pose proof Hc as Hc'.
  apply call_Trace in Hc' as (lines & Ht & _). split; [|split].
  - pose proof (Trace_length Ht). lia.
  - rewrite (Trace_indices Ht). apply map_ext. intros k. lia.
  - intros k s Hk Ha. unfold newton_raphson_interactive in Hc.
    replace (Z.to_nat max_iter) with (k + (Z.to_nat max_iter - k))%nat in Hc
      by lia.
    rewrite (advance_for_range _ _ _ _ _ _ Ha) in Hc.
    apply bind_Ok in Hc as ([why s'] & Hr & Ho). inversion Ho; subst o.
    apply for_range_Trace in Hr as (recs & _ & Hi & _). simpl.
    exists recs. exact Hi.
Qed.

Lemma C5_at_most_max_iter_records_witness :
  solve 3 2 default_tol default_max_iter = Ok run_sqrt3 /\
  (Z.of_nat (length (table run_sqrt3)) <= Z.max default_max_iter 0)%Z /\
  map Iter (table run_sqrt3) = map Z.of_nat (seq 1 (length (table run_sqrt3))) /\
  (forall k s,
      (k <= Z.to_nat default_max_iter)%nat ->
      advance 3 default_tol k 0%Z (entry [] 3 2) = Some s ->
      exists rest, table run_sqrt3 = iterations s ++ rest).
Proof.
  split; [vm_compute; reflexivity|].
  apply (@C5_at_most_max_iter_records float binary64 []
           3 2 default_tol default_max_iter run_sqrt3).
  vm_compute; reflexivity.
Defined.

(** C6, as the specification states it, fails when an error is not a
    number: [nan >= tol] is false. The finite inputs [target_val = 1e308],
    [x0 = 1e-12] give [x_next = inf] in the first pass and [error = nan]
    from the second pass on, and the loop runs on; and with [tol = nan] no
    error is [>= tol]. *)
Lemma C6_counterexample :
  (exists o r,
     solve 1e308 1e-12 default_tol default_max_iter = Ok o /\
     nth_error (table o) 1 = Some r /\
     (2 < length (table o))%nat /\
     (default_tol <=? Error r) = false) /\
  (exists o r,
     solve 3 2 nan default_max_iter = Ok o /\
     nth_error (table o) 0 = Some r /\
     (1 < length (table o))%nat /\
     (nan <=? Error r) = false).
Proof.
  split.
  - exists (the_outcome (solve 1e308 1e-12 default_tol default_max_iter)),
      {| Iter := 2%Z; x_curr := infinity; f_x := infinity; Error := nan |}.
    repeat apply conj; vm_compute; try reflexivity; lia.
  - exists (the_outcome (solve 3 2 nan default_max_iter)),
      {| Iter := 1%Z; x_curr := 2; f_x := 1; Error := 0.25 |}.
    repeat apply conj; vm_compute; try reflexivity; lia.
Qed.

(** C6, amended. In every returned table no record but the last passes the
    loop's test [error < tol]; a record that passes it is the last one and
    the loop ended on it; and when the loop ends on it, the value printed as
    converged is the [x_next] of that pass, while [x_curr] keeps the value
    the pass started from. *)
Theorem C6_only_the_last_record_converges
    {F : Type} {PF : PyFloat F}
    (out : list (line F)) (target_val x0 tol : F) (max_iter : Z)
    (o : outcome F) :
  newton_raphson_interactive out target_val x0 tol max_iter = Ok o ->
  (forall k r,
      nth_error (table o) k = Some r ->
      (S k < length (table o))%nat ->
      flt (Error r) tol = false) /\
  (forall k r,
      nth_error (table o) k = Some r ->
      flt (Error r) tol = true ->
      S k = length (table o) /\ ended o = Converged) /\
  (ended o = Converged ->
   exists front r x_next shown,
     table o = front ++ [r] /\
     flt (Error r) tol = true /\
     x_next_of r = Ok x_next /\
     printed o = shown ++ [ConvergedTo x_next] /\
     final_root o = x_curr r).
Proof.
  intros Hc. apply call_Trace in Hc as (lines & Ht & Hp). split; [|split].
  - intros k r Hk. exact (proj1 (Trace_tol Ht k Hk)).
  - intros k r Hk. exact (proj2 (Trace_tol Ht k Hk)).
  - intros E.
    destruct (Trace_converged_last Ht E)
      as (front & r & x_next & shown & Hf & Hr & Hn & Hl & Hx).
    exists front, r, x_next,
      ((out ++ [Banner target_val x0; Columns]) ++ shown).
    rewrite Hp, Hl, app_assoc. auto.
Qed.

Lemma C6_only_the_last_record_converges_witness :
  solve 3 2 default_tol default_max_iter = Ok run_sqrt3 /\
  (forall k r,
      nth_error (table run_sqrt3) k = Some r ->
      (S k < length (table run_sqrt3))%nat ->
      flt (Error r) default_tol = false) /\
  (forall k r,
      nth_error (table run_sqrt3) k = Some r ->
      flt (Error r) default_tol = true ->
      S k = length (table run_sqrt3) /\ ended run_sqrt3 = Converged) /\
  (ended run_sqrt3 = Converged ->
   exists front r x_next shown,
     table run_sqrt3 = front ++ [r] /\
     flt (Error r) default_tol = true /\
     x_next_of r = Ok x_next /\
     printed run_sqrt3 = shown ++ [ConvergedTo x_next] /\
     final_root run_sqrt3 = x_curr r).
Proof.
  split; [vm_compute; reflexivity|].
  apply (@C6_only_the_last_record_converges float binary64 []
           3 2 default_tol default_max_iter run_sqrt3).
  vm_compute; reflexivity.
Defined.

(** C7. What a call returns (the table, or the exception) depends on its
    four arguments only: it is the same whatever earlier calls left on the
    standard output, the only state a call shares with another. *)
Theorem C7_same_arguments_same_table
    {F : Type} {PF : PyFloat F}
    (out1 out2 : list (line F)) (target_val x0 tol : F) (max_iter : Z) :
  returned (newton_raphson_interactive out1 target_val x0 tol max_iter) =
  returned (newton_raphson_interactive out2 target_val x0 tol max_iter).
Proof. apply returned_stdout. Qed.

(** C8. [solve(target_val=99, x0=10.0, max_iter=10)] with the default
    tolerance converges: the table has 3 records, fewer than 10, the last
    one has [error < 1e-6], and the value reported, the [x_next] of the last
    pass, lies in [[9.9498743, 9.9498744)]. *)
Theorem C8_sqrt99_converges :
  exists o front r x_next shown,
    solve 99 10 default_tol 10 = Ok o /\
    table o = front ++ [r] /\
    length (table o) = 3%nat /\
    (length (table o) < 10)%nat /\
    ended o = Converged /\
    (Error r <? default_tol) = true /\
    x_next_of r = Ok x_next /\
    printed o = shown ++ [ConvergedTo x_next] /\
    in_range 99498743 10000000 99498744 10000000 x_next = true.
Proof.
  pose (o := the_outcome (solve 99 10 default_tol 10)).
  exists o, (removelast (table o)),
    (last (table o) {| Iter := 0%Z; x_curr := 0; f_x := 0; Error := 0 |}),
    9.9498743710661994, (removelast (printed o)).
  repeat apply conj; vm_compute; try reflexivity; lia.
Qed.

Local Close Scope float_scope.

Import Exact.

Local Open Scope R_scope.

(** C9, as the specification states it, fails at [N = 0]: every [x_curr]
    of a record passed the guard, so it is at least [5e-13] away from
    [sqrt 0 = 0], whatever [tol] and [max_iter] are. On doubles as well: no
    recorded [x_curr] has [abs(2*x_curr) < 1e-12], and with [tol = 0] and
    [max_iter = 100] the run from [x0 = 1] stops on the guard at [2^-41],
    after 41 records. A large guess leaves no iterate at all: on doubles
    [solve(3, 1e200)] raises [OverflowError]. *)
Lemma C9_counterexample :
  0 <= 0 /\ 0 < 1 /\
  (exists eps, 0 < eps /\
     forall (tol : R) (max_iter : Z) o r,
       solve 0 1 tol max_iter = Ok o -> In r (table o) ->
       eps <= Rabs (x_curr r - sqrt 0)) /\
  ~ tends_to 0 1 (sqrt 0) /\
  (forall (tol : float) (max_iter : Z) o r,
     solve 0%float 1%float tol max_iter = Ok o -> In r (table o) ->
     (abs (2 * x_curr r) <? 1e-12)%float = false) /\
  (exists o,
     solve 0%float 1%float 0%float 100 = Ok o /\
     ended o = Singular /\ length (table o) = 41%nat /\
     final_root o = 0x1p-41%float) /\
  solve 3%float 1e200%float default_tol default_max_iter
    = Raise OverflowError.
Proof.
  assert (Far : forall (tol : R) (max_iter : Z) o r,
             solve 0 1 tol max_iter = Ok o -> In r (table o) ->
             floor_x <= Rabs (x_curr r - sqrt 0)).
  { intros tol max_iter o r Ho Hin.
    apply call_Trace in Ho as (lines & Ht & _).
    destruct (Trace_records Ht r Hin) as [_ G].
    rewrite sqrt_0, Rminus_0_r. now apply ExactFacts.not_singular_far. }
  split; [lra|]. split; [lra|]. split; [|split; [|split; [|split]]].
  - exists floor_x. split; [unfold floor_x; lra | exact Far].
  - intros Hlim.
    destruct (Hlim floor_x ltac:(unfold floor_x; lra))
      as (tol0 & n0 & Htol0 & Hrun).
    destruct (Hrun tol0 n0 ltac:(lra) ltac:(lia))
      as (o & front & r & Ho & Htab & Hclose).
    assert (Hin : In r (table o)).
    { rewrite Htab. apply in_or_app. right. now left. }
    pose proof (Far tol0 n0 o r Ho Hin). lra.
  - intros tol max_iter o r Ho Hin.
    apply call_Trace in Ho as (lines & Ht & _).
    destruct (Trace_records Ht r Hin) as [_ G]. exact G.
  - exists (the_outcome (solve 0%float 1%float 0%float 100)).
    repeat apply conj; vm_compute; reflexivity.
  - vm_compute. reflexivity.
Qed.

(* C9 as amended is about doubles and their rounding: it is stated and
   proved in the last part of this file, with C10 as amended. *)

(** C10, as stated, fails: a positive [x0] below [5e-13] makes the guard
    fire in the first pass, in exact arithmetic and on doubles alike. On
    doubles it fails in three more ways, each with [target_val >= 0] and
    [x0 > 0]: for [target_val = 0] the guard fires from [x0 = 1] too, once
    the guesses have halved down to [2^-41] ([tol = 0], [max_iter = 100]);
    [solve(3, 1e200)] raises [OverflowError] in [x**2]; and
    [solve(1e308, 1e-12)] has [x_curr = nan] in its third record. *)
Lemma C10_counterexample :
  0 <= 0 /\ 0 < 1e-13 /\
  solve 0 1e-13 1e-6 10 =
    Ok {| table := []; printed := [Banner 0 1e-13; Columns];
          final_root := 1e-13; ended := Singular |} /\
  (0 <=? 0)%float = true /\ (0 <? 1e-13)%float = true /\
  solve 0%float 1e-13%float default_tol default_max_iter =
    Ok {| table := []; printed := [Banner 0%float 1e-13%float; Columns];
          final_root := 1e-13%float; ended := Singular |} /\
  (0 <? 1)%float = true /\
  (exists o,
     solve 0%float 1%float 0%float 100 = Ok o /\ ended o = Singular) /\
  (0 <=? 3)%float = true /\ (0 <? 1e200)%float = true /\
  solve 3%float 1e200%float default_tol default_max_iter
    = Raise OverflowError /\
  (0 <=? 1e308)%float = true /\ (0 <? 1e-12)%float = true /\
  (exists o r,
     solve 1e308%float 1e-12%float default_tol default_max_iter = Ok o /\
     nth_error (table o) 2 = Some r /\ is_nan (x_curr r) = true).
Proof.
  split; [lra|]. split; [lra|].
  split;
    [|split; [reflexivity|]; split; [reflexivity|];
      split; [vm_compute; reflexivity|];
      split; [reflexivity|];
      split; [exists (the_outcome (solve 0%float 1%float 0%float 100));
              split; vm_compute; reflexivity|];
      split; [reflexivity|]; split; [reflexivity|];
      split; [vm_compute; reflexivity|];
      split; [reflexivity|]; split; [reflexivity|];
      exists (the_outcome
                (solve 1e308%float 1e-12%float default_tol default_max_iter)),
        {| Iter := 3%Z; x_curr := nan; f_x := nan; Error := nan |};
      repeat apply conj; vm_compute; reflexivity].
  unfold solve, newton_raphson_interactive.
  change (Z.to_nat 10) with 10%nat. cbn [for_range].
  rewrite (@body_singular R exact 0 1e-6 ExactFacts.exact_laws 0%Z
             (entry [] 0 1e-13)).
  - reflexivity.
  - apply ExactFacts.singular_true. simpl. rewrite Rabs_right; lra.
Qed.

(** * Further properties of the code *)

Local Close Scope R_scope.

Section RenderingFacts.

Context {F : Type} {PF : PyFloat F}.
Variables target_val tol : F.

Lemma last_record_cons (r : IterationRecord F) l :
  l <> [] -> last_record (r :: l) = last_record l.
Proof. destruct l; [contradiction | reflexivity]. Qed.

Lemma last_record_app l (r : IterationRecord F) :
  last_record (l ++ [r]) = Some r.
Proof.
  induction l as [|a l IH]; [reflexivity|].
  simpl app. rewrite last_record_cons; [exact IH|]. now destruct l.
Qed.

(** The lines of the loop are the rows of its records, then the line of
    convergence if it ended so. *)
Lemma Trace_lines n i x recs lines why x' :
  Trace target_val tol n i x recs lines why x' ->
  lines = map row_of recs ++ converged_line why recs.
Proof.
  induction 1 as [| |n i x fx xn Hf G Hs T
                 |n i x fx xn recs lines why x' Hf G Hs T Ht IH];
    try reflexivity.
  - unfold converged_line, x_next_of. simpl. rewrite Hs. reflexivity.
  - simpl. f_equal. rewrite IH. f_equal.
    unfold converged_line. destruct recs as [|r recs].
    + inversion Ht; reflexivity.
    + reflexivity.
Qed.

(** The loop with the figure does what the loop does, and adds the two
    traces of each record. *)
Lemma for_range_fig_spec n : forall i s g,
  match for_range target_val tol n i s,
        for_range_fig target_val tol n i s g with
  | Ok (w, s'), Ok (w2, s2, g2) =>
      w = w2 /\ s' = s2 /\
      exists recs, iterations s' = iterations s ++ recs /\
                   g2 = g ++ flat_map traces_of recs
  | Raise e, Raise e2 => e = e2
  | _, _ => False
  end.
Proof.
  induction n as [|n IH]; intros i s g; simpl.
  - repeat split. exists []. now rewrite !app_nil_r.
  - unfold body, body_fig.
    destruct (f target_val (cur s)) as [fx|e]; simpl; [|reflexivity].
    destruct (singular (df (cur s))); simpl.
    { repeat split. exists []. now rewrite !app_nil_r. }
    destruct (step (cur s) fx (df (cur s))) as [xn|e] eqn:Hs; simpl;
      [|reflexivity].
    assert (Ht : traces_of (record i (cur s) fx xn) =
                 [Tangent (i + 1) (cur s) fx xn; Start (i + 1) (cur s) fx]).
    { unfold traces_of, x_next_of. simpl. now rewrite Hs. }
    destruct (flt (fabs (fsub xn (cur s))) tol); simpl.
    + repeat split. exists [record i (cur s) fx xn]. split; [reflexivity|].
      simpl flat_map. rewrite app_nil_r, Ht, <- app_assoc. reflexivity.
    + match goal with
      | |- context [for_range_fig _ _ n ?j ?t ?h] =>
          specialize (IH j t h)
      end.
      destruct (for_range target_val tol n (i + 1) _) as [[w s']|e];
        destruct (for_range_fig target_val tol n (i + 1) _ _)
          as [[[w2 s2] g2]|e2]; try contradiction; [|exact IH].
      destruct IH as (-> & -> & recs & Hi & Hg). repeat split.
      exists (record i (cur s) fx xn :: recs). simpl in Hi. split.
      * rewrite Hi, <- app_assoc. reflexivity.
      * rewrite Hg. simpl flat_map. rewrite Ht, <- !app_assoc. reflexivity.
Qed.

(** A pass leaves what was printed before it in place. *)
Lemma body_prefix out i s :
  body target_val tol i
    {| cur := cur s; iterations := iterations s; stdout := out ++ stdout s |} =
  c <- body target_val tol i s ;;
  Ok match c with
     | Continue t =>
         Continue {| cur := cur t; iterations := iterations t;
                     stdout := out ++ stdout t |}
     | Break w t =>
         Break w {| cur := cur t; iterations := iterations t;
                    stdout := out ++ stdout t |}
     end.
Proof.
  unfold body. simpl.
  destruct (f target_val (cur s)) as [fx|e]; simpl; [|reflexivity].
  destruct (singular (df (cur s))); simpl; [reflexivity|].
  destruct (step (cur s) fx (df (cur s))) as [xn|e]; simpl; [|reflexivity].
  destruct (flt (fabs (fsub xn (cur s))) tol); simpl;
    rewrite <- ?app_assoc; reflexivity.
Qed.

Lemma for_range_prefix out n : forall i s,
  for_range target_val tol n i
    {| cur := cur s; iterations := iterations s; stdout := out ++ stdout s |} =
  r <- for_range target_val tol n i s ;;
  Ok (fst r, {| cur := cur (snd r); iterations := iterations (snd r);
                stdout := out ++ stdout (snd r) |}).
Proof.
  induction n as [|n IH]; intros i s; simpl; [reflexivity|].
  rewrite body_prefix.
  destruct (body target_val tol i s) as [[t|w t]|e]; simpl;
    [apply IH | reflexivity | reflexivity].
Qed.

(** The lines of a call. *)
Lemma call_lines out x0 max_iter o :
  newton_raphson_interactive out target_val x0 tol max_iter = Ok o ->
  printed o =
    out ++ [Banner target_val x0; Columns]
        ++ map row_of (table o)
        ++ converged_line (ended o) (table o).
Proof.
  intros Hc. apply call_Trace in Hc as (lines & Ht & Hp).
  rewrite Hp, (Trace_lines Ht), <- app_assoc. reflexivity.
Qed.

(** A call after [out] was printed, from the call on an empty output. *)
Lemma call_prefix out x0 max_iter :
  newton_raphson_interactive out target_val x0 tol max_iter =
  o <- solve target_val x0 tol max_iter ;;
  Ok {| table := table o;
        printed := out ++ printed o;
        final_root := final_root o;
        ended := ended o |}.
Proof.
  unfold solve, newton_raphson_interactive.
  change (entry out target_val x0)
    with {| cur := cur (entry [] target_val x0);
            iterations := iterations (entry [] target_val x0);
            stdout := out ++ stdout (entry [] target_val x0) |}.
  rewrite for_range_prefix.
  destruct (for_range target_val tol (Z.to_nat max_iter) 0 _) as [[w s]|e];
    reflexivity.
Qed.

End RenderingFacts.

Local Open Scope float_scope.

(** X6. What is printed mirrors what is returned: after what the standard
    output held and the two header lines, one row per record with the
    record's four values, in order, and last the line of convergence
    exactly when the loop ended on [error < tol]. *)
Theorem printed_mirrors_table
    {F : Type} {PF : PyFloat F}
    (out : list (line F)) (target_val x0 tol : F) (max_iter : Z)
    (o : outcome F) :
  newton_raphson_interactive out target_val x0 tol max_iter = Ok o ->
  printed o =
    out ++ [Banner target_val x0; Columns]
        ++ map row_of (table o)
        ++ converged_line (ended o) (table o).
Proof. apply call_lines. Qed.

Lemma printed_mirrors_table_witness :
  solve 3 2 default_tol default_max_iter = Ok run_sqrt3 /\
  printed run_sqrt3 =
    [] ++ [Banner 3 2; Columns]
       ++ map row_of (table run_sqrt3)
       ++ converged_line (ended run_sqrt3) (table run_sqrt3).
Proof.
  split; [vm_compute; reflexivity|].
  apply (@printed_mirrors_table float binary64 []
           3 2 default_tol default_max_iter run_sqrt3).
  vm_compute; reflexivity.
Defined.

(** X5. How the loop ended tells how many records there are and where [x_curr]
    stands: after [range(max_iter)] is used up the table has [max_iter]
    records (none for [max_iter <= 0]); after the guard it has fewer, and
    the final [x_curr] is the one the guard stopped; after convergence it
    has at least one. The final [x_curr] (the root of the plot title) is
    [x0] when there is no record, the [x_curr] of the last record after
    convergence, and otherwise the [x_next] of the last record. *)
Theorem how_the_loop_ended
    {F : Type} {PF : PyFloat F}
    (out : list (line F)) (target_val x0 tol : F) (max_iter : Z)
    (o : outcome F) :
  newton_raphson_interactive out target_val x0 tol max_iter = Ok o ->
  match ended o with
  | Exhausted => length (table o) = Z.to_nat max_iter
  | Singular => (length (table o) < Z.to_nat max_iter)%nat /\
                singular (df (final_root o)) = true
  | Converged => (1 <= length (table o) <= Z.to_nat max_iter)%nat
  end /\
  match last_record (table o), ended o with
  | None, _ => final_root o = x0
  | Some r, Converged => final_root o = x_curr r
  | Some r, _ => x_next_of r = Ok (final_root o)
  end.
Proof.
  intros Hc. apply call_Trace in Hc as (lines & Ht & _). split.
  - pose proof (Trace_exit Ht) as He. pose proof (Trace_length Ht) as Hl.
    destruct (ended o) eqn:E; try assumption. split; [|exact Hl].
    destruct (Trace_converged_last Ht eq_refl) as (front & r & _ & _ & -> & _).
    rewrite length_app. simpl. lia.
  - pose proof (Trace_final Ht) as Hf.
    destruct (table o) as [|r0 l] eqn:Etab; [exact Hf|].
    destruct (@exists_last _ (r0 :: l) ltac:(discriminate)) as (front & r & E).
    rewrite E, last_record_app. specialize (Hf front r E).
    destruct (ended o); assumption.
Qed.

Lemma how_the_loop_ended_witness :
  newton_raphson_interactive [] 0 1e-11 0 10 =
    Ok {| table := iterations halved_5_times;
          printed := stdout halved_5_times;
          final_root := cur halved_5_times;
          ended := Singular |} /\
  ((length (iterations halved_5_times) < Z.to_nat 10)%nat /\
   singular (df (cur halved_5_times)) = true) /\
  match last_record (iterations halved_5_times) with
  | None => cur halved_5_times = 1e-11
  | Some r => x_next_of r = Ok (cur halved_5_times)
  end.
Proof.
  split; [vm_compute; reflexivity|].
  apply (@how_the_loop_ended float binary64 [] 0 1e-11 0 10
           {| table := iterations halved_5_times;
              printed := stdout halved_5_times;
              final_root := cur halved_5_times;
              ended := Singular |}).
  vm_compute; reflexivity.
Defined.

(** X7. The figure shown has the curve first, then for each record of the
    table, in order, its tangent from [(x_curr, f_x)] to [(x_next, 0)] and
    its start marker at [(x_curr, f_x)]; its title shows the final
    [x_curr]. The plotting changes nothing of what is returned or raised. *)
Theorem figure_follows_table
    {F : Type} {PF : PyFloat F}
    (out : list (line F)) (target_val x0 tol : F) (max_iter : Z) :
  newton_raphson_plotted out target_val x0 tol max_iter =
  o <- newton_raphson_interactive out target_val x0 tol max_iter ;;
  Ok (o, {| traces := Curve target_val x0 :: flat_map traces_of (table o);
            title_root := Some (final_root o) |}).
Proof.
  unfold newton_raphson_plotted, newton_raphson_interactive.
  pose proof (for_range_fig_spec target_val tol (Z.to_nat max_iter) 0
                (entry out target_val x0) [Curve target_val x0]) as Hs.
  destruct (for_range target_val tol (Z.to_nat max_iter) 0
              (entry out target_val x0)) as [[w s']|e];
    destruct (for_range_fig target_val tol (Z.to_nat max_iter) 0
                (entry out target_val x0) [Curve target_val x0])
      as [[[w2 s2] g2]|e2]; try contradiction; simpl.
  - destruct Hs as (-> & -> & recs & Hi & ->). simpl in Hi.
    rewrite Hi. reflexivity.
  - now subst.
Qed.

(** X8. A call only appends to the standard output: called after [out] was
    printed, it returns and raises what the call on an empty output does,
    and leaves [out] followed by that call's lines. *)
Theorem call_appends_to_stdout
    {F : Type} {PF : PyFloat F}
    (out : list (line F)) (target_val x0 tol : F) (max_iter : Z) :
  newton_raphson_interactive out target_val x0 tol max_iter =
  o <- solve target_val x0 tol max_iter ;;
  Ok {| table := table o;
        printed := out ++ printed o;
        final_root := final_root o;
        ended := ended o |}.
Proof. apply call_prefix. Qed.

(** ** On doubles *)

Module Binary64More.

Import Binary64 Binary64Facts.

Unset Implicit Arguments.

Lemma nan_SF : Prim2SF nan = S754_nan.
Proof. vm_compute. reflexivity. Qed.

(** [x**2] raises nothing but [OverflowError]. *)
Lemma pow2_raises x e : pow2 x = Raise e -> e = OverflowError.
Proof.
  unfold pow2.
  destruct (is_nan x); [discriminate|].
  destruct (is_infinity x); [discriminate|].
  destruct (is_zero x); [discriminate|].
  destruct (is_infinity (abs x * abs x)); [|discriminate].
  intros E. now inversion E.
Qed.

Lemma body_raises (target_val tol : float) i (s : frame float) e :
  body target_val tol i s = Raise e -> e = OverflowError.
Proof.
  unfold body, f. change (fpow2 (cur s)) with (pow2 (cur s)).
  destruct (pow2 (cur s)) as [sq|e0] eqn:P; cbn [bind].
  - destruct (singular (df (cur s))) eqn:G; [discriminate|].
    destruct (@ftruediv_guarded float binary64 binary64_laws
                (fsub sq target_val) (df (cur s)) G) as [q Hq].
    unfold step. rewrite Hq. cbn [bind].
    destruct (flt _ tol); discriminate.
  - intros E. inversion E; subst. exact (pow2_raises _ _ P).
Qed.

Lemma for_range_raises (target_val tol : float) n : forall i (s : frame float) e,
  for_range target_val tol n i s = Raise e -> e = OverflowError.
Proof.
  induction n as [|n IH]; intros i s e; simpl; [discriminate|].
  destruct (body target_val tol i s) as [[t|w t]|e0] eqn:B; cbn [bind].
  - apply IH.
  - discriminate.
  - intros E. inversion E; subst. exact (body_raises _ _ _ _ _ B).
Qed.

(** *** A guess that is not a number *)

Lemma is_nan_eq x : is_nan x = true -> x = nan.
Proof.
  unfold is_nan. rewrite eqb_spec. intros E.
  rewrite <- (SF2Prim_Prim2SF x).
  destruct (Prim2SF x) as [[|]|[|]| |[|] m e]; try discriminate; try reflexivity;
    exfalso; unfold SFeqb, SFcompare in E;
    rewrite Z.compare_refl, Pos.compare_cont_refl in E; discriminate.
Qed.

Lemma nan_sub t : (nan - t)%float = nan.
Proof. apply Prim2SF_inj. rewrite sub_spec, nan_SF. reflexivity. Qed.

Lemma nan_not_lt t : (nan <? t)%float = false.
Proof. rewrite ltb_spec, nan_SF. reflexivity. Qed.

Definition nan_record (i : Z) : IterationRecord float :=
  {| Iter := i + 1; x_curr := nan; f_x := nan; Error := nan |}.

Lemma body_nan (target_val tol : float) i (s : frame float) :
  cur s = nan ->
  body target_val tol i s =
  Ok (Continue {| cur := nan;
                  iterations := iterations s ++ [nan_record i];
                  stdout := stdout s ++ [Row (i + 1) nan nan nan] |}).
Proof.
  intros E. unfold body, f. rewrite E.
  change (fpow2 nan) with (Ok nan). cbn [bind].
  change (fsub nan target_val) with (nan - target_val)%float.
  rewrite nan_sub.
  change (singular (df nan)) with false. cbv iota.
  change (step nan nan (df nan)) with (Ok nan). cbn [bind].
  change (fabs (fsub nan nan)) with nan.
  change (flt nan tol) with (nan <? tol)%float. rewrite nan_not_lt.
  reflexivity.
Qed.

Lemma for_range_nan (target_val tol : float) n : forall i (s : frame float),
  cur s = nan ->
  exists recs lines,
    for_range target_val tol n i s =
      Ok (Exhausted, {| cur := nan; iterations := iterations s ++ recs;
                        stdout := stdout s ++ lines |}) /\
    length recs = n /\
    forall r, In r recs -> x_curr r = nan /\ f_x r = nan /\ Error r = nan.
Proof.
  induction n as [|n IH]; intros i s E.
  - exists [], []. rewrite !app_nil_r. simpl.
    split; [rewrite <- E; destruct s; reflexivity|].
    split; [reflexivity | intros r []].
  - simpl. rewrite (body_nan _ _ _ _ E). cbn [bind].
    destruct (IH (i + 1)%Z
                {| cur := nan; iterations := iterations s ++ [nan_record i];
                   stdout := stdout s ++ [Row (i + 1) nan nan nan] |} eq_refl)
      as (recs & lines & Hr & Hl & Hall).
    exists (nan_record i :: recs), (Row (i + 1) nan nan nan :: lines).
    rewrite Hr. simpl. rewrite <- !app_assoc. simpl.
    split; [reflexivity|]. split; [now rewrite Hl|].
    intros r [<-|Hin]; [repeat split | now apply Hall].
Qed.

(** *** A tolerance that is not positive *)

Lemma abs_not_lt v t : (t <=? 0)%float = true -> (abs v <? t)%float = false.
Proof.
  assert (Z0 : Prim2SF 0 = S754_zero false) by (vm_compute; reflexivity).
  rewrite leb_spec, ltb_spec, abs_spec, Z0.
  destruct (Prim2SF t) as [[|]|[|]| |[|] mt et];
    destruct (Prim2SF v) as [[|]|[|]| |[|] mv ev];
    try reflexivity; try discriminate.
Qed.

End Binary64More.

Set Implicit Arguments.

(** X1. Whatever its arguments, a call on doubles returns or raises
    [OverflowError] (from [x**2]): the guard keeps [fx/dfx] from ever
    raising [ZeroDivisionError]. *)
Theorem only_overflow_is_raised
    (out : list (line float)) (target_val x0 tol : float) (max_iter : Z) :
  (exists o, newton_raphson_interactive out target_val x0 tol max_iter = Ok o) \/
  newton_raphson_interactive out target_val x0 tol max_iter = Raise OverflowError.
Proof.
  unfold newton_raphson_interactive.
  destruct (for_range target_val tol (Z.to_nat max_iter) 0
              (entry out target_val x0)) as [[w s]|e] eqn:E; cbn [bind].
  - left. eauto.
  - right. f_equal. exact (Binary64More.for_range_raises _ _ _ _ _ _ E).
Qed.

(** X3. A guess that is not a number is not detected: neither the guard nor
    the test of convergence holds of a NaN, so the loop runs all its passes
    and returns [max_iter] records whose values are all NaN. *)
Theorem nan_guess_runs_every_pass
    (target_val x0 tol : float) (max_iter : Z) :
  is_nan x0 = true ->
  exists o,
    solve target_val x0 tol max_iter = Ok o /\
    ended o = Exhausted /\
    length (table o) = Z.to_nat max_iter /\
    forall r, In r (table o) ->
      is_nan (x_curr r) = true /\ is_nan (f_x r) = true /\
      is_nan (Error r) = true.
Proof.
  intros Hnan. apply Binary64More.is_nan_eq in Hnan. subst x0.
  unfold solve, newton_raphson_interactive.
  destruct (Binary64More.for_range_nan target_val tol (Z.to_nat max_iter) 0%Z
              (entry [] target_val nan) eq_refl)
    as (recs & lines & Hr & Hl & Hall).
  rewrite Hr. cbn [bind]. eexists. split; [reflexivity|]. simpl.
  split; [reflexivity|]. split; [exact Hl|].
  intros r Hin. destruct (Hall r Hin) as (-> & -> & ->). repeat split.
Qed.

Lemma nan_guess_runs_every_pass_witness :
  is_nan (0 / 0) = true /\
  exists o,
    solve 3 (0 / 0) default_tol default_max_iter = Ok o /\
    ended o = Exhausted /\
    length (table o) = Z.to_nat default_max_iter /\
    forall r, In r (table o) ->
      is_nan (x_curr r) = true /\ is_nan (f_x r) = true /\
      is_nan (Error r) = true.
Proof.
  split; [vm_compute; reflexivity|].
  apply (@nan_guess_runs_every_pass 3 (0 / 0) default_tol default_max_iter).
  vm_compute; reflexivity.
Defined.

(** X4. With [tol <= 0] the loop never ends on [error < tol], since [error] is
    an absolute value: it ends on the guard or when [range(max_iter)] is
    used up, and prints no line of convergence. *)
Theorem nonpositive_tol_never_converges
    (out : list (line float)) (target_val x0 tol : float) (max_iter : Z)
    (o : outcome float) :
  (tol <=? 0) = true ->
  newton_raphson_interactive out target_val x0 tol max_iter = Ok o ->
  (ended o = Singular \/ ended o = Exhausted) /\
  reported (printed o) = reported out.
Proof.
  intros Htol Hc.
  assert (Hrows : forall l : list (IterationRecord float),
             reported (map row_of l) = []).
  { induction l as [|r l IH]; [reflexivity | exact IH]. }
  assert (Happ : forall l1 l2 : list (line float),
             reported (l1 ++ l2) = reported l1 ++ reported l2).
  { induction l1 as [|[| | |] l1 IH]; intros l2; simpl; rewrite ?IH; reflexivity. }
  assert (E : ended o <> Converged).
  { intros E. apply call_Trace in Hc as (lines & Ht & _).
    destruct (Trace_converged_last Ht E)
      as (front & r & x_next & shown & Htab & Hr & _).
    assert (Hin : In r (table o)).
    { rewrite Htab. apply in_or_app. right. now left. }
    destruct (Trace_records Ht r Hin) as [[_ (xn & _ & Herr)] _].
    rewrite Herr in Hr.
    change (flt (fabs (fsub xn (x_curr r))) tol)
      with (abs (xn - x_curr r) <? tol) in Hr.
    rewrite (Binary64More.abs_not_lt _ _ Htol) in Hr. discriminate. }
  split; [destruct (ended o); auto; contradiction|].
  rewrite (call_lines _ _ _ _ _ Hc), !Happ, Hrows.
  unfold converged_line. destruct (ended o); try contradiction;
    simpl; rewrite !app_nil_r; reflexivity.
Qed.

Lemma nonpositive_tol_never_converges_witness :
  (0 <=? 0) = true /\
  newton_raphson_interactive [] 0 1e-11 0 10 =
    Ok {| table := iterations halved_5_times;
          printed := stdout halved_5_times;
          final_root := cur halved_5_times;
          ended := Singular |} /\
  (Singular = Singular \/ Singular = Exhausted) /\
  reported (stdout halved_5_times) = reported [].
Proof.
  split; [vm_compute; reflexivity|].
  split; [vm_compute; reflexivity|].
  apply (@nonpositive_tol_never_converges [] 0 1e-11 0 10
           {| table := iterations halved_5_times;
              printed := stdout halved_5_times;
              final_root := cur halved_5_times;
              ended := Singular |});
    vm_compute; reflexivity.
Defined.

(** ** The script *)

Section ScriptFacts.

Context {F : Type} {PF : PyFloat F}.
Variables (tol : F) (max_iter : Z).

Lemma run_problems_prefix problems : forall out,
  run_problems tol max_iter problems out =
  l <- run_problems tol max_iter problems [] ;; Ok (out ++ l).
Proof.
  induction problems as [|[N guess] rest IH]; intros out; simpl.
  - now rewrite app_nil_r.
  - rewrite (call_prefix N tol out guess max_iter).
    unfold solve.
    destruct (newton_raphson_interactive [] N guess tol max_iter) as [o|e];
      simpl; [|reflexivity].
    rewrite (IH (out ++ printed o)), (IH (printed o)).
    destruct (run_problems tol max_iter rest []) as [l|e]; simpl;
      [|reflexivity].
    now rewrite app_assoc.
Qed.

End ScriptFacts.

(** X9. The calls of the script do not disturb one another: what the loop over
    the problems prints is what each call prints on its own, one after the
    other, and the loop stops at the first call that raises. *)
Theorem script_output_is_concatenation
    {F : Type} {PF : PyFloat F}
    (tol : F) (max_iter : Z) (N guess : F) (rest : list (F * F))
    (out : list (line F)) :
  run_problems tol max_iter ((N, guess) :: rest) out =
  o <- solve N guess tol max_iter ;;
  l <- run_problems tol max_iter rest [] ;;
  Ok (out ++ printed o ++ l).
Proof.
  simpl. rewrite (call_prefix N tol out guess max_iter).
  destruct (solve N guess tol max_iter) as [o|e]; simpl; [|reflexivity].
  rewrite run_problems_prefix.
  destruct (run_problems tol max_iter rest []) as [l|e]; simpl;
    [|reflexivity].
  now rewrite app_assoc.
Qed.

Local Close Scope float_scope.

Lemma to_fraction_positive x n d :
  to_fraction x = Some (n, d) -> (0 < d)%Z.
Proof.
  unfold to_fraction.
  destruct (Prim2SF x) as [s|s| |s m e]; try discriminate.
  - intros E. inversion E. lia.
  - destruct (0 <=? e)%Z eqn:He; intros E; inversion E; [lia|].
    apply Z.pow_pos_nonneg; apply Z.leb_gt in He; lia.
Qed.

(** What [near_sqrt] decides, on the reals. *)
Lemma near_sqrt_meaning N k x n d :
  (0 < k)%Z ->
  near_sqrt N k x = true ->
  to_fraction x = Some (n, d) ->
  (Rabs (IZR n / IZR d - sqrt (IZR N)) <= 1 / IZR k)%R.
Proof.
  intros Hk Hnear Hfrac. pose proof (to_fraction_positive x Hfrac) as Hd.
  unfold near_sqrt in Hnear. rewrite Hfrac in Hnear.
  apply andb_true_iff in Hnear as [Hnear C].
  apply andb_true_iff in Hnear as [A B].
  apply Z.ltb_lt in A. apply Z.leb_le in B, C.
  rewrite !Z.pow_2_r in B, C.
  apply IZR_lt in A, Hk, Hd. apply IZR_le in B, C.
  repeat first [rewrite minus_IZR in A | rewrite mult_IZR in A].
  repeat first [rewrite minus_IZR in B | rewrite mult_IZR in B].
  repeat first [rewrite plus_IZR in C | rewrite mult_IZR in C].
  set (rn := IZR n) in *. set (rd := IZR d) in *. set (rk := IZR k) in *.
  set (M := IZR N) in *.
  assert (HQ : (0 < rd * rk)%R) by (apply Rmult_lt_0_compat; assumption).
  set (a := ((rn * rk - rd) / (rd * rk))%R).
  set (b := ((rn * rk + rd) / (rd * rk))%R).
  assert (Ha : (0 < a)%R) by (apply Rdiv_lt_0_compat; lra).
  assert (Hb : (0 < b)%R) by (apply Rdiv_lt_0_compat; lra).
  assert (Haa : (a * a <= M)%R).
  { apply Rmult_le_reg_r with ((rd * rk) * (rd * rk))%R; [nra|].
    replace (a * a * (rd * rk * (rd * rk)))%R
      with ((rn * rk - rd) * (rn * rk - rd))%R by (unfold a; field; lra).
    lra. }
  assert (Hbb : (M <= b * b)%R).
  { apply Rmult_le_reg_r with ((rd * rk) * (rd * rk))%R; [nra|].
    replace (b * b * (rd * rk * (rd * rk)))%R
      with ((rn * rk + rd) * (rn * rk + rd))%R by (unfold b; field; lra).
    lra. }
  assert (Hlo : (a <= sqrt M)%R).
  { rewrite <- (sqrt_square a) by lra. now apply sqrt_le_1_alt. }
  assert (Hhi : (sqrt M <= b)%R).
  { rewrite <- (sqrt_square b) by lra. now apply sqrt_le_1_alt. }
  assert (Ea : (a = rn / rd - 1 / rk)%R) by (unfold a; field; lra).
  assert (Eb : (b = rn / rd + 1 / rk)%R) by (unfold b; field; lra).
  apply Rabs_le. lra.
Qed.

Local Open Scope float_scope.

(** X10. The script runs to its end: each of its four problems ends on
    [error < tol] within the default 10 passes (after 4, 4, 4 and 3), and
    the four values printed as converged are within [1e-9] of the square
    roots of 3, 7, 20 and 99. *)
Theorem script_converges_on_its_problems :
  exists out,
    script = Ok out /\
    reported out =
      [1.7320508075688772; 2.6457513110645907;
       4.4721359549995796; 9.9498743710661994] /\
    map (fun p => option_map (fun o => (length (table o), ended o))
                    (match solve (fst p) (snd p) default_tol default_max_iter
                     with Ok o => Some o | Raise _ => None end))
        problems =
      [Some (4%nat, Converged); Some (4%nat, Converged);
       Some (4%nat, Converged); Some (3%nat, Converged)] /\
    near_sqrt 3 (10 ^ 9) 1.7320508075688772 = true /\
    near_sqrt 7 (10 ^ 9) 2.6457513110645907 = true /\
    near_sqrt 20 (10 ^ 9) 4.4721359549995796 = true /\
    near_sqrt 99 (10 ^ 9) 9.9498743710661994 = true.
Proof.
  exists (match script with Ok l => l | Raise _ => [] end).
  repeat apply conj; vm_compute; reflexivity.
Qed.

(** ** On doubles: a guess too large to square *)

Module Binary64Overflow.

Import Binary64 Binary64Facts.

Unset Implicit Arguments.

Local Open Scope Z_scope.

Lemma shr_1_half mrs : 0 <= shr_m mrs -> shr_m (shr_1 mrs) = shr_m mrs / 2.
Proof.
  destruct mrs as [m r s]. cbn [shr_m]. intros Hm.
  destruct m as [|[q|q|]|q]; cbn [shr_1 shr_m]; try lia.
  - reflexivity.
  - apply Z.div_unique with 1; lia.
  - apply Z.div_unique with 0; lia.
  - reflexivity.
Qed.

Lemma pow2_xO n : 2 ^ Zpos n~0 = 2 ^ Zpos n * 2 ^ Zpos n.
Proof.
  replace (Zpos n~0) with (Zpos n + Zpos n) by lia. apply Z.pow_add_r; lia.
Qed.

Lemma pow2_xI n : 2 ^ Zpos n~1 = 2 * (2 ^ Zpos n * 2 ^ Zpos n).
Proof.
  replace (Zpos n~1) with (1 + Zpos n~0) by lia.
  rewrite Z.pow_add_r, pow2_xO by lia. reflexivity.
Qed.

Lemma iter_shr_1_div n : forall mrs,
  0 <= shr_m mrs ->
  shr_m (SpecFloat.iter_pos shr_1 n mrs) = shr_m mrs / 2 ^ Zpos n.
Proof.
  induction n as [n IH|n IH|]; intros mrs Hm; simpl SpecFloat.iter_pos.
  - assert (H1 : 0 <= shr_m (shr_1 mrs)).
    { rewrite shr_1_half by assumption. apply Z.div_pos; lia. }
    assert (H2 : 0 <= shr_m (SpecFloat.iter_pos shr_1 n (shr_1 mrs))).
    { rewrite IH by assumption. apply Z.div_pos; lia. }
    rewrite IH, IH, shr_1_half by assumption.
    rewrite !Z.div_div, pow2_xI by lia. f_equal; try ring.
  - assert (H2 : 0 <= shr_m (SpecFloat.iter_pos shr_1 n mrs)).
    { rewrite IH by assumption. apply Z.div_pos; lia. }
    rewrite IH, IH by assumption.
    rewrite !Z.div_div, pow2_xO by lia. reflexivity.
  - rewrite shr_1_half by assumption. reflexivity.
Qed.

Lemma shr_m_loc m l : shr_m (shr_record_of_loc m l) = m.
Proof. destruct l as [|[| |]]; reflexivity. Qed.

Lemma round_nearest_even_ge m l : m <= round_nearest_even m l.
Proof. destruct l as [|[| |]]; simpl; try lia. destruct (Z.even m); lia. Qed.

(** Rounding a large product overflows. *)
Lemma binary_round_aux_large s p ex :
  54 <= Zpos (digits2_pos p) ->
  1025 <= Zpos (digits2_pos p) + ex ->
  binary_round_aux prec emax s (Zpos p) ex loc_Exact = S754_infinity s.
Proof.
  intros Hd Hbig. unfold binary_round_aux.
  set (D := Zpos (digits2_pos p)) in *.
  pose proof (digits2_lower p) as Lo. fold D in Lo.
  unfold shr_fexp at 1. cbn [Zdigits2]. fold D.
  assert (N1 : fexp prec emax (D + ex) - ex = D - 53).
  { unfold fexp, SpecFloat.emin, prec, emax. zstd. lia. }
  rewrite N1.
  destruct (D - 53) as [|n1|n1] eqn:En1; try lia.
  cbn [shr shr_record_of_loc].
  set (mrs1 := SpecFloat.iter_pos shr_1 n1 _).
  assert (M1 : shr_m mrs1 = Zpos p / 2 ^ Zpos n1).
  { unfold mrs1. rewrite iter_shr_1_div by (simpl; lia). reflexivity. }
  assert (L1 : 2 ^ 52 <= shr_m mrs1).
  { rewrite M1. apply Z.div_le_lower_bound; [lia|].
    rewrite <- Z.pow_add_r by lia.
    replace (Zpos n1 + 52) with (D - 1) by lia.
    assert (2 * 2 ^ (D - 1) = 2 ^ D).
    { replace D with (1 + (D - 1)) at 2 by lia.
      rewrite Z.pow_add_r by lia. reflexivity. }
    lia. }
  set (mr := round_nearest_even (shr_m mrs1) (loc_of_shr_record mrs1)).
  pose proof (round_nearest_even_ge (shr_m mrs1) (loc_of_shr_record mrs1)) as Gr.
  fold mr in Gr.
  assert (Hmr : 2 ^ 52 <= mr) by lia.
  destruct mr as [|q|q] eqn:Emr; try (exfalso; change (2 ^ 52) with 4503599627370496 in Hmr; lia).
  unfold shr_fexp. cbn [Zdigits2].
  set (Dq := Zpos (digits2_pos q)).
  pose proof (digits2_lower q) as Lq. pose proof (digits2_upper q) as Uq.
  fold Dq in Lq, Uq.
  assert (HDq : 53 <= Dq).
  { destruct (Z.le_gt_cases 53 Dq) as [|G]; [assumption|exfalso].
    assert (2 ^ Dq <= 2 ^ 52) by (apply Z.pow_le_mono_r; lia). lia. }
  assert (N2 : fexp prec emax (Dq + (ex + Zpos n1)) - (ex + Zpos n1) = Dq - 53).
  { unfold fexp, SpecFloat.emin, prec, emax. zstd. lia. }
  rewrite N2.
  destruct (Dq - 53) as [|n2|n2] eqn:En2; try lia.
  - cbn [shr shr_record_of_loc shr_m].
    assert (Hle : (ex + Zpos n1 <=? emax - prec) = false).
    { apply Z.leb_gt. unfold emax, prec. zstd. lia. }
    rewrite Hle. reflexivity.
  - cbn [shr shr_record_of_loc].
    set (mrs2 := SpecFloat.iter_pos shr_1 n2 _).
    assert (M2 : shr_m mrs2 = Zpos q / 2 ^ Zpos n2).
    { unfold mrs2. rewrite iter_shr_1_div by (simpl; lia). reflexivity. }
    assert (L2 : 2 ^ 52 <= shr_m mrs2).
    { rewrite M2. apply Z.div_le_lower_bound; [lia|].
      rewrite <- Z.pow_add_r by lia.
      replace (Zpos n2 + 52) with (Dq - 1) by lia.
      assert (2 * 2 ^ (Dq - 1) = 2 ^ Dq).
      { replace Dq with (1 + (Dq - 1)) at 2 by lia.
        rewrite Z.pow_add_r by lia. reflexivity. }
      lia. }
    destruct (shr_m mrs2) as [|q2|q2];
      try (exfalso; change (2 ^ 52) with 4503599627370496 in L2; lia).
    assert (Hle : (ex + Zpos n1 + Zpos n2 <=? emax - prec) = false).
    { apply Z.leb_gt. unfold emax, prec. zstd. lia. }
    rewrite Hle. reflexivity.
Qed.

Lemma big_SF : Prim2SF 0x1p512 = S754_finite false 4503599627370496 460.
Proof. vm_compute. reflexivity. Qed.

(** A finite [x] of magnitude at least [2^512] has its square out of
    range, and is neither a NaN, an infinity nor a zero. *)
Lemma pow2_large x :
  is_infinity x = false ->
  (0x1p512 <=? abs x)%float = true ->
  pow2 x = Raise OverflowError.
Proof.
  intros Hfin Hbig.
  unfold is_infinity in Hfin.
  rewrite eqb_spec, abs_spec, infinity_SF in Hfin.
  rewrite leb_spec, abs_spec, big_SF in Hbig.
  pose proof (Prim2SF_valid x) as V.
  destruct (Prim2SF x) as [s|s| |s m e] eqn:Hx; try discriminate.
  apply valid_finite in V as [Vle Vc].
  assert (He : 460 <= e).
  { cbn [SFabs] in Hbig. unfold SFleb, SFcompare in Hbig.
    destruct (Z.compare_spec 460 e); try lia; discriminate. }
  assert (Hd : Zpos (digits2_pos m) = 53) by lia.
  unfold pow2.
  assert (Hnan : is_nan x = false).
  { unfold is_nan. rewrite eqb_spec, Hx. unfold SFeqb, SFcompare.
    rewrite Z.compare_refl, Pos.compare_cont_refl. destruct s; reflexivity. }
  assert (Hinf : is_infinity x = false).
  { unfold is_infinity. rewrite eqb_spec, abs_spec, infinity_SF, Hx.
    reflexivity. }
  assert (Hzero : is_zero x = false).
  { unfold is_zero. rewrite eqb_spec, zero_SF, Hx. destruct s; reflexivity. }
  rewrite Hnan, Hinf, Hzero.
  assert (Hsq : is_infinity (abs x * abs x) = true).
  { unfold is_infinity.
    rewrite eqb_spec, abs_spec, mul_spec, abs_spec, infinity_SF, Hx.
    cbn [SFabs]. unfold SF64mul, SFmul. cbn [xorb].
    rewrite binary_round_aux_large; [reflexivity| |].
    - pose proof (digits2_lower m) as Lm. rewrite Hd in Lm.
      pose proof (digits2_upper (m * m)) as Um.
      change (Zpos (m * m)) with (Zpos m * Zpos m) in Um.
      destruct (Z.le_gt_cases 54 (Zpos (digits2_pos (m * m)))) as [|G];
        [assumption|exfalso].
      assert (2 ^ Zpos (digits2_pos (m * m)) <= 2 ^ 53)
        by (apply Z.pow_le_mono_r; lia).
      change (2 ^ 53) with 9007199254740992 in *. nia.
    - pose proof (digits2_lower m) as Lm. rewrite Hd in Lm.
      pose proof (digits2_upper (m * m)) as Um.
      change (Zpos (m * m)) with (Zpos m * Zpos m) in Um.
      destruct (Z.le_gt_cases 105 (Zpos (digits2_pos (m * m)))) as [|G];
        [lia|exfalso].
      assert (2 ^ Zpos (digits2_pos (m * m)) <= 2 ^ 104)
        by (apply Z.pow_le_mono_r; lia).
      change (2 ^ 53) with 9007199254740992 in *.
      change (2 ^ 104) with (4503599627370496 * 4503599627370496) in *. nia. }
  rewrite Hsq. reflexivity.
Qed.

End Binary64Overflow.

Set Implicit Arguments.

Local Close Scope R_scope.
Local Open Scope float_scope.

(** X2. A finite guess of magnitude [2^512] (about [1.34e154]) or more makes
    the first pass raise [OverflowError] in [x**2]: with [max_iter > 0]
    the call returns no table at all. *)
Theorem large_guess_raises_overflow
    (out : list (line float)) (target_val x0 tol : float) (max_iter : Z) :
  (0 < max_iter)%Z ->
  is_infinity x0 = false ->
  (0x1p512 <=? abs x0) = true ->
  newton_raphson_interactive out target_val x0 tol max_iter
    = Raise OverflowError.
Proof.
  intros Hm Hfin Hbig. unfold newton_raphson_interactive.
  destruct (Z.to_nat max_iter) as [|n] eqn:Hn; [lia|].
  cbn [for_range]. unfold body, f. cbn [entry cur].
  change (fpow2 x0) with (pow2 x0).
  rewrite (Binary64Overflow.pow2_large x0 Hfin Hbig). reflexivity.
Qed.

Lemma large_guess_raises_overflow_witness :
  (0 < 10)%Z /\ is_infinity 1e200 = false /\ (0x1p512 <=? abs 1e200) = true /\
  newton_raphson_interactive [] 3 1e200 default_tol 10 = Raise OverflowError.
Proof.
  split; [lia|].
  split; [vm_compute; reflexivity|].
  split; [vm_compute; reflexivity|].
  apply (@large_guess_raises_overflow [] 3 1e200 default_tol 10);
    [lia | vm_compute; reflexivity | vm_compute; reflexivity].
Defined.

(** * The loop on doubles, near the root

    What follows measures the doubles of a run on the reals they stand
    for: each operation of a pass is the exact one within [eps], so that a
    pass is the Newton step within [5 * eps]. *)

(** ** Doubles as reals *)

Module Binary64RealFacts.

Import Binary64 Binary64Facts Binary64Overflow Binary64Reals.

Unset Implicit Arguments.

Local Open Scope R_scope.

(** *** Powers of two *)

Lemma bpow_pos e : 0 < bpow e.
Proof. apply powerRZ_lt. lra. Qed.

Lemma bpow_add a b : bpow (a + b) = bpow a * bpow b.
Proof. apply powerRZ_add. lra. Qed.

Lemma bpow_IZR k : (0 <= k)%Z -> bpow k = IZR (2 ^ k).
Proof.
  intros Hk. destruct k as [|p|p]; [reflexivity| |lia].
  unfold bpow. change (2 ^ Zpos p)%Z with (Z.pow_pos 2 p).
  now rewrite Zpower_pos_powerRZ.
Qed.

Lemma bpow_ge_1 k : (0 <= k)%Z -> 1 <= bpow k.
Proof.
  intros Hk. rewrite bpow_IZR by assumption. apply IZR_le.
  assert (0 < 2 ^ k)%Z by (apply Z.pow_pos_nonneg; lia). lia.
Qed.

Lemma bpow_le a b : (a <= b)%Z -> bpow a <= bpow b.
Proof.
  intros H. replace b with (a + (b - a))%Z by lia. rewrite bpow_add.
  pose proof (bpow_pos a). pose proof (bpow_ge_1 (b - a) ltac:(lia)). nra.
Qed.

Lemma bpow_1 : bpow 1 = 2.
Proof. unfold bpow. simpl. ring. Qed.

Lemma bpow_lt a b : (a < b)%Z -> bpow a < bpow b.
Proof.
  intros H. replace b with (a + 1 + (b - a - 1))%Z by lia.
  rewrite !bpow_add, bpow_1.
  pose proof (bpow_pos a). pose proof (bpow_ge_1 (b - a - 1) ltac:(lia)). nra.
Qed.

Lemma bpow_lt_inv a b : bpow a < bpow b -> (a < b)%Z.
Proof.
  intros H. destruct (Z_lt_le_dec a b) as [|G]; [assumption|exfalso].
  apply bpow_le in G. lra.
Qed.

Lemma bpow_succ a : bpow (a + 1) = 2 * bpow a.
Proof. rewrite bpow_add, bpow_1. ring. Qed.

Lemma bpow_opp a : bpow (- a) = / bpow a.
Proof. apply powerRZ_neg'. Qed.

(** *** Rounding a mantissa of at least 53 digits, in the normal range *)

Local Open Scope Z_scope.

Lemma shr_spec mrs e n :
  0 <= n -> 0 <= shr_m mrs ->
  exists mrs', shr mrs e n = (mrs', e + n) /\ shr_m mrs' = shr_m mrs / 2 ^ n.
Proof.
  intros Hn Hm. destruct n as [|p|p]; [| |lia].
  - exists mrs. cbn [shr]. rewrite Z.add_0_r, Z.div_1_r. auto.
  - exists (SpecFloat.iter_pos shr_1 p mrs). cbn [shr].
    split; [reflexivity|]. now apply iter_shr_1_div.
Qed.

Lemma digits2_unique q k :
  2 ^ (k - 1) <= Zpos q < 2 ^ k -> Zpos (digits2_pos q) = k.
Proof.
  intros [Lo Hi].
  pose proof (digits2_upper q) as U. pose proof (digits2_lower q) as L.
  set (D := Zpos (digits2_pos q)) in *.
  assert (Hk : 0 < k).
  { destruct (Z_lt_le_dec 0 k) as [|G]; [assumption|exfalso].
    destruct k as [|k|k]; simpl in Hi; lia. }
  destruct (Z.lt_trichotomy D k) as [G|[G|G]]; [exfalso|assumption|exfalso].
  - assert (2 ^ D <= 2 ^ (k - 1)) by (apply Z.pow_le_mono_r; lia). lia.
  - assert (2 ^ (k + 1) <= 2 ^ D) by (apply Z.pow_le_mono_r; lia).
    rewrite Z.pow_add_r in * by lia. lia.
Qed.

Lemma binary_round_aux_normal s m e l :
  53 <= Zpos (digits2_pos m) ->
  -1074 <= Zpos (digits2_pos m) + e - 53 ->
  Zpos (digits2_pos m) + e <= 1023 ->
  exists m' e' m1 mr,
    binary_round_aux prec emax s (Zpos m) e l = S754_finite s m' e' /\
    2 ^ 52 <= m1 /\
    m1 * 2 ^ (Zpos (digits2_pos m) - 53) <= Zpos m
      < (m1 + 1) * 2 ^ (Zpos (digits2_pos m) - 53) /\
    m1 <= mr <= m1 + 1 /\
    Zpos (digits2_pos m) + e - 53 <= e' /\
    Zpos m' * 2 ^ (e' - (Zpos (digits2_pos m) + e - 53)) = mr.
Proof.
  set (D := Zpos (digits2_pos m)). intros Hd Hlo Hhi.
  pose proof (digits2_lower m) as Lo. pose proof (digits2_upper m) as Up.
  fold D in Lo, Up.
  unfold binary_round_aux. unfold shr_fexp at 1. cbn [Zdigits2]. fold D.
  assert (N1 : fexp prec emax (D + e) - e = D - 53).
  { unfold fexp, SpecFloat.emin, prec, emax. zstd. lia. }
  rewrite N1.
  destruct (shr_spec (shr_record_of_loc (Zpos m) l) e (D - 53))
    as (mrs1 & E1 & M1); [lia | rewrite shr_m_loc; lia |].
  rewrite E1. rewrite shr_m_loc in M1.
  set (m1 := shr_m mrs1) in *.
  assert (P : 0 < 2 ^ (D - 53)) by (apply Z.pow_pos_nonneg; lia).
  assert (S1 : 2 ^ D = 2 ^ 52 * 2 * 2 ^ (D - 53)).
  { replace D with (52 + 1 + (D - 53)) at 1 by lia.
    rewrite !Z.pow_add_r by lia. reflexivity. }
  assert (B1 : m1 * 2 ^ (D - 53) <= Zpos m < (m1 + 1) * 2 ^ (D - 53)).
  { pose proof (Z.div_mod (Zpos m) (2 ^ (D - 53)) ltac:(lia)) as DM.
    pose proof (Z.mod_pos_bound (Zpos m) (2 ^ (D - 53)) P) as MB.
    rewrite <- M1 in DM. lia. }
  assert (L1 : 2 ^ 52 <= m1).
  { rewrite M1. apply Z.div_le_lower_bound; lia. }
  assert (U1 : m1 < 2 ^ 53).
  { rewrite M1. apply Z.div_lt_upper_bound; [lia|].
    change (2 ^ 53) with (2 ^ 52 * 2). lia. }
  set (mr := round_nearest_even m1 (loc_of_shr_record mrs1)).
  pose proof (round_nearest_even_ge m1 (loc_of_shr_record mrs1)) as Gr.
  pose proof (round_nearest_even_bounds m1 (loc_of_shr_record mrs1) ltac:(lia))
    as Br.
  fold mr in Gr, Br.
  destruct mr as [|q|q] eqn:Emr;
    try (exfalso; change (2 ^ 52) with 4503599627370496 in L1; lia).
  unfold shr_fexp. cbn [Zdigits2].
  set (e1 := e + (D - 53)).
  destruct (Z_lt_le_dec (Zpos q) (2 ^ 53)) as [Hq|Hq].
  - assert (Dq : Zpos (digits2_pos q) = 53).
    { apply digits2_unique. change (53 - 1) with 52. lia. }
    rewrite Dq.
    assert (N2 : fexp prec emax (53 + e1) - e1 = 0).
    { unfold fexp, SpecFloat.emin, prec, emax, e1. zstd. lia. }
    rewrite N2. cbn [shr shr_record_of_loc shr_m].
    assert (Hle : (e1 <=? emax - prec) = true).
    { apply Z.leb_le. unfold emax, prec, e1. zstd. lia. }
    rewrite Hle. exists q, e1, m1, (Zpos q).
    replace (e1 - (D + e - 53)) with 0 by (unfold e1; lia).
    unfold e1. repeat apply conj; try reflexivity; try assumption; lia.
  - assert (Eq : Zpos q = 2 ^ 53) by lia.
    assert (Dq : Zpos (digits2_pos q) = 54).
    { apply digits2_unique. rewrite Eq. change (54 - 1) with 53.
      change (2 ^ 54) with (2 ^ 53 * 2). lia. }
    rewrite Dq.
    assert (N2 : fexp prec emax (54 + e1) - e1 = 1).
    { unfold fexp, SpecFloat.emin, prec, emax, e1. zstd. lia. }
    rewrite N2.
    destruct (shr_spec (shr_record_of_loc (Zpos q) loc_Exact) e1 1)
      as (mrs2 & E2 & M2); [lia | rewrite shr_m_loc; lia |].
    rewrite E2. rewrite shr_m_loc, Eq in M2.
    change (2 ^ 53 / 2 ^ 1) with (2 ^ 52) in M2. rewrite M2.
    change (2 ^ 52) with (Zpos 4503599627370496).
    assert (Hle : (e1 + 1 <=? emax - prec) = true).
    { apply Z.leb_le. unfold emax, prec, e1. zstd. lia. }
    rewrite Hle. exists 4503599627370496%positive, (e1 + 1), m1, (Zpos q).
    replace (e1 + 1 - (D + e - 53)) with 1 by (unfold e1; lia).
    unfold e1. repeat apply conj; try reflexivity; try assumption; lia.
Qed.

Local Close Scope Z_scope.

Lemma bpow_m52 : bpow (-52) * IZR (2 ^ 52) = 1.
Proof.
  rewrite <- (bpow_IZR 52) by lia. rewrite <- bpow_add. reflexivity.
Qed.

(** The rounded value is within [2^-52] of any real the mantissa brackets. *)
Lemma round_normal s m e l (r : R) :
  (53 <= Zpos (digits2_pos m))%Z ->
  (-1074 <= Zpos (digits2_pos m) + e - 53)%Z ->
  (Zpos (digits2_pos m) + e <= 1023)%Z ->
  IZR (Zpos m) * bpow e <= r <= (IZR (Zpos m) + 1) * bpow e ->
  exists m' e',
    binary_round_aux prec emax s (Zpos m) e l = S754_finite s m' e' /\
    Rabs (IZR (Zpos m') * bpow e' - r) <= bpow (-52) * r.
Proof.
  intros Hd Hlo Hhi [R1 R2].
  destruct (binary_round_aux_normal s m e l Hd Hlo Hhi)
    as (m' & e' & m1 & mr & E & L1 & [B1 B2] & [G1 G2] & He & V).
  exists m', e'. split; [exact E|].
  set (D := Zpos (digits2_pos m)) in *.
  set (u := bpow (D + e - 53)).
  assert (Hu : 0 < u) by apply bpow_pos.
  assert (Eu : u = bpow e * IZR (2 ^ (D - 53))).
  { unfold u. rewrite <- bpow_IZR by lia. rewrite <- bpow_add. f_equal. lia. }
  assert (Ev : IZR (Zpos m') * bpow e' = IZR mr * u).
  { rewrite <- V, mult_IZR. rewrite <- bpow_IZR by lia.
    unfold u. rewrite Rmult_assoc, <- bpow_add. do 2 f_equal. lia. }
  rewrite Ev.
  pose proof (bpow_pos e) as Pe.
  apply IZR_le in B1, G1, G2, L1. apply Z.lt_le_incl in B2 as B2'.
  assert (B3 : (Zpos m + 1 <= (m1 + 1) * 2 ^ (D - 53))%Z) by lia.
  apply IZR_le in B3.
  rewrite plus_IZR, mult_IZR, plus_IZR in B3. rewrite mult_IZR in B1.
  rewrite plus_IZR in G2.
  assert (Q1 : IZR m1 * u <= r).
  { rewrite Eu. apply Rle_trans with (IZR (Zpos m) * bpow e); [|exact R1].
    replace (IZR m1 * (bpow e * IZR (2 ^ (D - 53))))
      with (IZR m1 * IZR (2 ^ (D - 53)) * bpow e) by ring.
    apply Rmult_le_compat_r; lra. }
  assert (Q2 : r <= (IZR m1 + 1) * u).
  { rewrite Eu. apply Rle_trans with ((IZR (Zpos m) + 1) * bpow e); [exact R2|].
    replace ((IZR m1 + 1) * (bpow e * IZR (2 ^ (D - 53))))
      with ((IZR m1 + 1) * IZR (2 ^ (D - 53)) * bpow e) by ring.
    apply Rmult_le_compat_r; lra. }
  assert (Q3 : IZR m1 * u <= IZR mr * u) by (apply Rmult_le_compat_r; lra).
  assert (Q4 : IZR mr * u <= (IZR m1 + 1) * u) by (apply Rmult_le_compat_r; lra).
  assert (Q5 : u <= bpow (-52) * (IZR m1 * u)).
  { pose proof bpow_m52 as K. pose proof (bpow_pos (-52)) as P52.
    assert (bpow (-52) * IZR (2 ^ 52) <= bpow (-52) * IZR m1)
      by (apply Rmult_le_compat_l; lra).
    replace (bpow (-52) * (IZR m1 * u)) with (bpow (-52) * IZR m1 * u) by ring.
    assert (1 * u <= bpow (-52) * IZR m1 * u)
      by (apply Rmult_le_compat_r; lra).
    lra. }
  assert (Q6 : bpow (-52) * (IZR m1 * u) <= bpow (-52) * r).
  { apply Rmult_le_compat_l; [apply Rlt_le, bpow_pos | exact Q1]. }
  apply Rabs_le. lra.
Qed.

(** *** Magnitudes *)

Lemma bpow_le_inv a b : bpow a <= bpow b -> (a <= b)%Z.
Proof.
  intros H. destruct (Z_le_gt_dec a b) as [|G]; [assumption|exfalso].
  apply Z.gt_lt, bpow_lt in G. lra.
Qed.

Lemma IZR_pos_ge_1 m : 1 <= IZR (Zpos m).
Proof. apply IZR_le. lia. Qed.

Lemma mag_pos m e : 0 < mag m e.
Proof.
  unfold mag. pose proof (IZR_pos_ge_1 m). pose proof (bpow_pos e). nra.
Qed.

Lemma mag_ge m e : bpow e <= mag m e.
Proof.
  unfold mag. pose proof (IZR_pos_ge_1 m). pose proof (bpow_pos e). nra.
Qed.

Lemma mag_digits m e :
  bpow (Zpos (digits2_pos m) - 1 + e) <= mag m e /\
  IZR (Zpos m) + 1 <= bpow (Zpos (digits2_pos m)) /\
  mag m e < bpow (Zpos (digits2_pos m) + e).
Proof.
  pose proof (digits2_lower m) as Lo. pose proof (digits2_upper m) as Up.
  set (D := Zpos (digits2_pos m)) in *.
  assert (HD : (1 <= D)%Z) by (unfold D; lia).
  assert (S1 : (2 ^ D = 2 * 2 ^ (D - 1))%Z).
  { replace D with (1 + (D - 1))%Z at 1 by lia.
    rewrite Z.pow_add_r by lia. reflexivity. }
  pose proof (bpow_pos e) as Pe.
  unfold mag. rewrite !bpow_add.
  rewrite (bpow_IZR D), (bpow_IZR (D - 1)) by lia.
  assert (A : (2 ^ (D - 1) <= Zpos m)%Z) by lia.
  assert (B : (Zpos m + 1 <= 2 ^ D)%Z) by lia.
  apply IZR_le in A, B. rewrite plus_IZR in B.
  repeat apply conj.
  - apply Rmult_le_compat_r; lra.
  - exact B.
  - apply Rmult_lt_compat_r; lra.
Qed.

Lemma mag_mul m1 e1 m2 e2 : mag (m1 * m2) (e1 + e2) = mag m1 e1 * mag m2 e2.
Proof.
  unfold mag. rewrite Pos2Z.inj_mul, mult_IZR, bpow_add. ring.
Qed.

(** The same, with the range read off the real. *)
Lemma round_value s m e l (r : R) :
  (53 <= Zpos (digits2_pos m))%Z ->
  bpow (-1021) <= r < bpow 1023 ->
  mag m e <= r <= (IZR (Zpos m) + 1) * bpow e ->
  exists m' e',
    binary_round_aux prec emax s (Zpos m) e l = S754_finite s m' e' /\
    Rabs (mag m' e' - r) <= bpow (-52) * r /\
    (Zpos (digits2_pos m) + e - 53 <= e')%Z.
Proof.
  intros Hd [Rlo Rhi] [R1 R2].
  destruct (mag_digits m e) as (D1 & D2 & D3).
  pose proof (bpow_pos e) as Pe.
  assert (Hn : (-1074 <= Zpos (digits2_pos m) + e - 53)%Z).
  { assert (bpow (-1021) <= bpow (Zpos (digits2_pos m) + e)).
    { rewrite bpow_add.
      apply Rle_trans with r; [exact Rlo|].
      apply Rle_trans with ((IZR (Zpos m) + 1) * bpow e); [exact R2|].
      apply Rmult_le_compat_r; lra. }
    apply bpow_le_inv in H. lia. }
  assert (Ho : (Zpos (digits2_pos m) + e <= 1023)%Z).
  { assert (bpow (Zpos (digits2_pos m) - 1 + e) < bpow 1023) by lra.
    apply bpow_lt_inv in H. lia. }
  destruct (binary_round_aux_normal s m e l Hd Hn Ho)
    as (m' & e' & m1 & mr & E & _ & _ & _ & He & _).
  destruct (round_normal s m e l r Hd Hn Ho (conj R1 R2))
    as (m'' & e'' & E' & B).
  rewrite E in E'. injection E' as <- <-.
  exists m', e'. repeat apply conj; assumption.
Qed.

(** *** The product of two normal numbers *)

Lemma digits2_mul_53 mx my :
  Zpos (digits2_pos mx) = 53%Z -> Zpos (digits2_pos my) = 53%Z ->
  (53 <= Zpos (digits2_pos (mx * my)))%Z.
Proof.
  intros Hx Hy.
  pose proof (digits2_lower mx) as Lx. pose proof (digits2_lower my) as Ly.
  rewrite Hx in Lx. rewrite Hy in Ly.
  pose proof (digits2_upper (mx * my)) as U.
  rewrite Pos2Z.inj_mul in U.
  set (D := Zpos (digits2_pos (mx * my))) in *.
  destruct (Z_le_gt_dec 53 D) as [|G]; [assumption|exfalso].
  assert (2 ^ D <= 2 ^ 52)%Z by (apply Z.pow_le_mono_r; lia).
  change (2 ^ 53)%Z with 9007199254740992%Z in *.
  change (2 ^ 52)%Z with 4503599627370496%Z in *. nia.
Qed.

Lemma SFmul_value sx mx ex sy my ey :
  Zpos (digits2_pos mx) = 53%Z -> Zpos (digits2_pos my) = 53%Z ->
  bpow (-1021) <= mag mx ex * mag my ey < bpow 1023 ->
  exists m' e',
    SF64mul (S754_finite sx mx ex) (S754_finite sy my ey) =
      S754_finite (xorb sx sy) m' e' /\
    Rabs (mag m' e' - mag mx ex * mag my ey)
      <= bpow (-52) * (mag mx ex * mag my ey).
Proof.
  intros Hx Hy Hr. unfold SF64mul, SFmul.
  destruct (round_value (xorb sx sy) (mx * my) (ex + ey) loc_Exact
              (mag mx ex * mag my ey))
    as (m' & e' & E & B & _).
  - now apply digits2_mul_53.
  - exact Hr.
  - rewrite mag_mul. split; [lra|].
    rewrite <- mag_mul. unfold mag. pose proof (bpow_pos (ex + ey)). nra.
  - exists m', e'. split; assumption.
Qed.

(** *** Rounding an integer at an exponent: [binary_round] *)

Lemma iter_xO m d : Zpos (Pos.iter xO m d) = (Zpos m * 2 ^ Zpos d)%Z.
Proof.
  induction d as [|d IH] using Pos.peano_ind.
  - cbn [Pos.iter]. rewrite Z.pow_1_r. lia.
  - rewrite Pos.iter_succ, Pos2Z.inj_succ, Z.pow_succ_r by lia.
    rewrite Pos2Z.inj_xO, IH. ring.
Qed.

Lemma shl_align_spec m e e' :
  (e' <= e)%Z ->
  Zpos (fst (shl_align m e e')) = (Zpos m * 2 ^ (e - e'))%Z /\
  snd (shl_align m e e') = e'.
Proof.
  intros H. unfold shl_align.
  destruct (e' - e)%Z as [|d|d] eqn:Ed; cbn [fst snd]; try lia.
  - replace (e - e')%Z with 0%Z by lia. split; lia.
  - change (PosDef.Pos.iter xO m d) with (Pos.iter xO m d).
    rewrite iter_xO. replace (e - e')%Z with (Zpos d) by lia. auto.
Qed.

Lemma binary_round_value s m e :
  bpow (-1021) <= mag m e < bpow 1023 ->
  exists m' e',
    binary_round prec emax s m e = S754_finite s m' e' /\
    Rabs (mag m' e' - mag m e) <= bpow (-52) * mag m e /\
    (e - 52 <= e')%Z.
Proof.
  intros [Rlo Rhi]. unfold binary_round.
  destruct (mag_digits m e) as (D1 & D2 & D3).
  set (D := Zpos (digits2_pos m)) in *.
  assert (HD : (1 <= D)%Z) by (unfold D; lia).
  assert (Hn : (-1021 < D + e)%Z) by (apply bpow_lt_inv; lra).
  assert (N1 : fexp prec emax (D + e) = (D + e - 53)%Z).
  { unfold fexp, SpecFloat.emin, prec, emax. zstd. lia. }
  rewrite N1.
  destruct (Z_lt_le_dec D 53) as [Hs|Hs].
  - destruct (shl_align_spec m e (D + e - 53) ltac:(lia)) as [A1 A2].
    destruct (shl_align m e (D + e - 53)) as [mz ez]. cbn [fst snd] in A1, A2.
    subst ez. replace (e - (D + e - 53))%Z with (53 - D)%Z in A1 by lia.
    assert (Em : mag mz (D + e - 53) = mag m e).
    { unfold mag. rewrite A1, mult_IZR, <- bpow_IZR by lia.
      rewrite Rmult_assoc, <- bpow_add. do 2 f_equal. lia. }
    assert (Dz : Zpos (digits2_pos mz) = 53%Z).
    { apply digits2_unique. rewrite A1.
      pose proof (digits2_lower m) as Lo. pose proof (digits2_upper m) as Up.
      fold D in Lo, Up.
      assert (P : (0 < 2 ^ (53 - D))%Z) by (apply Z.pow_pos_nonneg; lia).
      assert (S1 : (2 ^ 53 = 2 ^ D * 2 ^ (53 - D))%Z).
      { rewrite <- Z.pow_add_r by lia. f_equal. lia. }
      change (2 ^ (53 - 1))%Z with (2 ^ 52)%Z.
      change (2 ^ 53)%Z with (2 * 2 ^ 52)%Z in S1 |- *. nia. }
    destruct (round_value s mz (D + e - 53) loc_Exact (mag m e))
      as (m' & e' & E & B & He).
    + lia.
    + lra.
    + rewrite <- Em. split; [lra|]. unfold mag.
      pose proof (bpow_pos (D + e - 53)). nra.
    + exists m', e'. repeat apply conj; try assumption. lia.
  - assert (A : shl_align m e (D + e - 53) = (m, e)).
    { unfold shl_align. destruct (D + e - 53 - e)%Z eqn:Ed; try reflexivity. lia. }
    rewrite A.
    destruct (round_value s m e loc_Exact (mag m e))
      as (m' & e' & E & B & He).
    + exact Hs.
    + lra.
    + split; [lra|]. unfold mag. pose proof (bpow_pos e). nra.
    + exists m', e'. repeat apply conj; try assumption. fold D in He. lia.
Qed.

(** *** Subtraction *)

Lemma SF2R_finite s m e :
  SF2R (S754_finite s m e) = if s then - mag m e else mag m e.
Proof. reflexivity. Qed.

Lemma SFsub_value sx mx ex sy my ey :
  (-1021 <= ex)%Z -> (-1021 <= ey)%Z ->
  Rabs (SF2R (S754_finite sx mx ex) - SF2R (S754_finite sy my ey))
    < bpow 1023 ->
  (SF64sub (S754_finite sx mx ex) (S754_finite sy my ey) = S754_zero false /\
   SF2R (S754_finite sx mx ex) = SF2R (S754_finite sy my ey)) \/
  exists s m' e',
    SF64sub (S754_finite sx mx ex) (S754_finite sy my ey) =
      S754_finite s m' e' /\
    Rabs (SF2R (S754_finite s m' e') -
          (SF2R (S754_finite sx mx ex) - SF2R (S754_finite sy my ey)))
      <= bpow (-52) *
         Rabs (SF2R (S754_finite sx mx ex) - SF2R (S754_finite sy my ey)) /\
    (Z.min ex ey - 52 <= e')%Z.
Proof.
  intros Hx Hy. unfold SF64sub, SFsub.
  change (IntDef.Z.min ex ey) with (Z.min ex ey).
  set (ez := Z.min ex ey).
  destruct (shl_align_spec mx ex ez ltac:(unfold ez; lia)) as [Ax _].
  destruct (shl_align_spec my ey ez ltac:(unfold ez; lia)) as [Ay _].
  set (d := (cond_Zopp sx (Zpos (fst (shl_align mx ex ez))) -
             cond_Zopp sy (Zpos (fst (shl_align my ey ez))))%Z).
  assert (Ed : IZR d * bpow ez =
               SF2R (S754_finite sx mx ex) - SF2R (S754_finite sy my ey)).
  { unfold d. rewrite minus_IZR, Ax, Ay.
    assert (Bx : bpow ex = IZR (2 ^ (ex - ez)) * bpow ez).
    { rewrite <- bpow_IZR by (unfold ez; lia). rewrite <- bpow_add.
      f_equal. lia. }
    assert (By : bpow ey = IZR (2 ^ (ey - ez)) * bpow ez).
    { rewrite <- bpow_IZR by (unfold ez; lia). rewrite <- bpow_add.
      f_equal. lia. }
    rewrite !SF2R_finite. unfold mag. rewrite Bx, By.
    destruct sx, sy; cbn [cond_Zopp];
      rewrite ?opp_IZR, !mult_IZR; ring. }
  rewrite <- Ed. clearbody d. intros Hr.
  pose proof (bpow_pos ez) as Pz.
  assert (Lz : bpow (-1021) <= bpow ez) by (apply bpow_le; unfold ez; lia).
  destruct d as [|p|p]; cbn [binary_normalize].
  - left. split; [reflexivity|]. lra.
  - right. change (IZR (Zpos p) * bpow ez) with (mag p ez) in *.
    pose proof (mag_pos p ez) as Pm. pose proof (mag_ge p ez) as Gm.
    rewrite Rabs_right in Hr by lra.
    destruct (binary_round_value false p ez ltac:(lra))
      as (m' & e' & E & B & He).
    exists false, m', e'. rewrite SF2R_finite.
    rewrite (Rabs_right (mag p ez)) by lra.
    repeat apply conj; assumption.
  - right. replace (IZR (Zneg p) * bpow ez) with (- mag p ez) in *
      by (unfold mag; change (Zneg p) with (- Zpos p)%Z;
          rewrite opp_IZR; ring).
    pose proof (mag_pos p ez) as Pm. pose proof (mag_ge p ez) as Gm.
    rewrite Rabs_left in Hr by lra.
    destruct (binary_round_value true p ez ltac:(lra))
      as (m' & e' & E & B & He).
    exists true, m', e'. rewrite SF2R_finite.
    rewrite (Rabs_left (- mag p ez)) by lra.
    repeat apply conj; try assumption.
    replace (- mag m' e' - - mag p ez) with (- (mag m' e' - mag p ez)) by ring.
    rewrite Rabs_Ropp. lra.
Qed.

(** *** Division of two normal numbers *)

Lemma SFdiv_value sx mx ex sy my ey :
  Zpos (digits2_pos mx) = 53%Z -> Zpos (digits2_pos my) = 53%Z ->
  (-1020 <= ex - ey)%Z ->
  mag mx ex / mag my ey < bpow 1023 ->
  exists m' e',
    SF64div (S754_finite sx mx ex) (S754_finite sy my ey) =
      S754_finite (xorb sx sy) m' e' /\
    Rabs (mag m' e' - mag mx ex / mag my ey)
      <= bpow (-52) * (mag mx ex / mag my ey).
Proof.
  intros Hx Hy He Hr. unfold SF64div, SFdiv, SFdiv_core_binary.
  cbn [Zdigits2]. rewrite Hx, Hy.
  assert (N1 : IntDef.Z.min (fexp prec emax (53 + ex - (53 + ey))) (ex - ey)
               = (ex - ey - 53)%Z).
  { change IntDef.Z.min with Z.min.
    unfold fexp, SpecFloat.emin, prec, emax. zstd. lia. }
  rewrite N1.
  replace (ex - ey - (ex - ey - 53))%Z with 53%Z by lia.
  change (IntDef.Z.shiftl (Zpos mx) 53) with (Z.shiftl (Zpos mx) 53).
  rewrite Z.shiftl_mul_pow2 by lia.
  change IntDef.Z.div_eucl with Z.div_eucl.
  pose proof (Z_div_mod (Zpos mx * 2 ^ 53) (Zpos my) ltac:(lia)) as DM.
  destruct (Z.div_eucl (Zpos mx * 2 ^ 53) (Zpos my)) as [q r].
  destruct DM as [DM [R0 R1]].
  pose proof (digits2_lower mx) as Lx. pose proof (digits2_upper mx) as Ux.
  pose proof (digits2_lower my) as Ly. pose proof (digits2_upper my) as Uy.
  rewrite Hx in Lx, Ux. rewrite Hy in Ly, Uy.
  change (2 ^ 53)%Z with 9007199254740992%Z in *.
  assert (Hq : (4503599627370496 <= q)%Z) by nia.
  destruct q as [|q|q]; try lia.
  set (e' := (ex - ey - 53)%Z).
  set (t := mag mx ex / mag my ey) in *.
  pose proof (mag_pos mx ex) as Px. pose proof (mag_pos my ey) as Py.
  pose proof (bpow_pos e') as Pe.
  assert (Pm : 0 < IZR (Zpos my)) by (apply IZR_lt; lia).
  assert (Et : t * IZR (Zpos my) = IZR (Zpos mx * 9007199254740992) * bpow e').
  { unfold t, mag. rewrite mult_IZR.
    change 9007199254740992%Z with (2 ^ 53)%Z. rewrite <- (bpow_IZR 53) by lia.
    assert (Eb : bpow ex = bpow 53 * bpow e' * bpow ey).
    { rewrite <- !bpow_add. f_equal. unfold e'. lia. }
    rewrite Eb. field. split; [apply Rgt_not_eq, bpow_pos | lra]. }
  assert (Q1 : mag q e' * IZR (Zpos my) <= t * IZR (Zpos my)).
  { rewrite Et, DM. unfold mag. rewrite plus_IZR, mult_IZR.
    apply IZR_le in R0. nra. }
  assert (Q2 : t * IZR (Zpos my) <= (IZR (Zpos q) + 1) * bpow e' * IZR (Zpos my)).
  { rewrite Et, DM. rewrite plus_IZR, mult_IZR.
    apply IZR_lt in R1. nra. }
  assert (T1 : mag q e' <= t) by (apply Rmult_le_reg_r with (IZR (Zpos my)); lra).
  assert (T2 : t <= (IZR (Zpos q) + 1) * bpow e')
    by (apply Rmult_le_reg_r with (IZR (Zpos my)); lra).
  destruct (round_value (xorb sx sy) q e' (new_location (Zpos my) r) t)
    as (m' & e'' & E & B & _).
  - pose proof (digits2_upper q) as Uq.
    destruct (Z_le_gt_dec 53 (Zpos (digits2_pos q))) as [|G]; [assumption|exfalso].
    assert (2 ^ Zpos (digits2_pos q) <= 2 ^ 52)%Z by (apply Z.pow_le_mono_r; lia).
    change (2 ^ 52)%Z with 4503599627370496%Z in *. lia.
  - split; [|exact Hr].
    apply Rle_trans with (mag q e'); [|exact T1].
    apply Rle_trans with (bpow 52 * bpow e').
    + rewrite <- bpow_add. apply bpow_le. unfold e'. lia.
    + unfold mag. rewrite (bpow_IZR 52) by lia.
      apply Rmult_le_compat_r; [lra|]. apply IZR_le.
      change (2 ^ 52)%Z with 4503599627370496%Z. lia.
  - split; assumption.
  - exists m', e''. split; assumption.
Qed.

(** *** Mantissas and exponents of doubles *)

Lemma valid_mantissa s m e :
  valid_binary (S754_finite s m e) = true ->
  (-1074 <= e <= 971)%Z /\
  (Zpos (digits2_pos m) <= 53)%Z /\
  ((-1074 < e)%Z -> Zpos (digits2_pos m) = 53%Z).
Proof.
  intros V. apply valid_finite in V as [V1 V2]. lia.
Qed.

Lemma normal_of_value x s m e k :
  Prim2SF x = S754_finite s m e ->
  (-1021 <= k)%Z -> bpow k <= mag m e ->
  Zpos (digits2_pos m) = 53%Z /\ (k - 53 < e)%Z.
Proof.
  intros Hx Hk Hv.
  pose proof (Prim2SF_valid x) as V. rewrite Hx in V.
  apply valid_mantissa in V as (V1 & V2 & V3).
  destruct (mag_digits m e) as (_ & _ & D3).
  assert (H : (k < Zpos (digits2_pos m) + e)%Z) by (apply bpow_lt_inv; lra).
  split; [apply V3|]; lia.
Qed.

Lemma exponent_upper m e k :
  Zpos (digits2_pos m) = 53%Z -> mag m e <= bpow k -> (e <= k - 52)%Z.
Proof.
  intros Hd Hv. destruct (mag_digits m e) as (D1 & _ & _).
  rewrite Hd in D1.
  assert (H : (53 - 1 + e <= k)%Z) by (apply bpow_le_inv; lra). lia.
Qed.

Lemma finite_nonzero x :
  finite x -> B2R x <> 0 -> exists s m e, Prim2SF x = S754_finite s m e.
Proof.
  unfold finite, B2R. destruct (Prim2SF x) as [s|s| |s m e]; cbn; intros F N;
    try contradiction; eauto.
Qed.

Lemma finite_positive x :
  finite x -> 0 < B2R x -> exists m e, Prim2SF x = S754_finite false m e.
Proof.
  intros F P. destruct (finite_nonzero x F ltac:(lra)) as (s & m & e & E).
  unfold B2R in P. rewrite E, SF2R_finite in P.
  pose proof (mag_pos m e). destruct s; [lra|eauto].
Qed.

Lemma B2R_finite x s m e :
  Prim2SF x = S754_finite s m e -> B2R x = if s then - mag m e else mag m e.
Proof. unfold B2R. now intros ->. Qed.

Lemma Rabs_SF2R s m e : Rabs (SF2R (S754_finite s m e)) = mag m e.
Proof.
  rewrite SF2R_finite. pose proof (mag_pos m e).
  destruct s; [rewrite Rabs_left | rewrite Rabs_right]; lra.
Qed.

(** *** [a - b] *)

Lemma sub_correct a b k :
  finite a -> finite b -> (-968 <= k)%Z ->
  B2R a = 0 \/ bpow k <= Rabs (B2R a) ->
  B2R b = 0 \/ bpow k <= Rabs (B2R b) ->
  Rabs (B2R a - B2R b) < bpow 1023 ->
  finite (a - b) /\
  Rabs (B2R (a - b) - (B2R a - B2R b)) <= eps * Rabs (B2R a - B2R b) /\
  (B2R (a - b) = 0 \/ bpow (k - 105) <= Rabs (B2R (a - b))).
Proof.
  unfold finite, B2R. intros Fa Fb Hk Ka Kb Hr. rewrite sub_spec.
  pose proof (Prim2SF_valid a) as Va. pose proof (Prim2SF_valid b) as Vb.
  assert (Pe : 0 < eps) by apply bpow_pos.
  assert (Lk : bpow (k - 105) <= bpow k) by (apply bpow_le; lia).
  destruct (Prim2SF a) as [sa|sa| |sa ma ea] eqn:Ea; try contradiction;
    destruct (Prim2SF b) as [sb|sb| |sb mb eb] eqn:Eb; try contradiction.
  - assert (Z : exists s, SF64sub (S754_zero sa) (S754_zero sb) = S754_zero s)
      by (destruct sa, sb; cbn; eauto).
    destruct Z as [s ->]. cbn [SFfinite SF2R].
    rewrite !Rminus_0_r, Rabs_R0.
    split; [exact I|]. split; [lra | left; reflexivity].
  - change (SF64sub (S754_zero sa) (S754_finite sb mb eb))
      with (S754_finite (negb sb) mb eb).
    destruct Kb as [Kb|Kb];
      [exfalso; rewrite SF2R_finite in Kb; pose proof (mag_pos mb eb);
       destruct sb; lra|].
    rewrite Rabs_SF2R in Kb. cbn [SFfinite]. split; [exact I|].
    rewrite Rabs_SF2R. split; [|right; lra].
    rewrite !SF2R_finite. cbn [SF2R].
    destruct sb; cbn [negb];
      match goal with |- Rabs ?t <= _ => replace t with 0 by ring end;
      rewrite Rabs_R0; apply Rmult_le_pos; try lra; apply Rabs_pos.
  - change (SF64sub (S754_finite sa ma ea) (S754_zero sb))
      with (S754_finite sa ma ea).
    destruct Ka as [Ka|Ka];
      [exfalso; rewrite SF2R_finite in Ka; pose proof (mag_pos ma ea);
       destruct sa; lra|].
    cbn [SFfinite]. split; [exact I|]. cbn [SF2R] in *.
    split; [|right; lra].
    match goal with |- Rabs ?t <= _ => replace t with 0 by ring end.
    rewrite Rabs_R0. apply Rmult_le_pos; try lra. apply Rabs_pos.
  - destruct Ka as [Ka|Ka];
      [exfalso; rewrite SF2R_finite in Ka; pose proof (mag_pos ma ea);
       destruct sa; lra|].
    destruct Kb as [Kb|Kb];
      [exfalso; rewrite SF2R_finite in Kb; pose proof (mag_pos mb eb);
       destruct sb; lra|].
    rewrite Rabs_SF2R in Ka, Kb.
    destruct (normal_of_value a sa ma ea k Ea ltac:(lia) Ka) as [_ Xa].
    destruct (normal_of_value b sb mb eb k Eb ltac:(lia) Kb) as [_ Xb].
    destruct (SFsub_value sa ma ea sb mb eb ltac:(lia) ltac:(lia) Hr)
      as [[E Q]|(s & m' & e' & E & B & He)]; rewrite E.
    + cbn [SFfinite]. split; [exact I|]. rewrite Q.
      cbn [SF2R]. rewrite !Rminus_diag, Rabs_R0.
      split; [lra | left; reflexivity].
    + cbn [SFfinite]. split; [exact I|]. split; [exact B|right].
      rewrite Rabs_SF2R. apply Rle_trans with (bpow e'); [|apply mag_ge].
      apply bpow_le. lia.
Qed.

(** *** [a / b] *)

Lemma div_correct a b :
  finite a -> finite b ->
  B2R a = 0 \/ bpow (-500) <= Rabs (B2R a) ->
  bpow (-500) <= Rabs (B2R b) <= bpow 500 ->
  Rabs (B2R a / B2R b) < bpow 1023 ->
  finite (a / b) /\
  Rabs (B2R (a / b) - B2R a / B2R b) <= eps * Rabs (B2R a / B2R b).
Proof.
  unfold finite, B2R. intros Fa Fb Ka [Kb Kb'] Hr. rewrite div_spec.
  assert (Pe : 0 < eps) by apply bpow_pos.
  pose proof (bpow_pos (-500)) as P500.
  destruct (Prim2SF b) as [sb|sb| |sb mb eb] eqn:Eb; try contradiction.
  { exfalso. cbn [SF2R] in Kb. rewrite Rabs_R0 in Kb. lra. }
  rewrite Rabs_SF2R in Kb, Kb'.
  destruct (normal_of_value b sb mb eb (-500) Eb ltac:(lia) Kb) as [Db Xb].
  pose proof (exponent_upper mb eb 500 Db Kb') as Yb.
  pose proof (mag_pos mb eb) as Pb.
  destruct (Prim2SF a) as [sa|sa| |sa ma ea] eqn:Ea; try contradiction.
  - change (SF64div (S754_zero sa) (S754_finite sb mb eb))
      with (S754_zero (xorb sa sb)).
    cbn [SFfinite]. split; [exact I|]. cbn [SF2R].
    unfold Rdiv. rewrite Rmult_0_l, Rminus_0_r, Rabs_R0. lra.
  - destruct Ka as [Ka|Ka];
      [exfalso; rewrite SF2R_finite in Ka; pose proof (mag_pos ma ea);
       destruct sa; lra|].
    rewrite Rabs_SF2R in Ka.
    destruct (normal_of_value a sa ma ea (-500) Ea ltac:(lia) Ka) as [Da Xa].
    pose proof (mag_pos ma ea) as Pa.
    assert (Q : Rabs (SF2R (S754_finite sa ma ea) / SF2R (S754_finite sb mb eb))
                = mag ma ea / mag mb eb).
    { unfold Rdiv. rewrite Rabs_mult, Rabs_inv, !Rabs_SF2R. reflexivity. }
    rewrite Q in *.
    destruct (SFdiv_value sa ma ea sb mb eb Da Db ltac:(lia) Hr)
      as (m' & e' & E & B).
    rewrite E. cbn [SFfinite]. split; [exact I|].
    rewrite !SF2R_finite.
    destruct sa, sb; cbn [xorb]; try exact B;
      match goal with
      | |- Rabs ?t <= _ =>
          (replace t with (mag m' e' - mag ma ea / mag mb eb)
             by (field; repeat split; lra)) ||
          (replace t with (- (mag m' e' - mag ma ea / mag mb eb))
             by (field; repeat split; lra); rewrite Rabs_Ropp)
      end; exact B.
Qed.

(** *** [2 * x] and [abs a] *)

Lemma double_correct x :
  finite x -> bpow (-1000) <= Rabs (B2R x) <= bpow 1000 ->
  finite (2 * x) /\ B2R (2 * x) = 2 * B2R x.
Proof.
  unfold finite, B2R. intros Fx [K1 K2]. rewrite mul_spec, two_SF.
  pose proof (bpow_pos (-1000)) as P.
  destruct (Prim2SF x) as [s|s| |s m e] eqn:Ex; try contradiction.
  { exfalso. cbn [SF2R] in K1. rewrite Rabs_R0 in K1. lra. }
  rewrite Rabs_SF2R in K1, K2.
  destruct (normal_of_value x s m e (-1000) Ex ltac:(lia) K1) as [D X1].
  pose proof (exponent_upper m e 1000 D K2) as X2.
  rewrite SFmul_two_normal by (try lia; congruence).
  assert (L : (e + 1 <=? 971)%Z = true).
  { pose proof (Prim2SF_valid x) as V. rewrite Ex in V.
    apply valid_mantissa in V. apply Z.leb_le. lia. }
  rewrite L. cbn [SFfinite]. split; [exact I|].
  rewrite !SF2R_finite. unfold mag. rewrite bpow_succ.
  destruct s; ring.
Qed.

Lemma abs_correct a :
  finite a -> finite (abs a) /\ B2R (abs a) = Rabs (B2R a).
Proof.
  unfold finite, B2R. intros Fa. rewrite abs_spec.
  destruct (Prim2SF a) as [s|s| |s m e]; try contradiction; cbn [SFabs SFfinite].
  - split; [exact I|]. cbn [SF2R]. now rewrite Rabs_R0.
  - split; [exact I|]. rewrite Rabs_SF2R. reflexivity.
Qed.

(** *** Comparisons *)

Lemma nonneg_finite x : nonneg x -> finite x.
Proof.
  unfold nonneg, finite. destruct (Prim2SF x) as [s|s| |[|] m e]; cbn; auto.
Qed.

Lemma nonneg_B2R x : nonneg x -> 0 <= B2R x.
Proof.
  unfold nonneg, B2R. destruct (Prim2SF x) as [s|s| |[|] m e]; cbn;
    try contradiction; intros _; try lra.
  apply Rlt_le. apply (mag_pos m e).
Qed.

Lemma finite_nonneg x : finite x -> 0 <= B2R x -> nonneg x.
Proof.
  unfold nonneg, finite, B2R.
  destruct (Prim2SF x) as [s|s| |[|] m e]; cbn; auto.
  intros _ H. pose proof (mag_pos m e). unfold mag in *. lra.
Qed.

Lemma lt_by_exponent m1 e1 m2 e2 :
  (Zpos (digits2_pos m1) <= 53)%Z -> Zpos (digits2_pos m2) = 53%Z ->
  (e1 < e2)%Z -> mag m1 e1 < mag m2 e2.
Proof.
  intros D1 D2 He.
  destruct (mag_digits m1 e1) as (_ & _ & U1).
  destruct (mag_digits m2 e2) as (L2 & _ & _).
  rewrite D2 in L2.
  assert (bpow (Zpos (digits2_pos m1) + e1) <= bpow (53 - 1 + e2))
    by (apply bpow_le; lia).
  lra.
Qed.

Lemma SFcompare_pos m1 e1 m2 e2 :
  valid_binary (S754_finite false m1 e1) = true ->
  valid_binary (S754_finite false m2 e2) = true ->
  match SFcompare (S754_finite false m1 e1) (S754_finite false m2 e2) with
  | Some Lt => mag m1 e1 < mag m2 e2
  | Some Eq => mag m1 e1 = mag m2 e2
  | Some Gt => mag m2 e2 < mag m1 e1
  | None => False
  end.
Proof.
  intros V1 V2. apply valid_mantissa in V1 as (A1 & B1 & C1).
  apply valid_mantissa in V2 as (A2 & B2 & C2).
  cbn [SFcompare]. destruct (Z.compare_spec e1 e2) as [E|L|G].
  - subst e2. change (PosDef.Pos.compare_cont Eq m1 m2) with (Pos.compare m1 m2).
    pose proof (bpow_pos e1) as P. unfold mag.
    destruct (Pos.compare_spec m1 m2) as [E|L|G].
    + now subst.
    + apply Rmult_lt_compat_r; [exact P|]. apply IZR_lt. lia.
    + apply Rmult_lt_compat_r; [exact P|]. apply IZR_lt. lia.
  - apply lt_by_exponent; try assumption. apply C2. lia.
  - apply lt_by_exponent; try assumption. apply C1. lia.
Qed.

Lemma SFcompare_nonneg a b :
  nonneg a -> nonneg b ->
  match SFcompare (Prim2SF a) (Prim2SF b) with
  | Some Lt => B2R a < B2R b
  | Some Eq => B2R a = B2R b
  | Some Gt => B2R b < B2R a
  | None => False
  end.
Proof.
  unfold nonneg, B2R. intros Na Nb.
  pose proof (Prim2SF_valid a) as Va. pose proof (Prim2SF_valid b) as Vb.
  destruct (Prim2SF a) as [sa|sa| |[|] ma ea]; try contradiction;
    destruct (Prim2SF b) as [sb|sb| |[|] mb eb]; try contradiction.
  - reflexivity.
  - cbn. apply (mag_pos mb eb).
  - cbn. apply (mag_pos ma ea).
  - apply (SFcompare_pos ma ea mb eb Va Vb).
Qed.

Lemma ltb_correct a b :
  nonneg a -> nonneg b -> (a <? b)%float = true -> B2R a < B2R b.
Proof.
  intros Na Nb. rewrite ltb_spec. unfold SFltb.
  pose proof (SFcompare_nonneg a b Na Nb) as C.
  destruct (SFcompare (Prim2SF a) (Prim2SF b)) as [[| |]|];
    try discriminate. auto.
Qed.

Lemma leb_correct a b :
  nonneg a -> nonneg b -> (a <=? b)%float = true -> B2R a <= B2R b.
Proof.
  intros Na Nb. rewrite leb_spec. unfold SFleb.
  pose proof (SFcompare_nonneg a b Na Nb) as C.
  destruct (SFcompare (Prim2SF a) (Prim2SF b)) as [[| |]|];
    try discriminate; intros _; lra.
Qed.

Lemma ltb_false_of_le a b :
  nonneg a -> nonneg b -> B2R b <= B2R a -> (a <? b)%float = false.
Proof.
  intros Na Nb H. destruct (a <? b)%float eqn:E; [exfalso|reflexivity].
  apply ltb_correct in E; try assumption. lra.
Qed.

Lemma leb_of_le a b :
  nonneg a -> nonneg b -> B2R a <= B2R b -> (a <=? b)%float = true.
Proof.
  intros Na Nb H. rewrite leb_spec. unfold SFleb.
  pose proof (SFcompare_nonneg a b Na Nb) as C.
  destruct (SFcompare (Prim2SF a) (Prim2SF b)) as [[| |]|];
    try reflexivity; [lra|contradiction].
Qed.

Lemma ltb_of_lt a b :
  nonneg a -> nonneg b -> B2R a < B2R b -> (a <? b)%float = true.
Proof.
  intros Na Nb H. rewrite ltb_spec. unfold SFltb.
  pose proof (SFcompare_nonneg a b Na Nb) as C.
  destruct (SFcompare (Prim2SF a) (Prim2SF b)) as [[| |]|];
    try reflexivity; try lra; contradiction.
Qed.

Lemma ltb_infinity x : finite x -> (x <? infinity)%float = true.
Proof.
  unfold finite. rewrite ltb_spec, infinity_SF.
  destruct (Prim2SF x) as [s|s| |[|] m e]; try contradiction; reflexivity.
Qed.

(** The double [2^(52+e)]. *)
Lemma power_of_two x e :
  Prim2SF x = S754_finite false 4503599627370496 e ->
  nonneg x /\ B2R x = bpow (52 + e).
Proof.
  intros E. unfold nonneg, B2R. rewrite E. split; [exact I|].
  cbn [SF2R]. change 4503599627370496%Z with (2 ^ 52)%Z.
  rewrite <- (bpow_IZR 52) by lia. now rewrite bpow_add.
Qed.

(** A double between two non-negative numbers is one. *)
Lemma between lo x hi :
  nonneg lo -> nonneg hi ->
  (lo <=? x)%float = true -> (x <=? hi)%float = true ->
  nonneg x /\ B2R lo <= B2R x <= B2R hi.
Proof.
  intros Nl Nh L H.
  assert (Nx : nonneg x).
  { unfold nonneg in *. rewrite leb_spec in L, H. unfold SFleb in L, H.
    destruct (Prim2SF lo) as [sl|sl| |[|] ml el]; try contradiction;
      destruct (Prim2SF hi) as [sh|sh| |[|] mh eh]; try contradiction;
      destruct (Prim2SF x) as [s|[|]| |[|] m e]; cbn in L, H |- *;
      try discriminate; exact I. }
  split; [exact Nx|]. split; now apply leb_correct.
Qed.

Lemma nonneg_of_bounds t :
  (0 <=? t)%float = true -> (t <? infinity)%float = true -> nonneg t.
Proof.
  unfold nonneg. rewrite leb_spec, ltb_spec, infinity_SF.
  change (Prim2SF 0) with (S754_zero false).
  unfold SFleb, SFltb.
  destruct (Prim2SF t) as [s|[|]| |[|] m e]; cbn; try discriminate; auto.
Qed.

(** *** Arithmetic on powers of two *)

Lemma eps_value : eps = / 4503599627370496.
Proof.
  unfold eps. change (-52)%Z with (- (52))%Z.
  rewrite bpow_opp, bpow_IZR by lia. reflexivity.
Qed.

Lemma eps_pos : 0 < eps.
Proof. apply bpow_pos. Qed.

Lemma eps_small : eps <= / 1000.
Proof. rewrite eps_value. lra. Qed.

Lemma prod_le x y a b :
  0 <= x <= bpow a -> 0 <= y <= bpow b -> x * y <= bpow (a + b).
Proof.
  intros [X0 X1] [Y0 Y1]. rewrite bpow_add.
  apply Rmult_le_compat; assumption.
Qed.

Lemma prod_ge x y a b :
  bpow a <= x -> bpow b <= y -> bpow (a + b) <= x * y.
Proof.
  intros X1 Y1. rewrite bpow_add.
  pose proof (bpow_pos a). pose proof (bpow_pos b).
  apply Rmult_le_compat; lra.
Qed.

Lemma div_le x y a b :
  0 <= x <= bpow a -> bpow b <= y -> x / y <= bpow (a - b).
Proof.
  intros [X0 X1] Y1. pose proof (bpow_pos b) as Pb.
  unfold Zminus. rewrite bpow_add, bpow_opp. unfold Rdiv.
  apply Rmult_le_compat; try assumption.
  - apply Rlt_le, Rinv_0_lt_compat. lra.
  - apply Rinv_le_contravar; assumption.
Qed.

Lemma div_ge x y a b :
  bpow a <= x -> 0 < y <= bpow b -> bpow (a - b) <= x / y.
Proof.
  intros X1 [Y0 Y1]. pose proof (bpow_pos a) as Pa.
  pose proof (bpow_pos b) as Pb.
  unfold Zminus. rewrite bpow_add, bpow_opp. unfold Rdiv.
  apply Rmult_le_compat; try lra.
  - apply Rlt_le, Rinv_0_lt_compat. lra.
  - apply Rinv_le_contravar; assumption.
Qed.

Lemma sum_le x y a :
  x <= bpow a -> y <= bpow a -> x + y <= bpow (a + 1).
Proof. intros. rewrite bpow_succ. lra. Qed.

(** A value within [eps] of another has about its size. *)
Lemma rounded_size a b :
  Rabs (a - b) <= eps * Rabs b ->
  Rabs b / 2 <= Rabs a <= 2 * Rabs b.
Proof.
  intros H. pose proof eps_small. pose proof eps_pos.
  pose proof (Rabs_pos b).
  assert (eps * Rabs b <= / 1000 * Rabs b)
    by (apply Rmult_le_compat_r; lra).
  pose proof (Rabs_triang_inv a b). pose proof (Rabs_triang_inv b a).
  rewrite (Rabs_minus_sym b a) in *. lra.
Qed.

End Binary64RealFacts.

Set Implicit Arguments.

(** ** The Newton step within a relative error *)

Module RoundedStepFacts.

Unset Implicit Arguments.

Import RoundedStep.

Local Open Scope R_scope.

Lemma Rabs_bounds x b : Rabs x <= b -> - b <= x <= b.
Proof. unfold Rabs. destruct (Rcase_abs x); lra. Qed.

Lemma sq_nonneg x : 0 <= x * x.
Proof. apply Rle_0_sqr. Qed.

(** A relative error [e] as a factor. *)
Lemma relative_factor e a b :
  0 <= e -> Rabs (a - b) <= e * Rabs b ->
  exists d, a = b * (1 + d) /\ - e <= d <= e.
Proof.
  intros He H. destruct (Req_dec b 0) as [Hb|Hb].
  - exists 0. subst b. rewrite Rabs_R0, Rmult_0_r, Rminus_0_r in H.
    pose proof (Rabs_pos a). assert (Ha : Rabs a = 0) by lra.
    destruct (Req_dec a 0) as [->|Na]; [split; lra|].
    apply Rabs_no_R0 in Na. contradiction.
  - exists ((a - b) / b). split; [field; exact Hb|].
    assert (Pb : 0 < Rabs b) by now apply Rabs_pos_lt.
    assert (E : Rabs ((a - b) / b) <= e).
    { unfold Rdiv. rewrite Rabs_mult, Rabs_inv.
      apply Rmult_le_reg_r with (Rabs b); [exact Pb|].
      rewrite Rmult_assoc, Rinv_l by lra. lra. }
    now apply Rabs_bounds.
Qed.

(** The values computed by one pass, each within [e] of the exact one, give
    the exact step [(X*X + N) / (2*X)] within [5 * e]. *)
Lemma pass_real e X N S Fx Q X' :
  0 < e <= / 1000 -> 0 < X -> 0 < N ->
  Rabs (S - X * X) <= e * Rabs (X * X) ->
  Rabs (Fx - (S - N)) <= e * Rabs (S - N) ->
  Rabs (Q - Fx / (2 * X)) <= e * Rabs (Fx / (2 * X)) ->
  Rabs (X' - (X - Q)) <= e * Rabs (X - Q) ->
  (1 - 5 * e) * (X * X + N) <= 2 * X * X' <= (1 + 5 * e) * (X * X + N).
Proof.
  intros [e_pos e_small] X_pos N_pos S_rounded Fx_rounded Q_rounded X'_rounded.
  destruct (relative_factor e S (X * X) ltac:(lra) S_rounded) as (d1 & E1 & B1).
  destruct (relative_factor e Fx (S - N) ltac:(lra) Fx_rounded) as (d2 & E2 & B2).
  destruct (relative_factor e Q (Fx / (2 * X)) ltac:(lra) Q_rounded)
    as (d3 & E3 & B3).
  destruct (relative_factor e X' (X - Q) ltac:(lra) X'_rounded)
    as (d4 & E4 & B4).
  set (t := (1 + d2) * (1 + d3)).
  set (u := (1 + d1) * t).
  assert (T1 : (1 - e) * (1 - e) <= t) by (unfold t; nra).
  assert (T2 : t <= (1 + e) * (1 + e)) by (unfold t; nra).
  assert (T0 : 0 < t) by nra.
  assert (U1 : (1 - e) * ((1 - e) * (1 - e)) <= u) by (unfold u; nra).
  assert (U2 : u <= (1 + e) * ((1 + e) * (1 + e))) by (unfold u; nra).
  assert (U3 : 1 - 3 * e <= u) by nra.
  assert (U4 : u <= 1 + 4 * e) by nra.
  assert (T3 : 1 - 4 * e <= t) by nra.
  assert (T4 : t <= 1 + 3 * e) by nra.
  set (W := X * X * (2 - u) + N * t).
  assert (EW : 2 * X * X' = W * (1 + d4)).
  { rewrite E4, E3, E2, E1. unfold W, u, t. field. lra. }
  assert (PX : 0 < X * X) by nra.
  assert (W1 : (1 - 4 * e) * (X * X + N) <= W) by (unfold W; nra).
  assert (W2 : W <= (1 + 3 * e) * (X * X + N)) by (unfold W; nra).
  assert (PG : 0 < X * X + N) by lra.
  rewrite EW. split.
  - apply Rle_trans with ((1 - 4 * e) * (X * X + N) * (1 - e)); [nra|].
    assert (0 < (1 - 4 * e) * (X * X + N)) by nra.
    nra.
  - apply Rle_trans with ((1 + 3 * e) * (X * X + N) * (1 + e)); [|nra].
    assert (0 < W) by nra. nra.
Qed.

(** The computed step stays above the root, within [k]. *)
Lemma step_lower k s N X X' :
  0 < k <= / 100 -> 0 < X -> near_step k N X X' ->
  s * s <= N -> (1 - k) * s <= X'.
Proof.
  intros [k_pos k_small] X_pos [L _] HN.
  pose proof (sq_nonneg (X - s)).
  assert ((1 - k) * (2 * X * s) <= (1 - k) * (X * X + N))
    by (apply Rmult_le_compat_l; nra).
  assert (2 * X * ((1 - k) * s) <= 2 * X * X') by nra.
  apply Rmult_le_reg_l with (2 * X); lra.
Qed.

(** It stays in the range of the guesses. *)
Lemma step_upper k N X X' lo hi nmax :
  0 < k <= / 100 -> 0 < X -> near_step k N X X' ->
  0 < lo -> lo <= X <= hi -> 0 < N <= nmax ->
  2 * nmax <= (1 - k) * (lo * hi) -> X' <= hi.
Proof.
  intros [k_pos k_small] X_pos [_ U] Hlo [X1 X2] [N1 N2] Hn.
  destruct (Rle_lt_dec X' hi) as [|G]; [assumption|exfalso].
  assert (2 * X * hi < 2 * X * X') by (apply Rmult_lt_compat_l; lra).
  assert (X * X <= X * hi) by (apply Rmult_le_compat_l; lra).
  assert (lo * hi <= X * hi) by (apply Rmult_le_compat_r; lra).
  assert ((1 + k) * N <= 2 * nmax) by nra.
  assert ((1 - k) * (lo * hi) <= (1 - k) * (X * hi))
    by (apply Rmult_le_compat_l; lra).
  assert ((1 + k) * (X * X) <= (1 + k) * (X * hi))
    by (apply Rmult_le_compat_l; lra).
  lra.
Qed.

(** From a guess above half the root, the distance to the root is about
    halved, up to the rounding of the step. *)
Lemma step_contract k s N X X' :
  0 < k <= / 100 -> 0 < X -> near_step k N X X' ->
  0 < s -> N = s * s -> s / 2 <= X ->
  Rabs (X' - s) <= (1 + k) / 2 * Rabs (X - s) + k * s.
Proof.
  intros [k_pos k_small] X_pos [L U] s_pos HN HX. subst N.
  set (a := Rabs (X - s)).
  assert (A0 : 0 <= a) by apply Rabs_pos.
  assert (A1 : (X - s) * (X - s) <= a * X).
  { unfold a, Rabs. destruct (Rcase_abs (X - s)); nra. }
  apply Rabs_le. split.
  - apply Rmult_le_reg_l with (2 * X); [lra|].
    pose proof (sq_nonneg (X - s)). nra.
  - apply Rmult_le_reg_l with (2 * X); [lra|].
    assert (2 * X * (X' - s) <= (1 + k) * ((X - s) * (X - s)) + 2 * k * (X * s))
      by nra.
    assert ((1 + k) * ((X - s) * (X - s)) <= (1 + k) * (a * X))
      by (apply Rmult_le_compat_l; lra).
    nra.
Qed.

(** A small step means that the guess is close to the root. *)
Lemma step_distance k s N X X' :
  0 < k <= / 100 -> 0 < X -> near_step k N X X' ->
  0 < s -> N = s * s ->
  (1 - 2 * k) * Rabs (X - s) <= 2 * Rabs (X' - X) + 2 * k * s.
Proof.
  intros [k_pos k_small] X_pos [L U] s_pos HN. subst N.
  pose proof (Rle_abs (X' - X)) as D1.
  pose proof (Rle_abs (X - X')) as D2.
  rewrite (Rabs_minus_sym X X') in D2.
  set (D := Rabs (X' - X)) in *.
  destruct (Rle_lt_dec s X) as [G|G].
  - rewrite Rabs_right by lra.
    assert (2 * X * ((1 - 2 * k) * (X - s)) <= 2 * X * (2 * D + 2 * k * s));
      [|apply Rmult_le_reg_l with (2 * X); lra].
    assert (2 * X * (X - X') <= 2 * X * D)
      by (apply Rmult_le_compat_l; lra).
    pose proof (sq_nonneg (X - s)).
    assert (0 <= (X - s) * X) by nra.
    assert (0 <= (X - s) * s) by nra.
    assert (0 <= k * ((X - s) * X)) by (apply Rmult_le_pos; lra).
    assert (0 <= k * ((X - s) * s)) by (apply Rmult_le_pos; lra).
    nra.
  - rewrite Rabs_left by lra.
    assert (2 * X * ((1 - 2 * k) * (- (X - s))) <= 2 * X * (2 * D + 2 * k * s));
      [|apply Rmult_le_reg_l with (2 * X); lra].
    assert (2 * X * (X' - X) <= 2 * X * D)
      by (apply Rmult_le_compat_l; lra).
    pose proof (sq_nonneg (s - X)).
    assert (0 <= (s - X) * X) by nra.
    assert (0 <= (s - X) * s) by nra.
    assert (0 <= k * ((s - X) * X)) by (apply Rmult_le_pos; lra).
    assert (0 <= k * ((s - X) * s)) by (apply Rmult_le_pos; lra).
    assert (0 <= k * (X * s)) by (apply Rmult_le_pos; nra).
    nra.
Qed.

(** *** The distance to the root after [n] more passes *)

Lemma drift_closed c b n : forall E,
  c <> 1 -> drift c b n E = c ^ n * E + b / (1 - c) * (1 - c ^ n).
Proof.
  induction n as [|n IH]; intros E Hc; cbn [drift pow].
  - field. lra.
  - rewrite IH by assumption. field. lra.
Qed.

Lemma drift_le c b n E :
  0 <= c < 1 -> 0 <= b ->
  drift c b n E <= c ^ n * E + b / (1 - c).
Proof.
  intros [C0 C1] Hb. rewrite drift_closed by lra.
  assert (0 <= c ^ n) by (apply pow_le; lra).
  assert (0 <= b / (1 - c)) by (apply Rmult_le_pos; [lra|];
    apply Rlt_le, Rinv_0_lt_compat; lra).
  nra.
Qed.

Lemma pow_one_plus k n :
  0 <= k -> 2 * INR n * k <= 1 -> (1 + k) ^ n <= 1 + 2 * INR n * k.
Proof.
  intros Hk. induction n as [|n IH]; intros H.
  - simpl. lra.
  - rewrite S_INR in H |- *. cbn [pow].
    pose proof (pos_INR n) as Pn.
    assert (H' : 2 * INR n * k <= 1) by nra.
    specialize (IH H').
    assert (0 <= (1 + k) ^ n) by (apply pow_le; lra).
    assert ((1 + k) * (1 + k) ^ n <= (1 + k) * (1 + 2 * INR n * k))
      by (apply Rmult_le_compat_l; lra).
    nra.
Qed.

Lemma pow_le_from c m n :
  0 <= c <= 1 -> (m <= n)%nat -> c ^ n <= c ^ m.
Proof.
  intros [C0 C1] H. replace n with (m + (n - m))%nat by lia.
  rewrite pow_add.
  assert (0 <= c ^ m) by (apply pow_le; lra).
  assert (c ^ (n - m) <= 1).
  { rewrite <- (pow1 (n - m)). apply pow_incr. lra. }
  nra.
Qed.

(** The stopping test: a step below [T] leaves the guess close to the
    root. *)
Lemma converged_bound e s a D Err T :
  0 < e <= / 1000 -> 0 < s -> 0 <= a -> 0 <= D ->
  (1 - 2 * (5 * e)) * a <= 2 * D + 2 * (5 * e) * s ->
  Rabs (Err - D) <= e * D -> Err < T ->
  a <= 3 * T + 11 * e * s.
Proof.
  intros [E0 E1] Hs Ha HD H1 H2 H3.
  apply Rabs_bounds in H2.
  assert (D * (1 - e) < T) by lra.
  assert (0 <= e * D) by (apply Rmult_le_pos; lra).
  assert (0 < T) by nra.
  assert (0 <= e * a) by (apply Rmult_le_pos; lra).
  assert (0 < e * s) by (apply Rmult_lt_0_compat; lra).
  assert (0 < e * T) by (apply Rmult_lt_0_compat; lra).
  assert (e * D <= / 1000 * D) by (apply Rmult_le_compat_r; lra).
  assert (e * a <= / 1000 * a) by (apply Rmult_le_compat_r; lra).
  lra.
Qed.

(** The value the step leads to is then close as well. *)
Lemma reported_bound e s a D Err T :
  0 < e <= / 1000 -> 0 < s -> 0 <= a -> 0 <= D ->
  (1 - 2 * (5 * e)) * a <= 2 * D + 2 * (5 * e) * s ->
  Rabs (Err - D) <= e * D -> Err < T ->
  D + a <= 4 * T + 11 * e * s.
Proof.
  intros [E0 E1] Hs Ha HD H1 H2 H3.
  apply Rabs_bounds in H2.
  assert (D * (1 - e) < T) by lra.
  assert (0 <= e * D) by (apply Rmult_le_pos; lra).
  assert (0 < T) by nra.
  assert (0 <= e * a) by (apply Rmult_le_pos; lra).
  assert (0 < e * s) by (apply Rmult_lt_0_compat; lra).
  assert (0 < e * T) by (apply Rmult_lt_0_compat; lra).
  assert (e * D <= / 1000 * D) by (apply Rmult_le_compat_r; lra).
  assert (e * a <= / 1000 * a) by (apply Rmult_le_compat_r; lra).
  lra.
Qed.

End RoundedStepFacts.

Set Implicit Arguments.

(** ** The loop on doubles, through the reals they stand for *)

Module Binary64Loop.

Import Binary64 Binary64Facts Binary64Reals Binary64RealFacts.
Import RoundedStep RoundedStepFacts Platform.

Unset Implicit Arguments.

Local Open Scope R_scope.

(** [binary64] is the platform whose [pow] squares by the correctly rounded
    product. *)
Lemma binary64_with_rounded : binary64_with rounded_square = binary64.
Proof. reflexivity. Qed.

(** The correctly rounded product is an accurate square. *)
Lemma rounded_square_accurate : accurate_square rounded_square.
Proof.
  intros a Fa [A1 A2]. pose proof (bpow_pos (-500)) as P.
  destruct (finite_positive a Fa ltac:(lra)) as (m & e & E).
  pose proof (B2R_finite a false m e E) as V. cbn iota in V.
  rewrite V in *.
  destruct (normal_of_value a false m e (-500) E ltac:(lia) A1) as [D _].
  unfold finite, B2R, rounded_square. rewrite mul_spec, E.
  destruct (SFmul_value false m e false m e D D) as (m' & e' & Em & B).
  - split.
    + apply Rle_trans with (bpow (-500 + -500)); [apply bpow_le; lia|].
      now apply prod_ge.
    + apply Rle_lt_trans with (bpow (500 + 500)); [|apply bpow_lt; lia].
      apply prod_le; lra.
  - rewrite Em. cbn [xorb SFfinite SF2R]. split; [exact I|exact B].
Qed.

Lemma is_nan_finite x : finite x -> is_nan x = false.
Proof.
  unfold finite, is_nan. rewrite eqb_spec. unfold SFeqb.
  destruct (Prim2SF x) as [s|s| |s m e]; try contradiction; intros _.
  - reflexivity.
  - cbn [SFcompare]. rewrite Z.compare_refl.
    change (PosDef.Pos.compare_cont Eq m m) with (Pos.compare m m).
    rewrite Pos.compare_refl. destruct s; reflexivity.
Qed.

Lemma is_infinity_finite x : finite x -> is_infinity x = false.
Proof.
  unfold finite, is_infinity. rewrite eqb_spec, abs_spec, infinity_SF.
  destruct (Prim2SF x) as [s|s| |s m e]; try contradiction; reflexivity.
Qed.

Lemma eqb_zero_false x : finite x -> B2R x <> 0 -> (x =? zero)%float = false.
Proof.
  intros F N. destruct (finite_nonzero x F N) as (s & m & e & E).
  rewrite eqb_spec, zero_SF, E. destruct s; reflexivity.
Qed.

Lemma abs_positive x : finite x -> 0 < B2R x -> abs x = x.
Proof.
  intros F P. destruct (finite_positive x F P) as (m & e & E).
  apply Prim2SF_inj. rewrite abs_spec, E. reflexivity.
Qed.

(** [x**2] of a positive number whose square is in range. *)
Lemma pow2_with_positive pw x :
  finite x -> 0 < B2R x -> finite (pw x) -> pow2_with pw x = Ok (pw x).
Proof.
  intros F P Fs. unfold pow2_with.
  rewrite (is_nan_finite x F), (is_infinity_finite x F).
  unfold is_zero. rewrite (eqb_zero_false x F) by lra.
  rewrite (abs_positive x F P), (is_infinity_finite _ Fs). reflexivity.
Qed.

Lemma guard_nonneg : nonneg 1e-12.
Proof. unfold nonneg. rewrite guard_SF. exact I. Qed.

(** Half the guard's threshold is a double too: the least guess the guard
    lets through. *)
Lemma floor_SF : Prim2SF 5e-13 = S754_finite false 4951760157141521 (-93).
Proof. vm_compute. reflexivity. Qed.

Lemma floor_nonneg : nonneg 5e-13.
Proof. unfold nonneg. rewrite floor_SF. exact I. Qed.

Lemma floor_guard : B2R 1e-12 = 2 * B2R 5e-13.
Proof.
  unfold B2R. rewrite guard_SF, floor_SF. cbn [SF2R].
  replace (bpow (-92)) with (2 * bpow (-93))
    by (rewrite <- bpow_succ; reflexivity).
  ring.
Qed.

Lemma floor_range : bpow (-41) <= B2R 5e-13 <= bpow (-40).
Proof.
  unfold B2R. rewrite floor_SF. cbn [SF2R].
  replace (bpow (-41)) with (IZR (2 ^ 52) * bpow (-93))
    by (rewrite <- (bpow_IZR 52) by lia; rewrite <- bpow_add; reflexivity).
  replace (bpow (-40)) with (IZR (2 ^ 53) * bpow (-93))
    by (rewrite <- (bpow_IZR 53) by lia; rewrite <- bpow_add; reflexivity).
  pose proof (bpow_pos (-93)).
  split; (apply Rmult_le_compat_r; [lra|]); apply IZR_le;
    [change (2 ^ 52)%Z with 4503599627370496%Z
    |change (2 ^ 53)%Z with 9007199254740992%Z]; lia.
Qed.

(** The least target whose root the guard lets through, with a margin for
    the rounding of a pass. *)
Lemma least_SF : Prim2SF 2.6e-25 = S754_finite false 5662298585564416 (-134).
Proof. vm_compute. reflexivity. Qed.

Lemma least_nonneg : nonneg 2.6e-25.
Proof. unfold nonneg. rewrite least_SF. exact I. Qed.

Lemma least_range : bpow (-82) <= B2R 2.6e-25.
Proof.
  unfold B2R. rewrite least_SF. cbn [SF2R].
  replace (bpow (-82)) with (IZR (2 ^ 52) * bpow (-134))
    by (rewrite <- (bpow_IZR 52) by lia; rewrite <- bpow_add; reflexivity).
  pose proof (bpow_pos (-134)).
  apply Rmult_le_compat_r; [lra|]. apply IZR_le.
  change (2 ^ 52)%Z with 4503599627370496%Z. lia.
Qed.

Lemma floor_square :
  B2R 5e-13 * B2R 5e-13 <= (1 - 5 * eps) * ((1 - 5 * eps) * B2R 2.6e-25).
Proof.
  unfold B2R. rewrite floor_SF, least_SF. cbn [SF2R].
  replace (bpow (-134)) with (IZR (2 ^ 52) * bpow (-186))
    by (rewrite <- (bpow_IZR 52) by lia; rewrite <- bpow_add; reflexivity).
  assert (E : bpow (-93) * bpow (-93) = bpow (-186))
    by (rewrite <- bpow_add; reflexivity).
  change (2 ^ 52)%Z with 4503599627370496%Z.
  set (b := bpow (-93)) in *. set (B := bpow (-186)) in *.
  replace (4951760157141521 * b * (4951760157141521 * b))
    with (4951760157141521 * 4951760157141521 * (b * b)) by ring.
  rewrite E, eps_value. pose proof (bpow_pos (-186)) as P. fold B in P. lra.
Qed.

Ltac bp :=
  match goal with
  | |- bpow _ <= bpow _ => apply bpow_le; lia
  | |- bpow _ < bpow _ => apply bpow_lt; lia
  end.

Section Pass.

Variable pw : float -> float.
Hypothesis pw_ok : accurate_square pw.

Variable target_val : float.
Hypothesis N_finite : finite target_val.
Hypothesis N_range : B2R 2.6e-25 <= B2R target_val <= bpow 200.

(** The guesses the loop stays among. *)
Definition moderate (x : float) : Prop :=
  finite x /\ B2R 5e-13 <= B2R x <= bpow 300.

Lemma least_target : bpow (-82) <= B2R target_val.
Proof. pose proof least_range. destruct N_range. lra. Qed.

Lemma target_pos : 0 < B2R target_val.
Proof. pose proof least_target. pose proof (bpow_pos (-82)). lra. Qed.

Lemma moderate_least x : moderate x -> bpow (-41) <= B2R x.
Proof. intros [_ [A _]]. pose proof floor_range. lra. Qed.

Lemma moderate_pos x : moderate x -> 0 < B2R x.
Proof.
  intros H. apply moderate_least in H. pose proof (bpow_pos (-41)). lra.
Qed.

(** One pass from a guess in range: nothing is raised, the guard lets the
    guess through, and the next guess is the exact step within [5 * eps]. *)
Lemma pass64 x :
  moderate x ->
  exists fx x',
    @f float (binary64_with pw) target_val x = Ok fx /\
    @singular float (binary64_with pw) (@df float (binary64_with pw) x) = false /\
    @step float (binary64_with pw) x fx (@df float (binary64_with pw) x) = Ok x' /\
    moderate x' /\
    near_step (5 * eps) (B2R target_val) (B2R x) (B2R x') /\
    nonneg (abs (x' - x)) /\
    Rabs (B2R (abs (x' - x)) - Rabs (B2R x' - B2R x))
      <= eps * Rabs (B2R x' - B2R x).
Proof.
  intros Hx. pose proof (moderate_least x Hx) as X1.
  destruct Hx as [Fx [X0 X2]]. destruct N_range as [N0 N2].
  pose proof least_target as N1.
  pose proof eps_pos as Pe. pose proof eps_small as Se.
  set (X := B2R x) in *. set (N := B2R target_val) in *.
  assert (PX : 0 < X) by (pose proof (bpow_pos (-41)); lra).
  assert (PN : 0 < N) by (pose proof (bpow_pos (-82)); lra).
  (* x**2 *)
  destruct (pw_ok x Fx) as [Fs Hs].
  { fold X. split; [apply Rle_trans with (bpow (-41)); [bp|lra]
                   |apply Rle_trans with (bpow 300); [lra|bp]]. }
  fold X in Hs. set (S := B2R (pw x)) in *.
  assert (XX : bpow (-82) <= X * X <= bpow 600).
  { split; [apply (prod_ge X X (-41) (-41)) | apply (prod_le X X 300 300)];
      lra. }
  assert (PXX : 0 < X * X) by (apply Rmult_lt_0_compat; lra).
  assert (Hs' : Rabs (S - X * X) <= eps * Rabs (X * X))
    by (rewrite (Rabs_right (X * X)) by lra; exact Hs).
  pose proof (rounded_size S (X * X) Hs') as [S1 S2].
  rewrite (Rabs_right (X * X)) in S1, S2 by lra.
  assert (S3 : bpow (-83) <= Rabs S).
  { replace (bpow (-82)) with (2 * bpow (-83)) in XX
      by (rewrite <- bpow_succ; reflexivity). lra. }
  assert (S4 : Rabs S <= bpow 601).
  { replace (bpow 601) with (2 * bpow 600)
      by (rewrite <- bpow_succ; reflexivity). lra. }
  (* fx = x**2 - target_val *)
  assert (SN : Rabs (S - N) <= bpow 602).
  { apply Rle_trans with (Rabs S + Rabs N).
    - replace (S - N) with (S + - N) by ring.
      rewrite <- (Rabs_Ropp N). apply Rabs_triang.
    - rewrite (Rabs_right N) by lra.
      apply (sum_le (Rabs S) N 601); [exact S4|].
      apply Rle_trans with (bpow 200); [lra|bp]. }
  destruct (sub_correct (pw x) target_val (-83) Fs N_finite ltac:(lia))
    as (Ff & Hf & Kf).
  { right. exact S3. }
  { right. fold N. rewrite Rabs_right by lra.
    apply Rle_trans with (bpow (-82)); [bp|lra]. }
  { fold S N. apply Rle_lt_trans with (bpow 602); [exact SN|bp]. }
  fold S N in Hf. change (-83 - 105)%Z with (-188)%Z in Kf.
  set (fx := (pw x - target_val)%float) in *. set (Fv := B2R fx) in *.
  pose proof (rounded_size Fv (S - N) Hf) as [_ F2].
  assert (F3 : Rabs Fv <= bpow 603).
  { replace (bpow 603) with (2 * bpow 602)
      by (rewrite <- bpow_succ; reflexivity). lra. }
  (* dfx = 2*x and the guard *)
  destruct (double_correct x Fx) as [Fd Hd].
  { fold X. rewrite Rabs_right by lra.
    split; [apply Rle_trans with (bpow (-41)); [bp|lra]
           |apply Rle_trans with (bpow 300); [lra|bp]]. }
  fold X in Hd.
  assert (D1 : bpow (-40) <= 2 * X).
  { replace (bpow (-40)) with (2 * bpow (-41))
      by (rewrite <- bpow_succ; reflexivity). lra. }
  assert (D2 : 2 * X <= bpow 301).
  { replace (bpow 301) with (2 * bpow 300)
      by (rewrite <- bpow_succ; reflexivity). lra. }
  destruct (abs_correct (2 * x) Fd) as [Fa Ha].
  rewrite Hd, (Rabs_right (2 * X)) in Ha by lra.
  assert (G : (abs (2 * x) <? 1e-12)%float = false).
  { apply ltb_false_of_le.
    - apply finite_nonneg; [exact Fa | lra].
    - exact guard_nonneg.
    - rewrite floor_guard. lra. }
  (* fx / dfx *)
  assert (Z : (2 * x =? zero)%float = false)
    by (apply eqb_zero_false; [exact Fd | lra]).
  assert (FD : Rabs (Fv / (2 * X)) <= bpow 643).
  { unfold Rdiv. rewrite Rabs_mult, Rabs_inv, (Rabs_right (2 * X)) by lra.
    apply (div_le (Rabs Fv) (2 * X) 603 (-40)); [|exact D1].
    split; [apply Rabs_pos | exact F3]. }
  destruct (div_correct fx (2 * x) Ff Fd) as [Fq Hq].
  { destruct Kf as [K|K]; [left; exact K | right].
    apply Rle_trans with (bpow (-188)); [bp | exact K]. }
  { rewrite Hd, Rabs_right by lra.
    split; [apply Rle_trans with (bpow (-40)); [bp|lra]
           |apply Rle_trans with (bpow 301); [lra|bp]]. }
  { rewrite Hd. fold Fv. apply Rle_lt_trans with (bpow 643); [exact FD|bp]. }
  rewrite Hd in Hq. fold Fv in Hq.
  set (q := (fx / (2 * x))%float) in *. set (Qv := B2R q) in *.
  pose proof (rounded_size Qv (Fv / (2 * X)) Hq) as [Q1 Q2].
  assert (Q3 : Rabs Qv <= bpow 644).
  { replace (bpow 644) with (2 * bpow 643)
      by (rewrite <- bpow_succ; reflexivity). lra. }
  assert (KQ : Qv = 0 \/ bpow (-490) <= Rabs Qv).
  { destruct Kf as [K|K].
    - left. rewrite K in Hq. unfold Rdiv in Hq.
      rewrite Rmult_0_l, Rabs_R0, Rmult_0_r, Rminus_0_r in Hq.
      pose proof (Rabs_pos Qv).
      destruct (Req_dec Qv 0) as [|NQ]; [assumption|].
      apply Rabs_pos_lt in NQ. lra.
    - right.
      assert (bpow (-489) <= Rabs (Fv / (2 * X))).
      { unfold Rdiv. rewrite Rabs_mult, Rabs_inv, (Rabs_right (2 * X)) by lra.
        apply (div_ge (Rabs Fv) (2 * X) (-188) 301); [exact K|lra]. }
      replace (bpow (-489)) with (2 * bpow (-490)) in H
        by (rewrite <- bpow_succ; reflexivity). lra. }
  (* x_next = x_curr - fx/dfx *)
  destruct (sub_correct x q (-490) Fx Fq ltac:(lia)) as (Fn & Hn & _).
  { right. fold X. rewrite Rabs_right by lra.
    apply Rle_trans with (bpow (-41)); [bp|lra]. }
  { exact KQ. }
  { fold X Qv. apply Rle_lt_trans with (bpow 645); [|bp].
    apply Rle_trans with (Rabs X + Rabs Qv).
    - replace (X - Qv) with (X + - Qv) by ring.
      rewrite <- (Rabs_Ropp Qv). apply Rabs_triang.
    - rewrite (Rabs_right X) by lra.
      apply (sum_le X (Rabs Qv) 644); [|exact Q3].
      apply Rle_trans with (bpow 300); [lra|bp]. }
  fold X Qv in Hn.
  set (x' := (x - q)%float) in *. set (X' := B2R x') in *.
  pose proof (pass_real eps X N S Fv Qv X' (conj Pe Se) PX PN Hs' Hf Hq Hn)
    as NS.
  assert (K5 : 0 < 5 * eps <= / 100) by lra.
  assert (L' : B2R 5e-13 <= X').
  { set (s0 := B2R 5e-13 / (1 - 5 * eps)).
    assert (Q : s0 * (1 - 5 * eps) = B2R 5e-13) by (unfold s0; field; lra).
    assert (H : s0 * s0 <= N).
    { apply Rle_trans with (B2R 2.6e-25); [|exact N0].
      pose proof floor_square as FS. rewrite <- Q in FS.
      apply Rmult_le_reg_r with ((1 - 5 * eps) * (1 - 5 * eps)).
      - apply Rmult_lt_0_compat; lra.
      - lra. }
    pose proof (step_lower (5 * eps) s0 N X X' K5 PX NS H) as L.
    lra. }
  assert (L1 : bpow (-41) <= X') by (pose proof floor_range; lra).
  assert (U' : X' <= bpow 300).
  { apply (step_upper (5 * eps) N X X' (bpow (-41)) (bpow 300) (bpow 200)
             K5 PX NS).
    - apply bpow_pos.
    - lra.
    - lra.
    - rewrite <- bpow_add. change (-41 + 300)%Z with 259%Z.
      replace (bpow 259) with (bpow 59 * bpow 200)
        by (rewrite <- bpow_add; reflexivity).
      pose proof (bpow_pos 200).
      assert (4 <= bpow 59).
      { replace 4 with (bpow 2) by (unfold bpow; simpl; ring). bp. }
      set (Y := bpow 59 * bpow 200).
      assert (4 * bpow 200 <= Y) by (apply Rmult_le_compat_r; lra).
      assert (eps * Y <= / 1000 * Y) by (apply Rmult_le_compat_r; lra).
      lra. }
  (* error = abs(x_next - x_curr) *)
  destruct (sub_correct x' x (-41) Fn Fx ltac:(lia)) as (Fe & He & _).
  { right. fold X'. rewrite Rabs_right by (pose proof (bpow_pos (-41)); lra).
    exact L1. }
  { right. fold X. rewrite Rabs_right by lra. lra. }
  { fold X X'. apply Rle_lt_trans with (bpow 301); [|bp].
    apply Rle_trans with (Rabs X' + Rabs X).
    - replace (X' - X) with (X' + - X) by ring.
      rewrite <- (Rabs_Ropp X). apply Rabs_triang.
    - rewrite (Rabs_right X), (Rabs_right X')
        by (pose proof (bpow_pos (-41)); lra).
      apply (sum_le X' X 300); lra. }
  fold X X' in He.
  destruct (abs_correct (x' - x) Fe) as [Fb Hb].
  exists fx, x'. repeat apply conj.
  - change (@f float (binary64_with pw) target_val x)
      with (bind (pow2_with pw x) (fun sq => Ok (sq - target_val)%float)).
    rewrite (pow2_with_positive pw x Fx PX Fs). reflexivity.
  - exact G.
  - change (@step float (binary64_with pw) x fx (@df float (binary64_with pw) x))
      with (bind (truediv fx (2 * x)) (fun q => Ok (x - q)%float)).
    unfold truediv. rewrite Z. reflexivity.
  - exact Fn.
  - exact L'.
  - exact U'.
  - exact (proj1 NS).
  - exact (proj2 NS).
  - apply finite_nonneg; [exact Fb|]. rewrite Hb. apply Rabs_pos.
  - rewrite Hb.
    apply Rle_trans with (Rabs (B2R (x' - x) - (X' - X))); [|exact He].
    apply Rabs_triang_inv2.
Qed.

(** *** The root *)

Let s : R := sqrt (B2R target_val).

Lemma root_sq : B2R target_val = s * s.
Proof.
  unfold s. rewrite sqrt_sqrt; [reflexivity|].
  pose proof target_pos. lra.
Qed.

Lemma root_pos : 0 < s.
Proof.
  unfold s. apply sqrt_lt_R0. exact target_pos.
Qed.

Lemma root_range : bpow (-41) <= s <= bpow 100.
Proof.
  pose proof root_sq as Q. pose proof root_pos as P.
  pose proof (bpow_pos (-41)) as P1. pose proof (bpow_pos 100) as P2.
  pose proof least_target as N1. destruct N_range as [_ N2].
  rewrite Q in N1, N2.
  replace (bpow (-82)) with (bpow (-41) * bpow (-41)) in N1
    by (rewrite <- bpow_add; reflexivity).
  replace (bpow 200) with (bpow 100 * bpow 100) in N2
    by (rewrite <- bpow_add; reflexivity).
  split.
  - destruct (Rle_lt_dec (bpow (-41)) s) as [|G]; [assumption|exfalso].
    assert (s * s < bpow (-41) * bpow (-41))
      by (apply Rmult_le_0_lt_compat; lra). lra.
  - destruct (Rle_lt_dec s (bpow 100)) as [|G]; [assumption|exfalso].
    assert (bpow 100 * bpow 100 < s * s)
      by (apply Rmult_le_0_lt_compat; lra). lra.
Qed.

Lemma K5 : 0 < 5 * eps <= / 100.
Proof. pose proof eps_pos. pose proof eps_small. lra. Qed.

(** *** The loop from a guess in range *)

Variable tol : float.

(** A guess that is not below the root by more than the rounding of a
    pass. *)
Definition above (x : float) : Prop := (1 - 5 * eps) * s <= B2R x.

Lemma run64 n : forall i x,
  moderate x ->
  exists recs lines why x',
    @Trace float (binary64_with pw) target_val tol n i x recs lines why x' /\
    why <> Singular /\
    (forall r, In r recs -> moderate (x_curr r)) /\
    moderate x' /\
    (forall r, In r (tl recs) -> above (x_curr r)) /\
    (above x -> forall r, In r recs -> above (x_curr r)).
Proof.
  induction n as [|n IH]; intros i x Hx.
  - exists [], [], Exhausted, x. repeat apply conj.
    + constructor.
    + discriminate.
    + intros r [].
    + apply Hx.
    + apply Hx.
    + apply Hx.
    + intros r [].
    + intros _ r [].
  - destruct (pass64 x Hx) as (fx & x1 & Ef & Eg & Es & Hx1 & NS & _).
    pose proof (moderate_pos x Hx) as PX.
    assert (A1 : above x1).
    { pose proof (step_lower (5 * eps) s (B2R target_val) (B2R x) (B2R x1)
                    K5 PX NS) as L.
      rewrite <- root_sq in L. exact (L (Rle_refl _)). }
    destruct (@flt float (binary64_with pw)
                (@fabs float (binary64_with pw)
                   (@fsub float (binary64_with pw) x1 x)) tol) eqn:Et.
    + exists [@record float (binary64_with pw) i x fx x1],
        [@row float (binary64_with pw) i x fx x1; ConvergedTo x1],
        Converged, x.
      repeat apply conj.
      * now apply Trace_converged.
      * discriminate.
      * intros r [<-|[]]. exact Hx.
      * apply Hx.
      * apply Hx.
      * apply Hx.
      * intros r [].
      * intros Ax r [<-|[]]. exact Ax.
    + destruct (IH (i + 1)%Z x1 Hx1)
        as (recs & lines & why & x' & T & W & R & Hx' & _ & A).
      exists (@record float (binary64_with pw) i x fx x1 :: recs),
        (@row float (binary64_with pw) i x fx x1 :: lines), why, x'.
      repeat apply conj.
      * now apply Trace_continue.
      * exact W.
      * intros r [<-|Hr]; [exact Hx | now apply R].
      * apply Hx'.
      * apply Hx'.
      * apply Hx'.
      * exact (A A1).
      * intros Ax r [<-|Hr]; [exact Ax | now apply (A A1)].
Qed.

(** *** How close the loop gets to the root *)

Hypothesis tol_nonneg : nonneg tol.

(** The last guess is [close] to the root. *)
Definition close (x : float) : Prop :=
  Rabs (B2R x - s) <= 3 * B2R tol + 11 * eps * s.

(** The guess a stopping pass leads to, the value printed as converged, is
    [reported_close]. *)
Definition reported_close (x : float) : Prop :=
  Rabs (B2R x - s) <= 4 * B2R tol + 11 * eps * s.

(** A pass that stops on [error < tol] started from a guess close to the
    root. *)
Lemma stop_close x x1 :
  moderate x ->
  near_step (5 * eps) (B2R target_val) (B2R x) (B2R x1) ->
  nonneg (abs (x1 - x)) ->
  Rabs (B2R (abs (x1 - x)) - Rabs (B2R x1 - B2R x))
    <= eps * Rabs (B2R x1 - B2R x) ->
  (abs (x1 - x) <? tol)%float = true ->
  close x /\ reported_close x1.
Proof.
  intros Hx NS Ne He Lt. pose proof (moderate_pos x Hx) as P.
  pose proof (step_distance (5 * eps) s (B2R target_val) (B2R x) (B2R x1)
                K5 P NS root_pos root_sq) as D.
  apply (ltb_correct _ _ Ne tol_nonneg) in Lt.
  assert (Ke : 0 < eps <= / 1000)
    by (split; [apply eps_pos | apply eps_small]).
  split.
  - apply (converged_bound eps s (Rabs (B2R x - s)) (Rabs (B2R x1 - B2R x))
             (B2R (abs (x1 - x))) (B2R tol) Ke root_pos
             (Rabs_pos _) (Rabs_pos _) D He Lt).
  - pose proof (reported_bound eps s (Rabs (B2R x - s))
                  (Rabs (B2R x1 - B2R x)) (B2R (abs (x1 - x))) (B2R tol)
                  Ke root_pos (Rabs_pos _) (Rabs_pos _) D He Lt) as B.
    unfold reported_close.
    replace (B2R x1 - s) with ((B2R x1 - B2R x) + (B2R x - s)) by ring.
    pose proof (Rabs_triang (B2R x1 - B2R x) (B2R x - s)). lra.
Qed.

(** How a run that stops on [error < tol] ends. *)
Definition stopped (recs : list (IterationRecord float))
    (lines : list (line float)) : Prop :=
  exists front r shown x1,
    recs = front ++ [r] /\ lines = shown ++ [ConvergedTo x1] /\
    close (x_curr r) /\ reported_close x1.

Definition rate : R := (1 + 5 * eps) / 2.
Definition shift : R := 5 * eps * s.

Lemma run_close n : forall i x E,
  moderate x -> s / 2 <= B2R x -> Rabs (B2R x - s) <= E ->
  exists recs lines why x',
    @Trace float (binary64_with pw) target_val tol n i x recs lines why x' /\
    match why with
    | Singular => False
    | Converged => stopped recs lines
    | Exhausted =>
        length recs = n /\
        forall front r, recs = front ++ [r] ->
          Rabs (B2R (x_curr r) - s) <= drift rate shift (n - 1) E
    end.
Proof.
  induction n as [|n IH]; intros i x E Hx Hs HE.
  - exists [], [], Exhausted, x. split; [constructor|]. split; [reflexivity|].
    intros front r H. destruct front; discriminate.
  - destruct (pass64 x Hx) as (fx & x1 & Ef & Eg & Es & Hx1 & NS & Ne & He).
    pose proof root_pos as Ps. pose proof K5 as [K1 K2].
    assert (PX : 0 < B2R x) by lra.
    destruct (abs (x1 - x) <? tol)%float eqn:Et.
    + exists [@record float (binary64_with pw) i x fx x1],
        [@row float (binary64_with pw) i x fx x1; ConvergedTo x1],
        Converged, x.
      split; [now apply Trace_converged|].
      destruct (stop_close x x1 Hx NS Ne He Et) as [C1 C2].
      exists [], (@record float (binary64_with pw) i x fx x1),
        [@row float (binary64_with pw) i x fx x1], x1.
      repeat apply conj; try reflexivity; assumption.
    + pose proof (step_lower (5 * eps) s (B2R target_val) (B2R x) (B2R x1)
                    K5 PX NS) as L.
      rewrite <- root_sq in L. specialize (L (Rle_refl _)).
      pose proof (step_contract (5 * eps) s (B2R target_val) (B2R x) (B2R x1)
                    K5 PX NS Ps root_sq Hs) as C.
      assert (HE1 : Rabs (B2R x1 - s) <= rate * E + shift).
      { unfold rate, shift.
        assert ((1 + 5 * eps) / 2 * Rabs (B2R x - s) <= (1 + 5 * eps) / 2 * E)
          by (apply Rmult_le_compat_l; lra).
        lra. }
      assert (Hs1 : s / 2 <= B2R x1) by nra.
      destruct (IH (i + 1)%Z x1 (rate * E + shift) Hx1 Hs1 HE1)
        as (recs & lines & why & x' & T & W).
      exists (@record float (binary64_with pw) i x fx x1 :: recs),
        (@row float (binary64_with pw) i x fx x1 :: lines), why, x'.
      split; [now apply Trace_continue|].
      destruct why; [exact W| |].
      * destruct W as (front & r & shown & xn & -> & -> & C1 & C2).
        exists (@record float (binary64_with pw) i x fx x1 :: front), r,
          (@row float (binary64_with pw) i x fx x1 :: shown), xn.
        repeat apply conj; try reflexivity; assumption.
      * destruct W as [Hl Hlast]. split; [cbn [length]; now rewrite Hl|].
        intros front r Hrecs.
        destruct recs as [|r0 recs0] using rev_ind.
        -- destruct front as [|? [|]]; try discriminate.
           cbn in Hrecs. injection Hrecs as <-. cbn in Hl. subst n.
           cbn [drift Nat.sub x_curr record]. exact HE.
        -- clear IHrecs0. rewrite app_comm_cons in Hrecs.
           apply app_inj_tail in Hrecs as [_ <-].
           rewrite length_app in Hl. cbn in Hl.
           specialize (Hlast recs0 r0 eq_refl).
           replace (S n - 1)%nat with (S (n - 1)) by lia.
           exact Hlast.
Qed.

(** The whole loop, from any guess in range: the first pass may start
    below half the root, the others do not. *)
Lemma call_close n x :
  moderate x ->
  exists recs lines why x',
    @Trace float (binary64_with pw) target_val tol n 0 x recs lines why x' /\
    match why with
    | Singular => False
    | Converged => stopped recs lines
    | Exhausted =>
        length recs = n /\
        ((2 <= n)%nat -> forall front r, recs = front ++ [r] ->
           Rabs (B2R (x_curr r) - s) <= drift rate shift (n - 2) (bpow 300))
    end.
Proof.
  intros Hx. destruct n as [|n].
  - exists [], [], Exhausted, x. split; [constructor|]. split; [reflexivity|].
    intros; lia.
  - destruct (pass64 x Hx) as (fx & x1 & Ef & Eg & Es & Hx1 & NS & Ne & He).
    pose proof root_pos as Ps. pose proof K5 as [K1 K2].
    pose proof (moderate_pos x Hx) as PX.
    destruct (abs (x1 - x) <? tol)%float eqn:Et.
    + exists [@record float (binary64_with pw) 0 x fx x1],
        [@row float (binary64_with pw) 0 x fx x1; ConvergedTo x1],
        Converged, x.
      split; [now apply Trace_converged|].
      destruct (stop_close x x1 Hx NS Ne He Et) as [C1 C2].
      exists [], (@record float (binary64_with pw) 0 x fx x1),
        [@row float (binary64_with pw) 0 x fx x1], x1.
      repeat apply conj; try reflexivity; assumption.
    + pose proof (step_lower (5 * eps) s (B2R target_val) (B2R x) (B2R x1)
                    K5 PX NS) as L.
      rewrite <- root_sq in L. specialize (L (Rle_refl _)).
      assert (Hs1 : s / 2 <= B2R x1) by nra.
      assert (HE1 : Rabs (B2R x1 - s) <= bpow 300).
      { pose proof (moderate_pos x1 Hx1) as A.
        destruct Hx1 as [_ [_ B]]. destruct root_range as [C D].
        assert (bpow 100 <= bpow 300) by bp.
        apply Rabs_le. lra. }
      destruct (run_close n 1%Z x1 (bpow 300) Hx1 Hs1 HE1)
        as (recs & lines & why & x' & T & W).
      exists (@record float (binary64_with pw) 0 x fx x1 :: recs),
        (@row float (binary64_with pw) 0 x fx x1 :: lines), why, x'.
      split; [now apply (@Trace_continue float (binary64_with pw))|].
      destruct why; [exact W| |].
      * destruct W as (front & r & shown & xn & -> & -> & C1 & C2).
        exists (@record float (binary64_with pw) 0 x fx x1 :: front), r,
          (@row float (binary64_with pw) 0 x fx x1 :: shown), xn.
        repeat apply conj; try reflexivity; assumption.
      * destruct W as [Hl Hlast]. split; [cbn [length]; now rewrite Hl|].
        intros Hn front r Hrecs.
        destruct recs as [|r0 recs0] using rev_ind.
        -- cbn in Hl. lia.
        -- clear IHrecs0. rewrite app_comm_cons in Hrecs.
           apply app_inj_tail in Hrecs as [_ <-].
           specialize (Hlast recs0 r0 eq_refl).
           replace (S n - 2)%nat with (n - 1)%nat by lia.
           exact Hlast.
Qed.

(** After 400 passes the distance is the rounding of a pass. *)
Lemma rate_pow n : (400 <= n)%nat -> rate ^ n <= bpow (-399).
Proof.
  intros Hn. pose proof K5 as [K1 K2].
  remember 400%nat as m eqn:Hm.
  assert (Im : INR m = 400).
  { subst m. rewrite INR_IZR_INZ. reflexivity. }
  assert (E : (/ 2) ^ m = bpow (-400)).
  { subst m. rewrite pow_powerRZ, powerRZ_inv'.
    change (-400)%Z with (- (400))%Z. now rewrite bpow_opp. }
  assert (A : (1 + 5 * eps) ^ m <= 2).
  { pose proof (pow_one_plus (5 * eps) m ltac:(lra)) as B.
    rewrite Im in B. pose proof eps_value as V. rewrite V in B |- *. lra. }
  apply Rle_trans with (rate ^ m).
  - apply pow_le_from; [unfold rate; lra | exact Hn].
  - unfold rate, Rdiv. rewrite Rpow_mult_distr, E.
    replace (bpow (-399)) with (2 * bpow (-400))
      by (rewrite <- bpow_succ; reflexivity).
    apply Rmult_le_compat_r; [apply Rlt_le, bpow_pos | exact A].
Qed.

Lemma drift_settled n :
  (400 <= n)%nat -> drift rate shift n (bpow 300) <= 11 * eps * s.
Proof.
  intros Hn. pose proof K5 as [K1 K2]. pose proof eps_pos as Pe.
  pose proof root_pos as Ps. destruct root_range as [S1 _].
  apply Rle_trans with (rate ^ n * bpow 300 + shift / (1 - rate)).
  - apply drift_le; [unfold rate; lra|].
    unfold shift. apply Rmult_le_pos; lra.
  - pose proof (rate_pow n Hn) as Rn. pose proof (bpow_pos 300) as P300.
    assert (A : rate ^ n * bpow 300 <= bpow (-99)).
    { replace (bpow (-99)) with (bpow (-399) * bpow 300)
        by (rewrite <- bpow_add; reflexivity).
      apply Rmult_le_compat_r; lra. }
    assert (B : bpow (-99) <= / 64 * (eps * s)).
    { replace (bpow (-99)) with (bpow (-6) * (bpow (-52) * bpow (-41)))
        by (rewrite <- !bpow_add; reflexivity).
      replace (bpow (-6)) with (/ 64)
        by (change (-6)%Z with (- (6))%Z; rewrite bpow_opp, bpow_IZR by lia;
            reflexivity).
      apply Rmult_le_compat_l; [lra|]. unfold eps.
      apply Rmult_le_compat_l; [apply Rlt_le, bpow_pos | exact S1]. }
    assert (C : shift / (1 - rate) <= 10.5 * (eps * s)).
    { unfold shift, rate.
      assert (Pes : 0 < eps * s) by (apply Rmult_lt_0_compat; lra).
      apply Rmult_le_reg_r with (1 - (1 + 5 * eps) / 2); [lra|].
      unfold Rdiv at 1. rewrite Rmult_assoc, Rinv_l by lra.
      pose proof eps_value as V.
      assert (eps * (eps * s) <= / 1000 * (eps * s))
        by (apply Rmult_le_compat_r; pose proof eps_small; lra).
      nra. }
    assert (0 < eps * s) by (apply Rmult_lt_0_compat; lra).
    lra.
Qed.

End Pass.

(** *** Reading the range off the comparisons *)

Lemma zero_nonneg : nonneg 0.
Proof. unfold nonneg. change (Prim2SF 0) with (S754_zero false). exact I. Qed.

Lemma zero_value : B2R 0 = 0.
Proof. unfold B2R. change (Prim2SF 0) with (S754_zero false). reflexivity. Qed.

Lemma in_bounds lo hi b x :
  nonneg lo ->
  Prim2SF hi = S754_finite false 4503599627370496 b ->
  (lo <=? x)%float = true -> (x <=? hi)%float = true ->
  finite x /\ B2R lo <= B2R x <= bpow (52 + b).
Proof.
  intros Nl Eh L H.
  destruct (power_of_two hi b Eh) as [Nh Vh].
  destruct (between lo x hi Nl Nh L H) as [Nx B].
  rewrite Vh in B. split; [now apply nonneg_finite | exact B].
Qed.

Lemma moderate_guess x :
  (5e-13 <=? x)%float = true -> (x <=? 0x1p300)%float = true -> moderate x.
Proof.
  apply (@in_bounds 5e-13 0x1p300 248 x floor_nonneg). vm_compute. reflexivity.
Qed.

Lemma moderate_target t :
  (2.6e-25 <=? t)%float = true -> (t <=? 0x1p200)%float = true ->
  finite t /\ B2R 2.6e-25 <= B2R t <= bpow 200.
Proof.
  apply (@in_bounds 2.6e-25 0x1p200 148 t least_nonneg). vm_compute. reflexivity.
Qed.

(** What being in range means on the doubles themselves. *)
Lemma moderate_facts x :
  moderate x ->
  (0 <? x)%float = true /\ (x <? infinity)%float = true /\
  (abs (2 * x) <? 1e-12)%float = false /\
  (1e-12 <=? abs (2 * x))%float = true.
Proof.
  intros [Fx [X0 X2]]. pose proof (bpow_pos (-41)) as P.
  pose proof floor_range as [X1 _].
  assert (Nx : nonneg x) by (apply finite_nonneg; [exact Fx | lra]).
  destruct (double_correct x Fx) as [Fd Hd].
  { rewrite Rabs_right by lra.
    split; [apply Rle_trans with (bpow (-41)); [bp|lra]
           |apply Rle_trans with (bpow 300); [lra|bp]]. }
  destruct (abs_correct (2 * x) Fd) as [Fa Ha].
  rewrite Hd, (Rabs_right (2 * B2R x)) in Ha by lra.
  assert (Na : nonneg (abs (2 * x))) by (apply finite_nonneg; [exact Fa | lra]).
  assert (G : B2R 1e-12 <= B2R (abs (2 * x))).
  { rewrite Ha, floor_guard. lra. }
  repeat apply conj.
  - apply ltb_of_lt; [exact zero_nonneg | exact Nx | rewrite zero_value; lra].
  - now apply ltb_infinity.
  - apply ltb_false_of_le; [exact Na | exact guard_nonneg | exact G].
  - apply leb_of_le; [exact guard_nonneg | exact Na | exact G].
Qed.

End Binary64Loop.

Set Implicit Arguments.

Local Close Scope float_scope.

Section CallOfTrace.

Context {F : Type} {PF : PyFloat F}.

(** A run of the loop is a call that returns. *)
Lemma Trace_call (target_val tol : F) out x0 max_iter recs lines why x' :
  Trace target_val tol (Z.to_nat max_iter) 0 x0 recs lines why x' ->
  newton_raphson_interactive out target_val x0 tol max_iter =
    Ok {| table := recs;
          printed := (out ++ [Banner target_val x0; Columns]) ++ lines;
          final_root := x';
          ended := why |}.
Proof.
  intros T. unfold newton_raphson_interactive.
  rewrite (Trace_for_range T (entry out target_val x0) eq_refl). reflexivity.
Qed.

End CallOfTrace.

Import Binary64 Binary64Reals Binary64RealFacts.
Import RoundedStep RoundedStepFacts Platform Binary64Loop.

Local Open Scope R_scope.

(** * The amended claims, on doubles *)

(** C10, amended. On doubles, for a [target_val] from [2.6e-25] to [2^200]
    and a guess [x0] from [5e-13], half the guard's threshold, to [2^300],
    whatever [tol] and
    [max_iter] are, and for any platform [pow] that squares to within one
    unit in the last place: the call raises nothing; every [x_curr] met by
    the loop is a positive number, neither an infinity nor a NaN; the guard
    never fires, every division [fx/dfx] being by a [dfx = 2*x_curr] with
    [abs(dfx) >= 1e-12]; and the loop ends by convergence, or after
    [max_iter] passes with as many records. *)
Theorem C10_guesses_in_range_stay_positive
    (pw : float -> float) (target_val x0 tol : float) (max_iter : Z) :
  accurate_square pw ->
  (2.6e-25 <=? target_val)%float = true ->
  (target_val <=? 0x1p200)%float = true ->
  (5e-13 <=? x0)%float = true -> (x0 <=? 0x1p300)%float = true ->
  exists o,
    @solve float (binary64_with pw) target_val x0 tol max_iter = Ok o /\
    (forall r, In r (table o) ->
       (0 <? x_curr r)%float = true /\
       (x_curr r <? infinity)%float = true /\
       (abs (2 * x_curr r) <? 1e-12)%float = false /\
       (1e-12 <=? abs (2 * x_curr r))%float = true) /\
    (0 <? final_root o)%float = true /\
    (ended o = Converged \/
     ended o = Exhausted /\ length (table o) = Z.to_nat max_iter).
Proof.
  intros Hpw N1 N2 G1 G2.
  destruct (moderate_target target_val N1 N2) as [FN RN].
  pose proof (moderate_guess x0 G1 G2) as Hx0.
  destruct (run64 pw Hpw target_val FN RN tol (Z.to_nat max_iter) 0 x0 Hx0)
    as (recs & lines & why & x' & T & W & R & Hx' & _).
  eexists. split; [apply (Trace_call [] max_iter T)|]. cbn [table final_root ended].
  split; [|split].
  - intros r Hr. now apply moderate_facts, R.
  - now apply moderate_facts.
  - pose proof (Trace_exit T) as E.
    destruct why; [contradiction | now left | right; auto].
Qed.

Lemma C10_guesses_in_range_stay_positive_witness :
  accurate_square rounded_square /\
  (2.6e-25 <=? 3)%float = true /\ (3 <=? 0x1p200)%float = true /\
  (5e-13 <=? 2)%float = true /\ (2 <=? 0x1p300)%float = true /\
  exists o,
    @solve float binary64 3%float 2%float default_tol default_max_iter = Ok o /\
    (forall r, In r (table o) ->
       (0 <? x_curr r)%float = true /\
       (x_curr r <? infinity)%float = true /\
       (abs (2 * x_curr r) <? 1e-12)%float = false /\
       (1e-12 <=? abs (2 * x_curr r))%float = true) /\
    (0 <? final_root o)%float = true /\
    (ended o = Converged \/
     ended o = Exhausted /\ length (table o) = Z.to_nat default_max_iter).
Proof.
  split; [exact rounded_square_accurate|].
  split; [reflexivity|]. split; [reflexivity|].
  split; [reflexivity|]. split; [reflexivity|].
  apply (@C10_guesses_in_range_stay_positive rounded_square
           3%float 2%float default_tol default_max_iter
           rounded_square_accurate);
    reflexivity.
Defined.

(** C9, amended. On doubles, in the same ranges, with [0 <= tol < inf] and
    [max_iter >= 402]: the call returns a table that is not empty, and the
    [x_curr] of its last record is within
    [3*tol + 2^-48 * sqrt(target_val)] of [sqrt(target_val)]. As [tol] goes
    to 0 the last [x_curr] comes within a relative [2^-48] of the square
    root, in at most 402 passes; being a double, it need not come
    closer. *)
Theorem C9_last_iterate_is_near_the_root
    (pw : float -> float) (target_val x0 tol : float) (max_iter : Z) :
  accurate_square pw ->
  (2.6e-25 <=? target_val)%float = true ->
  (target_val <=? 0x1p200)%float = true ->
  (5e-13 <=? x0)%float = true -> (x0 <=? 0x1p300)%float = true ->
  (0 <=? tol)%float = true -> (tol <? infinity)%float = true ->
  (402 <= max_iter)%Z ->
  exists o front r,
    @solve float (binary64_with pw) target_val x0 tol max_iter = Ok o /\
    table o = front ++ [r] /\
    Rabs (B2R (x_curr r) - sqrt (B2R target_val))
      <= 3 * B2R tol + bpow (-48) * sqrt (B2R target_val).
Proof.
  intros Hpw N1 N2 G1 G2 T1 T2 Hm.
  destruct (moderate_target target_val N1 N2) as [FN RN].
  pose proof (moderate_guess x0 G1 G2) as Hx0.
  pose proof (nonneg_of_bounds tol T1 T2) as Nt.
  pose proof (nonneg_B2R tol Nt) as Pt.
  pose proof (root_pos target_val RN) as Ps.
  set (s := sqrt (B2R target_val)) in *.
  assert (Small : 11 * eps * s <= bpow (-48) * s).
  { apply Rmult_le_compat_r; [lra|].
    replace (bpow (-48)) with (16 * bpow (-52)).
    - pose proof eps_pos. unfold eps in *. lra.
    - replace 16 with (bpow 4) by (unfold bpow; simpl; ring).
      rewrite <- bpow_add. reflexivity. }
  destruct (call_close pw Hpw target_val FN RN tol Nt (Z.to_nat max_iter) x0 Hx0)
    as (recs & lines & why & x' & T & W).
  pose proof (Trace_call [] max_iter T) as Ho.
  destruct why; [contradiction| |].
  - destruct W as (front & r & shown & xn & E & _ & C & _).
    eexists. exists front, r. split; [exact Ho|]. split; [exact E|].
    unfold close in C. fold s in C. lra.
  - destruct W as [Hl Hlast].
    destruct recs as [|r recs0] using rev_ind; [cbn in Hl; lia|].
    clear IHrecs0.
    eexists. exists recs0, r. split; [exact Ho|]. split; [reflexivity|].
    specialize (Hlast ltac:(lia) recs0 r eq_refl). fold s in Hlast.
    pose proof (drift_settled target_val RN (Z.to_nat max_iter - 2) ltac:(lia))
      as D.
    fold s in D. lra.
Qed.

Lemma C9_last_iterate_is_near_the_root_witness :
  accurate_square rounded_square /\
  (2.6e-25 <=? 3)%float = true /\ (3 <=? 0x1p200)%float = true /\
  (5e-13 <=? 2)%float = true /\ (2 <=? 0x1p300)%float = true /\
  (0 <=? default_tol)%float = true /\
  (default_tol <? infinity)%float = true /\
  (402 <= 500)%Z /\
  exists o front r,
    @solve float binary64 3%float 2%float default_tol 500 = Ok o /\
    table o = front ++ [r] /\
    Rabs (B2R (x_curr r) - sqrt (B2R 3))
      <= 3 * B2R default_tol + bpow (-48) * sqrt (B2R 3).
Proof.
  split; [exact rounded_square_accurate|].
  split; [reflexivity|]. split; [reflexivity|].
  split; [reflexivity|]. split; [reflexivity|].
  split; [reflexivity|]. split; [reflexivity|].
  split; [lia|].
  apply (@C9_last_iterate_is_near_the_root rounded_square
           3%float 2%float default_tol 500 rounded_square_accurate);
    try reflexivity. lia.
Defined.

(** * Further properties, on doubles *)

(** X11. The stopping test is sound up to rounding: on doubles, in the
    ranges of the amended C10 and with [0 <= tol < inf], when the loop ends
    on [error < tol] the [x_curr] of the last record is within
    [3*tol + 2^-48 * sqrt(target_val)] of the square root, and the value
    printed as converged, the [x_next] of that pass, within
    [4*tol + 2^-48 * sqrt(target_val)]. *)
Theorem converged_value_is_near_the_root
    (pw : float -> float) (target_val x0 tol : float) (max_iter : Z)
    (o : outcome float) :
  accurate_square pw ->
  (2.6e-25 <=? target_val)%float = true ->
  (target_val <=? 0x1p200)%float = true ->
  (5e-13 <=? x0)%float = true -> (x0 <=? 0x1p300)%float = true ->
  (0 <=? tol)%float = true -> (tol <? infinity)%float = true ->
  @solve float (binary64_with pw) target_val x0 tol max_iter = Ok o ->
  ended o = Converged ->
  exists front r shown x_next,
    table o = front ++ [r] /\
    printed o = shown ++ [ConvergedTo x_next] /\
    Rabs (B2R (x_curr r) - sqrt (B2R target_val))
      <= 3 * B2R tol + bpow (-48) * sqrt (B2R target_val) /\
    Rabs (B2R x_next - sqrt (B2R target_val))
      <= 4 * B2R tol + bpow (-48) * sqrt (B2R target_val).
Proof.
  intros Hpw N1 N2 G1 G2 T1 T2 Ho He.
  destruct (moderate_target target_val N1 N2) as [FN RN].
  pose proof (moderate_guess x0 G1 G2) as Hx0.
  pose proof (nonneg_of_bounds tol T1 T2) as Nt.
  pose proof (root_pos target_val RN) as Ps.
  set (s := sqrt (B2R target_val)) in *.
  assert (Small : 11 * eps * s <= bpow (-48) * s).
  { apply Rmult_le_compat_r; [lra|].
    replace (bpow (-48)) with (16 * bpow (-52)).
    - pose proof eps_pos. unfold eps in *. lra.
    - replace 16 with (bpow 4) by (unfold bpow; simpl; ring).
      rewrite <- bpow_add. reflexivity. }
  destruct (call_close pw Hpw target_val FN RN tol Nt (Z.to_nat max_iter) x0 Hx0)
    as (recs & lines & why & x' & T & W).
  pose proof (Trace_call [] max_iter T) as Ho'.
  unfold solve in Ho. rewrite Ho' in Ho. injection Ho as <-.
  cbn [ended] in He. subst why. cbn [table printed].
  destruct W as (front & r & shown & xn & E1 & E2 & C1 & C2).
  exists front, r, ([Banner target_val x0; Columns] ++ shown), xn.
  unfold close in C1. unfold reported_close in C2. fold s in C1, C2.
  repeat apply conj.
  - exact E1.
  - rewrite E2. reflexivity.
  - lra.
  - lra.
Qed.

Lemma converged_value_is_near_the_root_witness :
  accurate_square rounded_square /\
  (2.6e-25 <=? 3)%float = true /\ (3 <=? 0x1p200)%float = true /\
  (5e-13 <=? 2)%float = true /\ (2 <=? 0x1p300)%float = true /\
  (0 <=? default_tol)%float = true /\
  (default_tol <? infinity)%float = true /\
  @solve float binary64 3%float 2%float default_tol default_max_iter
    = Ok run_sqrt3 /\
  ended run_sqrt3 = Converged /\
  exists front r shown x_next,
    table run_sqrt3 = front ++ [r] /\
    printed run_sqrt3 = shown ++ [ConvergedTo x_next] /\
    Rabs (B2R (x_curr r) - sqrt (B2R 3))
      <= 3 * B2R default_tol + bpow (-48) * sqrt (B2R 3) /\
    Rabs (B2R x_next - sqrt (B2R 3))
      <= 4 * B2R default_tol + bpow (-48) * sqrt (B2R 3).
Proof.
  split; [exact rounded_square_accurate|].
  split; [reflexivity|]. split; [reflexivity|].
  split; [reflexivity|]. split; [reflexivity|].
  split; [reflexivity|]. split; [reflexivity|].
  split; [vm_compute; reflexivity|]. split; [reflexivity|].
  apply (@converged_value_is_near_the_root rounded_square
           3%float 2%float default_tol default_max_iter run_sqrt3
           rounded_square_accurate);
    reflexivity.
Defined.

(** X12. After the first pass the guesses do not fall below the root by
    more than the rounding of a pass: on doubles, in the ranges of the
    amended C10, every [x_curr] from the second record on is at least
    [(1 - 2^-49) * sqrt(target_val)]. *)
Theorem later_guesses_stay_above_the_root
    (pw : float -> float) (target_val x0 tol : float) (max_iter : Z)
    (o : outcome float) :
  accurate_square pw ->
  (2.6e-25 <=? target_val)%float = true ->
  (target_val <=? 0x1p200)%float = true ->
  (5e-13 <=? x0)%float = true -> (x0 <=? 0x1p300)%float = true ->
  @solve float (binary64_with pw) target_val x0 tol max_iter = Ok o ->
  forall r, In r (tl (table o)) ->
    (1 - bpow (-49)) * sqrt (B2R target_val) <= B2R (x_curr r).
Proof.
  intros Hpw N1 N2 G1 G2 Ho r Hr.
  destruct (moderate_target target_val N1 N2) as [FN RN].
  pose proof (moderate_guess x0 G1 G2) as Hx0.
  pose proof (root_pos target_val RN) as Ps.
  destruct (run64 pw Hpw target_val FN RN tol (Z.to_nat max_iter) 0 x0 Hx0)
    as (recs & lines & why & x' & T & _ & _ & _ & A & _).
  pose proof (Trace_call [] max_iter T) as Ho'.
  unfold solve in Ho. rewrite Ho' in Ho. injection Ho as <-.
  cbn [table] in Hr. specialize (A r Hr). unfold above in A.
  set (s := sqrt (B2R target_val)) in *.
  assert (5 * eps * s <= bpow (-49) * s).
  { apply Rmult_le_compat_r; [lra|].
    replace (bpow (-49)) with (8 * bpow (-52)).
    - pose proof eps_pos. unfold eps in *. lra.
    - replace 8 with (bpow 3) by (unfold bpow; simpl; ring).
      rewrite <- bpow_add. reflexivity. }
  lra.
Qed.

Lemma later_guesses_stay_above_the_root_witness :
  accurate_square rounded_square /\
  (2.6e-25 <=? 3)%float = true /\ (3 <=? 0x1p200)%float = true /\
  (5e-13 <=? 2)%float = true /\ (2 <=? 0x1p300)%float = true /\
  @solve float binary64 3%float 2%float default_tol default_max_iter
    = Ok run_sqrt3 /\
  forall r, In r (tl (table run_sqrt3)) ->
    (1 - bpow (-49)) * sqrt (B2R 3) <= B2R (x_curr r).
Proof.
  split; [exact rounded_square_accurate|].
  split; [reflexivity|]. split; [reflexivity|].
  split; [reflexivity|]. split; [reflexivity|].
  split; [vm_compute; reflexivity|].
  apply (@later_guesses_stay_above_the_root rounded_square
           3%float 2%float default_tol default_max_iter run_sqrt3
           rounded_square_accurate);
    reflexivity.
Defined.
